(** * Note thread component: reply-tree building and related-record enrichment

    A shallow embedding of the three variants of the Lightning note
    component ([part_000], [note.js], [noteComponent.js]):

    - [processNotes]: the two-pass grouping of a flat list of note records
      into root notes carrying their replies, with the carry-over of the
      expansion flags from the notes currently shown;
    - [loadAllRelatedRecords] / [loadRelatedRecordsForNote]: the fan-out of
      one [getLinkedRecords] call per node, joined by [Promise.all];
    - [loadNotes]: the entry point that fetches, builds and publishes.

    Conventions of the embedding.
    - Field values of the records that come back from Apex are JavaScript
      primitives ([jsval]); numbers are integers (no NaN, no negative zero),
      so [SameValueZero], the key equality of a JS [Map], is Leibniz
      equality.  A character of a [string] stands for one UTF-16 code unit.
    - A JS exception or a promise rejection carries a [jserror]; code that
      can throw lives in the [result] monad.
    - Node objects are records; an array of object references that is
      mutated in place is a list updated by index (the index is the
      reference). *)

From Stdlib Require Import ZArith String List.
From stdpp Require Import base decidable countable gmap strings list pretty.

Local Open Scope list_scope.

(** ** JavaScript values *)

Inductive jsval :=
  | JUndefined
  | JNull
  | JBool (b : bool)
  | JNum (n : Z)
  | JStr (s : string).

#[global] Instance jsval_eq_dec : EqDecision jsval.
Proof. solve_decision. Defined.

#[global] Instance jsval_countable : Countable jsval.
Proof.
  refine (inj_countable'
    (λ v, match v with
          | JUndefined => inl (inl ())
          | JNull => inl (inr ())
          | JBool b => inr (inl b)
          | JNum n => inr (inr (inl n))
          | JStr s => inr (inr (inr s))
          end)
    (λ c, match c with
          | inl (inl _) => JUndefined
          | inl (inr _) => JNull
          | inr (inl b) => JBool b
          | inr (inr (inl n)) => JNum n
          | inr (inr (inr s)) => JStr s
          end) _).
  by intros [].
Defined.

(** [ToBoolean]: what [if (v)], [!v], [v && _] and [v || _] test. *)
Definition to_boolean (v : jsval) : bool :=
  match v with
  | JUndefined | JNull => false
  | JBool b => b
  | JNum n => negb (n =? 0)%Z
  | JStr s => negb (String.eqb s "")
  end.

(** [ToString]: what a template literal and [+] with a string apply. *)
Definition to_string (v : jsval) : string :=
  match v with
  | JUndefined => "undefined"
  | JNull => "null"
  | JBool true => "true"
  | JBool false => "false"
  | JNum n => pretty n
  | JStr s => s
  end.

(** [Array.prototype.join]: [undefined] and [null] elements print as the
    empty string, the others through [ToString]. *)
Definition join_element (v : jsval) : string :=
  match v with
  | JUndefined | JNull => ""
  | _ => to_string v
  end.

Definition join (sep : string) (l : list jsval) : string :=
  String.concat sep (map join_element l).

(** [' '.repeat(n)] *)
Fixpoint repeat_space (n : nat) : string :=
  match n with
  | O => ""
  | S n' => " " +:+ repeat_space n'
  end.

(** ** Errors and the exception monad *)

Module Err.
(** The [body] of an Apex error: [message], [pageErrors[i].message] and
    [fieldErrors[field][i].message]. *)
Record body := {
  message : jsval;
  pageErrors : option (list jsval);
  fieldErrors : option (list (string * list jsval))
}.
End Err.

Inductive jserror :=
  | ErrPrim (v : jsval)
  | ErrObj (body : option Err.body) (message : jsval).

(** The [TypeError] an engine raises on a property read of [undefined] or
    [null]; an [Error] object has a [message] and no [body]. *)
Definition TypeError (msg : string) : jserror := ErrObj None (JStr msg).

Inductive result (A : Type) :=
  | Ok (a : A)
  | Throw (e : jserror).
Arguments Ok {A} a.
Arguments Throw {A} e.

#[global] Instance result_ret : MRet result := λ A a, Ok a.
#[global] Instance result_bind : MBind result := λ A B f m,
  match m with
  | Ok a => f a
  | Throw e => Throw e
  end.

(** [l.forEach(x => ...)] with a loop body that updates the captured
    variables [s] and may throw, which abandons the loop. *)
Fixpoint forEachM {A S : Type} (f : S → A → result S) (l : list A) (s : S)
  : result S :=
  match l with
  | [] => Ok s
  | x :: l' => s' ← f s x; forEachM f l' s'
  end.

(** State of a promise: pending, fulfilled with a value, or rejected. *)
Abbreviation promise A := (option (result A)) (only parsing).

(** How an awaited remote call settles. *)
Inductive settled (A : Type) :=
  | Fulfilled (a : A)
  | Rejected (e : jserror).
Arguments Fulfilled {A} a.
Arguments Rejected {A} e.

(** [await p] once [p] has settled: the value, or the rejection thrown. *)
Definition await {A : Type} (o : settled A) : result A :=
  match o with
  | Fulfilled a => Ok a
  | Rejected e => Throw e
  end.

(** ** The data model *)

(** A note record as [getNotes] returns it. *)
Record rawNote := {
  Id : jsval;
  Title__c : jsval;
  Category__c : jsval;
  Body__c : jsval;
  Parent_Note__c : jsval;
  Is_Reply__c : jsval;
  Thread_Count__c : jsval;
  CreatedDate : jsval;
  CreatedBy : jsval
}.

#[global] Instance rawNote_eq_dec : EqDecision rawNote.
Proof. solve_decision. Defined.

(** The argument of [processNotes]: a primitive (among them [undefined] and
    [null]), an object that is not an array, or an array of note records. *)
Inductive jsinput :=
  | InPrim (v : jsval)
  | InObject
  | InArray (l : list rawNote).

Definition input_to_boolean (x : jsinput) : bool :=
  match x with
  | InPrim v => to_boolean v
  | InObject | InArray _ => true
  end.

Definition isArray (x : jsinput) : bool :=
  match x with
  | InArray _ => true
  | _ => false
  end.

Definition elements (x : jsinput) : list rawNote :=
  match x with
  | InArray l => l
  | _ => []
  end.

Module LinkedRecord.
(** A record as [getLinkedRecords] returns it. *)
Record t := {
  Id : jsval;
  Name : jsval;
  RelatedObject : jsval
}.
End LinkedRecord.

(** The three properties [loadRelatedRecordsForNote] writes; [linkedRecords]
    is [null] ([None]) until then. *)
Record enrichment := {
  relatedRecordsDisplay : string;
  linkedRecords : option (list LinkedRecord.t);
  isLoading : bool
}.

(** A node object: the nine properties copied from the record, and the
    enrichment properties [E] of the variant ([unit] where it has none).
    A reply is a [node]; a root is a [parentNote]: a node with its [replies]
    array and the properties [X] only roots have. *)
Record node (E : Type) := {
  fields : rawNote;
  enrich : E
}.
Arguments fields {E} _.
Arguments enrich {E} _.

Record parentNote (E X : Type) := {
  self : node E;
  replies : list (node E);
  extras : X
}.
Arguments self {E X} _.
Arguments replies {E X} _.
Arguments extras {E X} _.

(** ** The two passes of [processNotes]

    The three variants run the same two loops over [rawNotes]; they differ
    in the object literals ([newParent], [newReply]).  [parentNotes] is the
    array of root objects, [noteMap] maps an [Id] to the root object last
    registered under it: a reference, here the index of that object in
    [parentNotes] (an object is pushed when it is created and never
    removed). *)
Section TwoPass.
Context {E X : Type}.
Variable newParent : rawNote → result (parentNote E X).
Variable newReply : rawNote → node E.

(** [p.replies.push(r)] *)
Definition pushReply (r : node E) (p : parentNote E X) : parentNote E X :=
  {| self := self p; replies := replies p ++ [r]; extras := extras p |}.

Definition firstPass
    (acc : gmap jsval nat * list (parentNote E X)) (note : rawNote)
  : result (gmap jsval nat * list (parentNote E X)) :=
  let '(noteMap, parentNotes) := acc in
  if negb (to_boolean (Is_Reply__c note)) then
    created ← newParent note;
    Ok (<[Id note := List.length parentNotes]> noteMap,
        parentNotes ++ [created])
  else Ok acc.

Definition secondPass (noteMap : gmap jsval nat)
    (parentNotes : list (parentNote E X)) (note : rawNote)
  : list (parentNote E X) :=
  if to_boolean (Is_Reply__c note) then
    match noteMap !! Parent_Note__c note with
    | Some ref => alter (pushReply (newReply note)) ref parentNotes
    | None => parentNotes
    end
  else parentNotes.

Definition groupNotes (rawNotes : list rawNote)
  : result (list (parentNote E X)) :=
  '(noteMap, parentNotes) ← forEachM firstPass rawNotes (∅, []);
  Ok (foldl (secondPass noteMap) parentNotes rawNotes).
End TwoPass.

(** The early return of every variant:
    [if (!rawNotes || !Array.isArray(rawNotes)) return [];] *)
Definition notAnArray (rawNotes : jsinput) : bool :=
  negb (input_to_boolean rawNotes) || negb (isArray rawNotes).

(** The nine properties every object literal copies from the record. *)
Definition copyFields (note : rawNote) : rawNote :=
  {| Id := Id note;
     Title__c := Title__c note;
     Category__c := Category__c note;
     Body__c := Body__c note;
     Parent_Note__c := Parent_Note__c note;
     Is_Reply__c := Is_Reply__c note;
     Thread_Count__c := Thread_Count__c note;
     CreatedDate := CreatedDate note;
     CreatedBy := CreatedBy note |}.

(** ** Code that mutates an object and may throw

    [mutator S A]: a computation on a mutable object (or on [this]) of
    type [S] that ends with a value of type [A] or throws; the mutations
    made before a [throw] stay, as in JavaScript. *)
Definition mutator (S A : Type) : Type := S → S * result A.

#[global] Instance mutator_ret {S} : MRet (mutator S) := λ A a s, (s, Ok a).
#[global] Instance mutator_bind {S} : MBind (mutator S) := λ A B f m s,
  match m s with
  | (s', Ok a) => f a s'
  | (s', Throw e) => (s', Throw e)
  end.

Definition getThis {S} : mutator S S := λ s, (s, Ok s).
Definition assign {S} (f : S → S) : mutator S unit := λ s, (f s, Ok ()).
Definition lift {S A} (r : result A) : mutator S A := λ s, (s, r).

(** [try { body } catch (error) { handler }] *)
Definition tryCatch {S A} (body : mutator S A)
    (handler : jserror → mutator S A) : mutator S A := λ s,
  match body s with
  | (s', Throw error) => handler error s'
  | done => done
  end.

(** [try { body } finally { final }] *)
Definition tryFinally {S A} (body : mutator S A) (final : mutator S unit)
  : mutator S A := λ s,
  let '(s1, completion) := body s in
  match final s1 with
  | (s2, Ok _) => (s2, completion)
  | (s2, Throw e) => (s2, Throw e)
  end.

(** ** Enrichment: [loadRelatedRecordsForNote] and [loadAllRelatedRecords] *)

Definition set_relatedRecordsDisplay (v : string) (note : node enrichment)
  : node enrichment :=
  {| fields := fields note;
     enrich := {| relatedRecordsDisplay := v;
                  linkedRecords := linkedRecords (enrich note);
                  isLoading := isLoading (enrich note) |} |}.

Definition set_linkedRecords (v : option (list LinkedRecord.t))
    (note : node enrichment) : node enrichment :=
  {| fields := fields note;
     enrich := {| relatedRecordsDisplay := relatedRecordsDisplay (enrich note);
                  linkedRecords := v;
                  isLoading := isLoading (enrich note) |} |}.

Definition set_isLoading (v : bool) (note : node enrichment)
  : node enrichment :=
  {| fields := fields note;
     enrich := {| relatedRecordsDisplay := relatedRecordsDisplay (enrich note);
                  linkedRecords := linkedRecords (enrich note);
                  isLoading := v |} |}.

(** What [getLinkedRecords] resolves with: [null]/[undefined] ([None]) or an
    array of records. *)
Abbreviation fetched := (option (list LinkedRecord.t)) (only parsing).

(** [linkedRecords && linkedRecords.length > 0] *)
Definition nonEmpty (linkedRecords : fetched) : bool :=
  match linkedRecords with
  | Some (_ :: _) => true
  | _ => false
  end.

(** [loadRelatedRecordsForNote(note)] from the point where the awaited
    [getLinkedRecords({ noteId: note.Id })] has settled; the part before is
    the call itself.  The completion is that of the promise the async
    function returned. *)
Definition loadRelatedRecordsForNote (getLinkedRecords : settled fetched)
  : mutator (node enrichment) unit :=
  tryCatch
    (linkedRecords ← lift (await getLinkedRecords);
     (if nonEmpty linkedRecords then
        let recordNames := LinkedRecord.Name <$> default [] linkedRecords in
        assign (set_relatedRecordsDisplay (join ", " recordNames));;
        assign (set_linkedRecords linkedRecords)
      else
        assign (set_relatedRecordsDisplay "Current record only");;
        assign (set_linkedRecords (Some [])));;
     assign (set_isLoading false))
    (λ error,
       assign (set_relatedRecordsDisplay "Error loading related records");;
       assign (set_linkedRecords (Some []));;
       assign (set_isLoading false)).

(** [Promise.all(promises)]: rejected as soon as one of [promises] is,
    fulfilled once all are, pending otherwise. *)
Definition isRejected {A} (p : promise A) : bool :=
  match p with Some (Throw _) => true | _ => false end.

Definition isFulfilled {A} (p : promise A) : bool :=
  match p with Some (Ok _) => true | _ => false end.

Definition promiseAll (promises : list (promise unit)) : promise unit :=
  match list_find (λ p, isRejected p = true) promises with
  | Some (_, Some (Throw e)) => Some (Throw e)
  | _ => if forallb isFulfilled promises then Some (Ok ()) else None
  end.

Section Enrichment.
Context {X : Type}.

(** The node objects in the order the two nested [for ... of] loops visit
    them: each root, then its replies.  The k-th of them is the argument
    of the k-th call of [loadRelatedRecordsForNote], whose promise is
    [promises[k]]. *)
Definition nodesOf (notes : list (parentNote enrichment X))
  : list (node enrichment) :=
  n ← notes; self n :: replies n.

(** The tree [notes] read through the store: its k-th node object (in the
    order of [nodesOf], counted from [k]) is [store[k]]. *)
Fixpoint snapshot (store : list (node enrichment)) (k : nat)
    (notes : list (parentNote enrichment X))
  : list (parentNote enrichment X) :=
  match notes with
  | [] => []
  | n :: rest =>
      {| self := default (self n) (store !! k);
         replies := imap (λ j r, default r (store !! (k + S j))) (replies n);
         extras := extras n |}
      :: snapshot store (k + S (List.length (replies n))) rest
  end.

(** One call of [loadAllRelatedRecords(notes)] in flight: the node
    objects, the promise of each [getLinkedRecords] call ([None]: still
    pending) and the promise of each [loadRelatedRecordsForNote] call. *)
Record flight := {
  store : list (node enrichment);
  fetches : list (option (settled fetched));
  promises : list (promise unit)
}.

(** The synchronous part: every node is visited, every fetch is issued,
    every async call is suspended at its [await]. *)
Definition launch (notes : list (parentNote enrichment X)) : flight :=
  let nodes := nodesOf notes in
  {| store := nodes;
     fetches := replicate (List.length nodes) None;
     promises := replicate (List.length nodes) None |}.

(** What happens next: the platform settles a pending fetch, or the event
    loop resumes a call whose fetch has settled. *)
Inductive event :=
  | Settle (k : nat) (o : settled fetched)
  | Resume (k : nat).

Definition step (ev : event) (s : flight) : option flight :=
  match ev with
  | Settle k o =>
      match fetches s !! k with
      | Some None =>
          Some {| store := store s;
                  fetches := <[k := Some o]> (fetches s);
                  promises := promises s |}
      | _ => None
      end
  | Resume k =>
      match fetches s !! k, promises s !! k, store s !! k with
      | Some (Some o), Some None, Some note =>
          let '(note', completion) := loadRelatedRecordsForNote o note in
          Some {| store := <[k := note']> (store s);
                  fetches := fetches s;
                  promises := <[k := Some completion]> (promises s) |}
      | _, _, _ => None
      end
  end.

Fixpoint steps (evs : list event) (s : flight) : option flight :=
  match evs with
  | [] => Some s
  | ev :: evs' => s' ← step ev s; steps evs' s'
  end.

(** The promise [loadAllRelatedRecords] returned: the function awaits
    [Promise.all(promises)] and then returns. *)
Definition loadAllRelatedRecords_promise (s : flight) : promise unit :=
  promiseAll (promises s).

(** The tree as it stands in a state of the flight. *)
Definition treeOf (notes : list (parentNote enrichment X)) (s : flight)
  : list (parentNote enrichment X) :=
  snapshot (store s) 0 notes.

(** [await this.loadAllRelatedRecords(notes)] when the k-th fetch settles
    as [outs k]: the enriched tree, or the rejection of [Promise.all].
    Every call has settled here, so [Promise.all] is not pending. *)
Definition loadAllRelatedRecords (outs : nat → settled fetched)
    (notes : list (parentNote enrichment X))
  : result (list (parentNote enrichment X)) :=
  let done := imap (λ k note, loadRelatedRecordsForNote (outs k) note)
                   (nodesOf notes) in
  match promiseAll ((λ d, Some (snd d)) <$> done) with
  | Some (Throw e) => Throw e
  | _ => Ok (snapshot (fst <$> done) 0 notes)
  end.
End Enrichment.

(** ** The component *)

(** A [ShowToastEvent] handed to [dispatchEvent]. *)
Record toast := {
  title : string;
  message : string;
  variant : string
}.

(** [error.body] and [error.message]; a property read on a primitive that
    is not [undefined] or [null] gives [undefined]. *)
Definition error_to_boolean (error : jserror) : bool :=
  match error with
  | ErrPrim v => to_boolean v
  | ErrObj _ _ => true
  end.

Definition error_body (error : jserror) : option Err.body :=
  match error with
  | ErrObj body _ => body
  | ErrPrim _ => None
  end.

Definition error_message (error : jserror) : jsval :=
  match error with
  | ErrObj _ message => message
  | ErrPrim _ => JUndefined
  end.

(** [error.body && error.body.message], as a value *)
Definition body_message (error : jserror) : jsval :=
  match error_body error with
  | Some body => Err.message body
  | None => JUndefined
  end.

(** [getErrorMessage] of [note.js] and [noteComponent.js] *)
Definition getErrorMessage (error : jserror) : jsval :=
  if error_to_boolean error && to_boolean (body_message error)
  then body_message error
  else if error_to_boolean error && to_boolean (error_message error)
  then error_message error
  else JStr "Unknown error occurred".

(** The reactive fields of the component that the modelled methods touch,
    and the events it has dispatched. *)
Record component (P : Type) := {
  this_recordId : jsval;
  this_objectApiName : jsval;
  this_notes : list P;
  this_expandedSections : list jsval;
  this_isLoading : bool;
  dispatched : list toast
}.
Arguments this_recordId {P} _.
Arguments this_objectApiName {P} _.
Arguments this_notes {P} _.
Arguments this_expandedSections {P} _.
Arguments this_isLoading {P} _.
Arguments dispatched {P} _.

Section Component.
Context {P : Type}.

Definition set_this_notes (v : list P) (this : component P) : component P :=
  {| this_recordId := this_recordId this;
     this_objectApiName := this_objectApiName this;
     this_notes := v;
     this_expandedSections := this_expandedSections this;
     this_isLoading := this_isLoading this;
     dispatched := dispatched this |}.

Definition set_this_expandedSections (v : list jsval) (this : component P)
  : component P :=
  {| this_recordId := this_recordId this;
     this_objectApiName := this_objectApiName this;
     this_notes := this_notes this;
     this_expandedSections := v;
     this_isLoading := this_isLoading this;
     dispatched := dispatched this |}.

Definition set_this_isLoading (v : bool) (this : component P) : component P :=
  {| this_recordId := this_recordId this;
     this_objectApiName := this_objectApiName this;
     this_notes := this_notes this;
     this_expandedSections := this_expandedSections this;
     this_isLoading := v;
     dispatched := dispatched this |}.

(** [this.dispatchEvent(new ShowToastEvent({ title, message, variant }))] *)
Definition showToast (title message variant : string) (this : component P)
  : component P :=
  {| this_recordId := this_recordId this;
     this_objectApiName := this_objectApiName this;
     this_notes := this_notes this;
     this_expandedSections := this_expandedSections this;
     this_isLoading := this_isLoading this;
     dispatched := dispatched this ++
       [{| title := title; message := message; variant := variant |}] |}.

(** [loadNotes] of [note.js] and [noteComponent.js], which differ in
    [processNotes] only.  [getNotes] is how the awaited call settles,
    [outs k] how the k-th [getLinkedRecords] call does.  The completion is
    that of the promise [loadNotes] returns. *)
Variable processNotes :
  jsinput → (nat → settled fetched) → mutator (component P) (list P).

Definition loadNotesWith (getNotes : settled jsinput)
    (outs : nat → settled fetched) : mutator (component P) unit :=
  this ← getThis;
  if negb (to_boolean (this_recordId this))
     || negb (to_boolean (this_objectApiName this))
  then mret ()
  else
    tryFinally
      (tryCatch
         (assign (set_this_isLoading true);;
          result ← lift (await getNotes);
          notes ← processNotes result outs;
          assign (set_this_notes notes))
         (λ error,
            assign (showToast "Error"
                      ("Failed to load notes: "
                         +:+ to_string (getErrorMessage error))
                      "error");;
            assign (set_this_notes [])))
      (assign (set_this_isLoading false)).
End Component.

(** ** Variant without enrichment ([part_000]) *)
Module Basic.
Abbreviation parentNote := (parentNote unit unit) (only parsing).

Definition newParent (note : rawNote) : result parentNote :=
  Ok {| self := {| fields := copyFields note; enrich := () |};
        replies := [];
        extras := () |}.

Definition newReply (note : rawNote) : node unit :=
  {| fields := copyFields note; enrich := () |}.

Definition processNotes (rawNotes : jsinput) : result (list parentNote) :=
  if notAnArray rawNotes then Ok []
  else groupNotes newParent newReply (elements rawNotes).

(** The messages collected from [error.body.fieldErrors]:
    one [`${field}: ${fieldError.message}`] per field error. *)
Definition fieldErrorMessages (fieldErrors : list (string * list jsval))
  : list jsval :=
  '(field, errors) ← fieldErrors;
  map (λ m, JStr (field +:+ ": " +:+ to_string m)) errors.

(** [getErrorMessage] of this variant, which looks further into the
    error than the other two. *)
Definition getErrorMessage (error : jserror) : jsval :=
  if negb (error_to_boolean error) then JStr "Unknown error occurred"
  else if to_boolean (body_message error) then body_message error
  else
    match error_body error ≫= Err.pageErrors with
    | Some (first :: _) => first
    | _ =>
      match fieldErrorMessages <$> (error_body error ≫= Err.fieldErrors) with
      | Some (m :: ms) => JStr (join "; " (m :: ms))
      | _ =>
        if to_boolean (error_message error) then error_message error
        else match error with
             | ErrPrim (JStr s) => JStr s
             | _ => JStr "Unknown error occurred"
             end
      end
    end.

(** [loadNotes] is not async here: it returns [undefined] at once and
    leaves the chain [getNotes(...).then(...).catch(...)] behind; this is
    the component once that chain has run. *)
Definition loadNotes (getNotes : settled jsinput)
    (this : component parentNote) : component parentNote :=
  if negb (to_boolean (this_recordId this))
     || negb (to_boolean (this_objectApiName this))
  then this
  else
    fst (tryCatch
           (result ← lift (await getNotes);
            notes ← lift (processNotes result);
            assign (set_this_notes notes))
           (λ error,
              let errorMessage := getErrorMessage error in
              assign (showToast "Error"
                        ("Failed to load notes: " +:+ to_string errorMessage)
                        "error"))
           this).
End Basic.

(** The property [length] of a record field: a string has one, [undefined]
    and [null] make the read throw, a boolean or a number has none. *)
Definition lengthOf (v : jsval) : result (option nat) :=
  match v with
  | JUndefined =>
      Throw (TypeError "Cannot read properties of undefined (reading 'length')")
  | JNull =>
      Throw (TypeError "Cannot read properties of null (reading 'length')")
  | JStr s => Ok (Some (String.length s))
  | JBool _ | JNum _ => Ok None
  end.

(** [' '.repeat(Math.max(0, 80 - len))]; without a [length] the difference
    is NaN, and so is the maximum, which [repeat] takes for 0. *)
Definition padTo80 (len : option nat) : string :=
  match len with
  | Some n => repeat_space (Z.to_nat (Z.max 0 (80 - Z.of_nat n)))
  | None => ""
  end.

Definition sectionClass (expanded : bool) : string :=
  if expanded then "slds-section slds-is-open"
  else "slds-section slds-is-close".

Definition unresolved : enrichment :=
  {| relatedRecordsDisplay := ""; linkedRecords := None; isLoading := true |}.

(** ** Variant [note.js] *)
Module NoteJs.
Record rootProps := {
  titleWithDate : string;
  repliesExpanded : bool;
  repliesSectionClass : string
}.

Abbreviation parentNote := (parentNote enrichment rootProps) (only parsing).

Section WithHost.
(** [new Date(d).toLocaleDateString('en-US', {...})], which the host
    provides; an unparsable [d] gives the text [Invalid Date]. *)
Variable toLocaleDateString : jsval → string.

(** The [Map] filled from [this.notes]; a later [set] of the same [Id]
    replaces the earlier one. *)
Definition currentExpansionStates (notes : list parentNote)
  : gmap jsval bool :=
  foldl (λ m note,
           <[Id (fields (self note)) := repliesExpanded (extras note)]> m)
        ∅ notes.

Definition newParent (states : gmap jsval bool) (note : rawNote)
  : result parentNote :=
  let wasExpanded := default false (states !! Id note) in
  let formattedDate := toLocaleDateString (CreatedDate note) in
  len ← lengthOf (Title__c note);
  let titlePadding := padTo80 len in
  Ok {| self := {| fields := copyFields note; enrich := unresolved |};
        replies := [];
        extras :=
          {| titleWithDate :=
               to_string (Title__c note) +:+ titlePadding +:+ formattedDate;
             repliesExpanded := wasExpanded;
             repliesSectionClass := sectionClass wasExpanded |} |}.

Definition newReply (note : rawNote) : node enrichment :=
  {| fields := copyFields note; enrich := unresolved |}.

(** [expandedSectionNames] receives [note.Id] whenever [parentNotes]
    receives the root made from [note]. *)
Definition processNotes (rawNotes : jsinput) (outs : nat → settled fetched)
  : mutator (component parentNote) (list parentNote) :=
  if notAnArray rawNotes then mret []
  else
    this ← getThis;
    let states := currentExpansionStates (this_notes this) in
    parentNotes ← lift (groupNotes (newParent states) newReply
                                   (elements rawNotes));
    let expandedSectionNames := (λ p, Id (fields (self p))) <$> parentNotes in
    assign (set_this_expandedSections expandedSectionNames);;
    lift (loadAllRelatedRecords outs parentNotes).

Definition loadNotes := loadNotesWith processNotes.
End WithHost.
End NoteJs.

(** ** Variant [noteComponent.js] *)
Module NoteComponent.
Record rootProps := {
  titleWithDate : string;
  formattedDateTime : string;
  repliesExpanded : bool;
  repliesSectionClass : string;
  repliesButtonLabel : string;
  isExpanded : bool
}.

Abbreviation parentNote := (parentNote enrichment rootProps) (only parsing).

Section WithHost.
Variable toLocaleDateString : jsval → string.

(** [note.repliesExpanded || false] per [Id] *)
Definition currentRepliesExpansion (notes : list parentNote)
  : gmap jsval bool :=
  foldl (λ m note,
           <[Id (fields (self note)) :=
               repliesExpanded (extras note) || false]> m)
        ∅ notes.

(** [note.isExpanded !== false] per [Id] *)
Definition currentNoteExpansion (notes : list parentNote)
  : gmap jsval bool :=
  foldl (λ m note,
           <[Id (fields (self note)) :=
               negb (bool_decide (isExpanded (extras note) = false))]> m)
        ∅ notes.

Definition newParent (repliesStates noteStates : gmap jsval bool)
    (note : rawNote) : result parentNote :=
  let repliesExpanded := default false (repliesStates !! Id note) in
  let noteExpanded :=
    negb (bool_decide (noteStates !! Id note = Some false)) in
  let formattedDate := toLocaleDateString (CreatedDate note) in
  Ok {| self := {| fields := copyFields note; enrich := unresolved |};
        replies := [];
        extras :=
          {| titleWithDate :=
               to_string (Title__c note) +:+ " - " +:+ formattedDate;
             formattedDateTime := formattedDate;
             repliesExpanded := repliesExpanded;
             repliesSectionClass := sectionClass repliesExpanded;
             repliesButtonLabel := "";
             isExpanded := noteExpanded |} |}.

Definition newReply (note : rawNote) : node enrichment :=
  {| fields := copyFields note; enrich := unresolved |}.

(** The third loop: the label of the button that shows the replies. *)
Definition setButtonLabel (note : parentNote) : parentNote :=
  let n := List.length (replies note) in
  if (0 <? n)%nat then
    {| self := self note;
       replies := replies note;
       extras :=
         {| titleWithDate := titleWithDate (extras note);
            formattedDateTime := formattedDateTime (extras note);
            repliesExpanded := repliesExpanded (extras note);
            repliesSectionClass := repliesSectionClass (extras note);
            repliesButtonLabel :=
              pretty n +:+ " "
                +:+ (if (n =? 1)%nat then "reply" else "replies");
            isExpanded := isExpanded (extras note) |} |}
  else note.

Definition processNotes (rawNotes : jsinput) (outs : nat → settled fetched)
  : mutator (component parentNote) (list parentNote) :=
  if notAnArray rawNotes then mret []
  else
    this ← getThis;
    let repliesStates := currentRepliesExpansion (this_notes this) in
    let noteStates := currentNoteExpansion (this_notes this) in
    grouped ← lift (groupNotes (newParent repliesStates noteStates) newReply
                               (elements rawNotes));
    let parentNotes := setButtonLabel <$> grouped in
    let allMainNoteIds := (λ p, Id (fields (self p))) <$> parentNotes in
    assign (set_this_expandedSections allMainNoteIds);;
    lift (loadAllRelatedRecords outs parentNotes).

Definition loadNotes := loadNotesWith processNotes.
End WithHost.
End NoteComponent.

(** ** Vocabulary of the statements *)

(** A record is a root when its reply flag is falsy. *)
Definition isRoot (note : rawNote) : Prop :=
  to_boolean (Is_Reply__c note) = false.

#[global] Instance isRoot_dec note : Decision (isRoot note).
Proof. unfold isRoot. apply _. Defined.

Definition rootsOf (rawNotes : list rawNote) : list rawNote :=
  filter isRoot rawNotes.

Definition rootIds (rawNotes : list rawNote) : list jsval :=
  Id <$> rootsOf rawNotes.

(** The reply records that the root at position [i] of the roots receives:
    those whose parent link is the [Id] of that root, provided no later
    root carries the same [Id] (the [Map] keeps the last one). *)
Definition attachedTo (ids : list jsval) (i : nat) (note : rawNote) : Prop :=
  to_boolean (Is_Reply__c note) = true
  ∧ ids !! i = Some (Parent_Note__c note)
  ∧ Parent_Note__c note ∉ drop (S i) ids.

#[global] Instance attachedTo_dec ids i note : Decision (attachedTo ids i note).
Proof. unfold attachedTo. apply _. Defined.

(** The records behind a tree: of each root, and of its replies. *)
Definition rootRecord {E X} (p : parentNote E X) : rawNote := fields (self p).

Definition replyRecords {E X} (p : parentNote E X) : list rawNote :=
  fields <$> replies p.

Definition idsOf {E X} (notes : list (parentNote E X)) : list jsval :=
  (λ p, Id (rootRecord p)) <$> notes.

(** The tree [out] groups [rawNotes]: its roots are the root records, in
    the order of the input; the replies of the root at position [i] are the
    records attached to it, in the order of the input. *)
Definition groupedFrom {E X} (rawNotes : list rawNote)
    (out : list (parentNote E X)) : Prop :=
  rootRecord <$> out = rootsOf rawNotes
  ∧ ∀ i p, out !! i = Some p →
      replyRecords p = filter (attachedTo (rootIds rawNotes) i) rawNotes.

(** A record leaves no trace in a tree: it is behind no root and behind
    no reply. *)
Definition absentFrom {E X} (note : rawNote) (out : list (parentNote E X))
  : Prop :=
  ∀ p, p ∈ out → rootRecord p ≠ note ∧ note ∉ replyRecords p.

(** Every reply of a tree sits under the root its parent link names. *)
Definition wellLinked {E X} (out : list (parentNote E X)) : Prop :=
  ∀ p r, p ∈ out → r ∈ replyRecords p → Parent_Note__c r = Id (rootRecord p).

(** Enrichment states as the node properties show them. *)
Definition resolvedWith (linkedRecords : fetched) : enrichment :=
  if nonEmpty linkedRecords then
    {| relatedRecordsDisplay :=
         join ", " (LinkedRecord.Name <$> default [] linkedRecords);
       linkedRecords := linkedRecords;
       isLoading := false |}
  else
    {| relatedRecordsDisplay := "Current record only";
       linkedRecords := Some [];
       isLoading := false |}.

Definition failed : enrichment :=
  {| relatedRecordsDisplay := "Error loading related records";
     linkedRecords := Some [];
     isLoading := false |}.

(** The enrichment a node ends with, by how its fetch settled. *)
Definition enrichmentAfter (o : settled fetched) : enrichment :=
  match o with
  | Fulfilled linkedRecords => resolvedWith linkedRecords
  | Rejected _ => failed
  end.

(** What enrichment leaves alone: the records of a root and of its replies,
    and the properties only roots have. *)
Definition skeleton {E X} (p : parentNote E X) : rawNote * list rawNote * X :=
  (rootRecord p, replyRecords p, extras p).

(** A field that has a [length] to read: anything but [undefined] and
    [null]. *)
Definition hasLength (v : jsval) : bool :=
  match v with
  | JUndefined | JNull => false
  | _ => true
  end.

(** Every root record carries a title. *)
Definition titled (rawNotes : list rawNote) : Prop :=
  ∀ n, n ∈ rootsOf rawNotes → hasLength (Title__c n) = true.

(** An unresolved node still shows the placeholder it was created with. *)
Definition isUnresolved (e : enrichment) : bool :=
  isLoading e && String.eqb (relatedRecordsDisplay e) "".

(** No event can happen any more: every fetch has settled and every
    suspended call has run to its end. *)
Definition quiescent (s : flight) : Prop :=
  ∀ ev, step ev s = None.

(** What every state of a flight over the node objects [nodes] satisfies:
    a call that has not resumed has left its node as it was; a call that
    has resumed did so after its fetch settled, completed normally, and
    left on its node the enrichment that goes with the way the fetch
    settled. *)
Definition consistent (nodes : list (node enrichment)) (s : flight) : Prop :=
  List.length (store s) = List.length nodes
  ∧ List.length (fetches s) = List.length nodes
  ∧ List.length (promises s) = List.length nodes
  ∧ ∀ k nd, nodes !! k = Some nd →
      (promises s !! k = Some None ∧ store s !! k = Some nd)
      ∨ (∃ o, fetches s !! k = Some (Some o)
              ∧ promises s !! k = Some (Some (Ok ()))
              ∧ store s !! k
                = Some {| fields := fields nd; enrich := enrichmentAfter o |}).

(** The schedule that serves the calls one by one, in the order they were
    made: the k-th fetch settles as [outs k] and the k-th call resumes. *)
Definition oneByOne (outs : nat → settled fetched) (n : nat) : list event :=
  k ← seq 0 n; [Settle k (outs k); Resume k].

(** The flight over [nodes] once its first [j] calls have been served. *)
Definition servedUpTo (outs : nat → settled fetched)
    (nodes : list (node enrichment)) (j : nat) : flight :=
  {| store :=
       imap (λ k nd, if decide (k < j)
                     then {| fields := fields nd;
                             enrich := enrichmentAfter (outs k) |}
                     else nd) nodes;
     fetches :=
       imap (λ k _, if decide (k < j) then Some (outs k) else None) nodes;
     promises :=
       imap (λ k _, if decide (k < j) then Some (Ok ()) else None) nodes |}.

(** ** Sample data *)

Definition sampleNote (id : string) (parent : jsval) (reply : bool) : rawNote :=
  {| Id := JStr id;
     Title__c := JStr ("Note " +:+ id);
     Category__c := JStr "General";
     Body__c := JStr "text";
     Parent_Note__c := parent;
     Is_Reply__c := JBool reply;
     Thread_Count__c := JNum 0;
     CreatedDate := JStr "2024-01-01T00:00:00.000Z";
     CreatedBy := JStr "user" |}.

(** The scenario of three records: a root, a reply to it, an orphan. *)
Definition sampleNotes : list rawNote :=
  [sampleNote "A" JUndefined false;
   sampleNote "B" (JStr "A") true;
   sampleNote "C" (JStr "X") true].

(** A root record that came back without a title. *)
Definition untitledNote : rawNote :=
  {| Id := JStr "A";
     Title__c := JUndefined;
     Category__c := JStr "General";
     Body__c := JStr "text";
     Parent_Note__c := JUndefined;
     Is_Reply__c := JBool false;
     Thread_Count__c := JNum 0;
     CreatedDate := JStr "2024-01-01T00:00:00.000Z";
     CreatedBy := JStr "user" |}.

Definition sampleComponent {P} : component P :=
  {| this_recordId := JStr "001";
     this_objectApiName := JStr "Account";
     this_notes := [];
     this_expandedSections := [];
     this_isLoading := false;
     dispatched := [] |}.

Definition sampleLinked (name : string) : LinkedRecord.t :=
  {| LinkedRecord.Id := JStr "003";
     LinkedRecord.Name := JStr name;
     LinkedRecord.RelatedObject := JStr "Contact" |}.

Definition sampleError : jserror :=
  ErrObj (Some {| Err.message := JStr "Insufficient access";
                  Err.pageErrors := None;
                  Err.fieldErrors := None |})
         JUndefined.

Definition sampleDate (d : jsval) : string := "Jan 01, 2024, 12:00 AM".

(** A built tree before enrichment: root A with its reply B. *)
Definition sampleTree : list (parentNote enrichment unit) :=
  [{| self := {| fields := sampleNote "A" JUndefined false; enrich := unresolved |};
      replies :=
        [{| fields := sampleNote "B" (JStr "A") true; enrich := unresolved |}];
      extras := () |}].

(** A flight over it: the fetch for B is rejected first, then the fetch
    for A brings two records, then both calls resume. *)
Definition sampleRun : list event :=
  [Settle 1 (Rejected sampleError);
   Settle 0 (Fulfilled (Some [sampleLinked "Acme"; sampleLinked "Globex"]));
   Resume 0;
   Resume 1].

(** A note on show: root A with its replies section open. *)
Definition sampleShown : NoteJs.parentNote :=
  {| self := {| fields := sampleNote "A" JUndefined false; enrich := failed |};
     replies := [];
     extras := {| NoteJs.titleWithDate := "Note A";
                  NoteJs.repliesExpanded := true;
                  NoteJs.repliesSectionClass := sectionClass true |} |}.

(** The same root on show in [noteComponent.js]: its replies section open,
    the note itself collapsed. *)
Definition sampleFolded : NoteComponent.parentNote :=
  {| self := {| fields := sampleNote "A" JUndefined false; enrich := failed |};
     replies := [];
     extras := {| NoteComponent.titleWithDate := "Note A";
                  NoteComponent.formattedDateTime := "";
                  NoteComponent.repliesExpanded := true;
                  NoteComponent.repliesSectionClass := sectionClass true;
                  NoteComponent.repliesButtonLabel := "";
                  NoteComponent.isExpanded := false |} |}.

(** ** The forms and the handlers around the list

    The rest of the component: the draft of a new note or reply, the note
    being edited, the flags of the three forms, the search box, and the
    calls that change notes on the server.  A handler takes what it reads
    off its event (a [data-] attribute, a [name], a [value]: a string, or
    [undefined] when the attribute is missing). *)

Module Draft.
(** [{ title, category, body, linkedRecords }] *)
Record t := {
  title : jsval;
  category : jsval;
  body : jsval;
  linkedRecords : list LinkedRecord.t
}.
End Draft.

(** [{ title: '', category: '', body: '', linkedRecords: [] }] *)
Definition emptyDraft : Draft.t :=
  {| Draft.title := JStr "";
     Draft.category := JStr "";
     Draft.body := JStr "";
     Draft.linkedRecords := [] |}.

Definition set_draft_linkedRecords (v : list LinkedRecord.t) (d : Draft.t)
  : Draft.t :=
  {| Draft.title := Draft.title d;
     Draft.category := Draft.category d;
     Draft.body := Draft.body d;
     Draft.linkedRecords := v |}.

Record forms := {
  newNote : Draft.t;
  editingNote : Draft.t;
  editingNoteId : jsval;
  replyToNoteId : jsval;
  showNewNoteForm : bool;
  showReplyForm : bool;
  showEditForm : bool;
  searchTerm : jsval;
  searchResults : list LinkedRecord.t
}.

Definition set_newNote (v : Draft.t) (f : forms) : forms :=
  {| newNote := v;
     editingNote := editingNote f;
     editingNoteId := editingNoteId f;
     replyToNoteId := replyToNoteId f;
     showNewNoteForm := showNewNoteForm f;
     showReplyForm := showReplyForm f;
     showEditForm := showEditForm f;
     searchTerm := searchTerm f;
     searchResults := searchResults f |}.

Definition set_editingNote (v : Draft.t) (f : forms) : forms :=
  {| newNote := newNote f;
     editingNote := v;
     editingNoteId := editingNoteId f;
     replyToNoteId := replyToNoteId f;
     showNewNoteForm := showNewNoteForm f;
     showReplyForm := showReplyForm f;
     showEditForm := showEditForm f;
     searchTerm := searchTerm f;
     searchResults := searchResults f |}.

Definition set_editingNoteId (v : jsval) (f : forms) : forms :=
  {| newNote := newNote f;
     editingNote := editingNote f;
     editingNoteId := v;
     replyToNoteId := replyToNoteId f;
     showNewNoteForm := showNewNoteForm f;
     showReplyForm := showReplyForm f;
     showEditForm := showEditForm f;
     searchTerm := searchTerm f;
     searchResults := searchResults f |}.

Definition set_replyToNoteId (v : jsval) (f : forms) : forms :=
  {| newNote := newNote f;
     editingNote := editingNote f;
     editingNoteId := editingNoteId f;
     replyToNoteId := v;
     showNewNoteForm := showNewNoteForm f;
     showReplyForm := showReplyForm f;
     showEditForm := showEditForm f;
     searchTerm := searchTerm f;
     searchResults := searchResults f |}.

Definition set_showNewNoteForm (v : bool) (f : forms) : forms :=
  {| newNote := newNote f;
     editingNote := editingNote f;
     editingNoteId := editingNoteId f;
     replyToNoteId := replyToNoteId f;
     showNewNoteForm := v;
     showReplyForm := showReplyForm f;
     showEditForm := showEditForm f;
     searchTerm := searchTerm f;
     searchResults := searchResults f |}.

Definition set_showReplyForm (v : bool) (f : forms) : forms :=
  {| newNote := newNote f;
     editingNote := editingNote f;
     editingNoteId := editingNoteId f;
     replyToNoteId := replyToNoteId f;
     showNewNoteForm := showNewNoteForm f;
     showReplyForm := v;
     showEditForm := showEditForm f;
     searchTerm := searchTerm f;
     searchResults := searchResults f |}.

Definition set_showEditForm (v : bool) (f : forms) : forms :=
  {| newNote := newNote f;
     editingNote := editingNote f;
     editingNoteId := editingNoteId f;
     replyToNoteId := replyToNoteId f;
     showNewNoteForm := showNewNoteForm f;
     showReplyForm := showReplyForm f;
     showEditForm := v;
     searchTerm := searchTerm f;
     searchResults := searchResults f |}.

(** [this.searchTerm = ''; this.searchResults = [];] *)
Definition clearSearch (f : forms) : forms :=
  {| newNote := newNote f;
     editingNote := editingNote f;
     editingNoteId := editingNoteId f;
     replyToNoteId := replyToNoteId f;
     showNewNoteForm := showNewNoteForm f;
     showReplyForm := showReplyForm f;
     showEditForm := showEditForm f;
     searchTerm := JStr "";
     searchResults := [] |}.

Definition resetNewNote (f : forms) : forms := set_newNote emptyDraft f.

Definition resetEditingNote (f : forms) : forms :=
  set_editingNote emptyDraft (set_editingNoteId (JStr "") f).

Definition handleNewNote (f : forms) : forms :=
  resetNewNote (set_showNewNoteForm true f).

(** [handleCancel] of [note.js] and [noteComponent.js] *)
Definition handleCancel (f : forms) : forms :=
  resetEditingNote
    (resetNewNote
       (set_showEditForm false
          (set_showReplyForm false (set_showNewNoteForm false f)))).

(** [linkedRecords.find(r => r.Id === recordId)], as the test made of it *)
Definition hasRecord (recordId : jsval) (records : list LinkedRecord.t) : bool :=
  existsb (λ r, bool_decide (LinkedRecord.Id r = recordId)) records.

(** The list after [if (!existingRecord) linkedRecords.push({...})] *)
Definition addRecord (recordId recordName relatedObject : jsval)
    (records : list LinkedRecord.t) : list LinkedRecord.t :=
  if negb (hasRecord recordId records) then
    records ++ [{| LinkedRecord.Id := recordId;
                   LinkedRecord.Name := recordName;
                   LinkedRecord.RelatedObject := relatedObject |}]
  else records.

(** [linkedRecords.filter(r => r.Id !== recordId)] *)
Definition removeRecord (recordId : jsval) (records : list LinkedRecord.t)
  : list LinkedRecord.t :=
  filter (λ r, LinkedRecord.Id r ≠ recordId) records.

Definition handleAddRecord (recordId recordName relatedObject : jsval)
    (f : forms) : forms :=
  clearSearch
    (set_newNote
       (set_draft_linkedRecords
          (addRecord recordId recordName relatedObject
                     (Draft.linkedRecords (newNote f)))
          (newNote f))
       f).

Definition handleRemoveRecord (recordId : jsval) (f : forms) : forms :=
  set_newNote
    (set_draft_linkedRecords
       (removeRecord recordId (Draft.linkedRecords (newNote f)))
       (newNote f))
    f.

Definition handleEditAddRecord (recordId recordName relatedObject : jsval)
    (f : forms) : forms :=
  clearSearch
    (set_editingNote
       (set_draft_linkedRecords
          (addRecord recordId recordName relatedObject
                     (Draft.linkedRecords (editingNote f)))
          (editingNote f))
       f).

Definition handleEditRemoveRecord (recordId : jsval) (f : forms) : forms :=
  set_editingNote
    (set_draft_linkedRecords
       (removeRecord recordId (Draft.linkedRecords (editingNote f)))
       (editingNote f))
    f.


(** [validateForm] and [validateEditForm] of [note.js]:
    [title && category && body], a value that the caller negates. *)
Definition validateDraft (d : Draft.t) : jsval :=
  if to_boolean (Draft.title d) then
    if to_boolean (Draft.category d) then Draft.body d else Draft.category d
  else Draft.title d.

(** The calls that change notes on the server, with their arguments.  The
    calls that only read ([getNotes], [getLinkedRecords]) are given by how
    they settle, and are not listed. *)
Inductive request :=
  | SaveNote (title category body parentNoteId : jsval)
             (linkedRecordIds relatedObjects : list jsval)
  | UpdateNote (noteId title category body : jsval)
               (linkedRecordIds relatedObjects : list jsval)
  | DeleteNote (noteId : jsval).

(** The whole of [this]: the fields around the list, the forms, and the
    calls made so far. *)
Record page (P : Type) := {
  core : component P;
  form : forms;
  requests : list request
}.
Arguments core {P} _.
Arguments form {P} _.
Arguments requests {P} _.

Section Page.
Context {P : Type}.

Definition onCore (g : component P → component P) (this : page P) : page P :=
  {| core := g (core this); form := form this; requests := requests this |}.

Definition onForm (g : forms → forms) (this : page P) : page P :=
  {| core := core this; form := g (form this); requests := requests this |}.

Definition send (r : request) (this : page P) : page P :=
  {| core := core this; form := form this; requests := requests this ++ [r] |}.

(** A method of the list part, run on the whole of [this]. *)
Definition inCore {A} (m : mutator (component P) A) : mutator (page P) A :=
  λ this, let '(c, r) := m (core this) in
          ({| core := c; form := form this; requests := requests this |}, r).
End Page.

Section NodeLookup.
Context {E X : Type}.

(** [this.notes.find(note => note.Id === noteId)] *)
Definition findRoot (noteId : jsval) (notes : list (parentNote E X))
  : option (parentNote E X) :=
  snd <$> list_find (λ p, Id (fields (self p)) = noteId) notes.



(** [handleReply]: the draft is prefilled from the root replied to. *)
Definition handleReply (noteId : jsval)
    (this : page (parentNote E X)) : page (parentNote E X) :=
  let this := onForm (set_showReplyForm true)
                (onForm (set_replyToNoteId noteId) this) in
  match findRoot (replyToNoteId (form this)) (this_notes (core this)) with
  | Some parentNote =>
      onForm (set_newNote
                {| Draft.title :=
                     JStr ("Re: " +:+ to_string (Title__c (fields (self parentNote))));
                   Draft.category := Category__c (fields (self parentNote));
                   Draft.body := JStr "";
                   Draft.linkedRecords := [] |}) this
  | None => onForm resetNewNote this
  end.

End NodeLookup.

(** ** The handlers of [note.js] *)
Module NoteJsPage.

(** [handleToggleReplies], with [noteId] as found on the event target or
    on its closest ancestor that carries one. *)
Definition toggleReplies (note : NoteJs.parentNote) : NoteJs.parentNote :=
  let newExpandedState := negb (NoteJs.repliesExpanded (extras note)) in
  {| self := self note;
     replies := replies note;
     extras :=
       {| NoteJs.titleWithDate := NoteJs.titleWithDate (extras note);
          NoteJs.repliesExpanded := newExpandedState;
          NoteJs.repliesSectionClass := sectionClass newExpandedState |} |}.

Definition handleToggleReplies (noteId : jsval)
    (this : component NoteJs.parentNote) : component NoteJs.parentNote :=
  if negb (to_boolean noteId) then this
  else
    set_this_notes
      ((λ note, if bool_decide (Id (fields (self note)) = noteId)
                then toggleReplies note else note) <$> this_notes this)
      this.

Section WithHost.
Variable toLocaleDateString : jsval → string.

(** [forceRefresh]; the fresh [refreshKey] only goes into the arguments of
    [getNotes]. *)
Definition forceRefresh := NoteJs.loadNotes toLocaleDateString.

(** [handleSave]; [saveNote] is how the awaited call settles. *)
Definition handleSave (saveNote : settled unit) (getNotes : settled jsinput)
    (outs : nat → settled fetched) : mutator (page NoteJs.parentNote) unit :=
  this ← getThis;
  if negb (to_boolean (validateDraft (newNote (form this)))) then mret ()
  else
    tryFinally
      (tryCatch
         (assign (onCore (set_this_isLoading true));;
          this ← getThis;
          let records := Draft.linkedRecords (newNote (form this)) in
          let linkedRecordIds :=
            (LinkedRecord.Id <$> records) ++ [this_recordId (core this)] in
          let relatedObjects :=
            (LinkedRecord.RelatedObject <$> records)
              ++ [this_objectApiName (core this)] in
          let parentNoteId :=
            if showReplyForm (form this) then replyToNoteId (form this)
            else JStr "" in
          assign (send (SaveNote (Draft.title (newNote (form this)))
                                 (Draft.category (newNote (form this)))
                                 (Draft.body (newNote (form this)))
                                 parentNoteId linkedRecordIds relatedObjects));;
          lift (await saveNote);;
          assign (onCore (showToast "Success" "Note saved successfully" "success"));;
          assign (onForm handleCancel);;
          inCore (forceRefresh getNotes outs))
         (λ error,
            assign (onCore (showToast "Error"
                      ("Failed to save note: "
                         +:+ to_string (getErrorMessage error))
                      "error"))))
      (assign (onCore (set_this_isLoading false))).

(** [handleUpdateNote] *)
Definition handleUpdateNote (updateNote : settled unit)
    (getNotes : settled jsinput) (outs : nat → settled fetched)
  : mutator (page NoteJs.parentNote) unit :=
  this ← getThis;
  if negb (to_boolean (validateDraft (editingNote (form this)))) then mret ()
  else
    tryFinally
      (tryCatch
         (assign (onCore (set_this_isLoading true));;
          this ← getThis;
          let records := Draft.linkedRecords (editingNote (form this)) in
          let ids := LinkedRecord.Id <$> records in
          let objects := LinkedRecord.RelatedObject <$> records in
          let included := bool_decide (this_recordId (core this) ∈ ids) in
          let linkedRecordIds :=
            if included then ids else ids ++ [this_recordId (core this)] in
          let relatedObjects :=
            if included then objects
            else objects ++ [this_objectApiName (core this)] in
          assign (send (UpdateNote (editingNoteId (form this))
                                   (Draft.title (editingNote (form this)))
                                   (Draft.category (editingNote (form this)))
                                   (Draft.body (editingNote (form this)))
                                   linkedRecordIds relatedObjects));;
          lift (await updateNote);;
          assign (onCore (showToast "Success" "Note updated successfully"
                            "success"));;
          assign (onForm handleCancel);;
          inCore (forceRefresh getNotes outs))
         (λ error,
            assign (onCore (showToast "Error"
                      ("Failed to update note: "
                         +:+ to_string (getErrorMessage error))
                      "error"))))
      (assign (onCore (set_this_isLoading false))).

(** [handleDelete] *)
Definition handleDelete (noteId : jsval) (deleteNote : settled unit)
    (getNotes : settled jsinput) (outs : nat → settled fetched)
  : mutator (page NoteJs.parentNote) unit :=
  tryFinally
    (tryCatch
       (assign (onCore (set_this_isLoading true));;
        assign (send (DeleteNote noteId));;
        lift (await deleteNote);;
        assign (onCore (showToast "Success" "Note deleted successfully"
                          "success"));;
        inCore (forceRefresh getNotes outs))
       (λ error,
          assign (onCore (showToast "Error"
                    ("Failed to delete note: "
                       +:+ to_string (getErrorMessage error))
                    "error"))))
    (assign (onCore (set_this_isLoading false))).
End WithHost.
End NoteJsPage.

(** ** The handlers of [noteComponent.js] *)
Module NoteComponentPage.

Definition toggleReplies (note : NoteComponent.parentNote)
  : NoteComponent.parentNote :=
  let newExpandedState := negb (NoteComponent.repliesExpanded (extras note)) in
  {| self := self note;
     replies := replies note;
     extras :=
       {| NoteComponent.titleWithDate := NoteComponent.titleWithDate (extras note);
          NoteComponent.formattedDateTime :=
            NoteComponent.formattedDateTime (extras note);
          NoteComponent.repliesExpanded := newExpandedState;
          NoteComponent.repliesSectionClass := sectionClass newExpandedState;
          NoteComponent.repliesButtonLabel :=
            NoteComponent.repliesButtonLabel (extras note);
          NoteComponent.isExpanded := NoteComponent.isExpanded (extras note) |} |}.

Definition handleToggleReplies (noteId : jsval)
    (this : component NoteComponent.parentNote)
  : component NoteComponent.parentNote :=
  if negb (to_boolean noteId) then this
  else
    set_this_notes
      ((λ note, if bool_decide (Id (fields (self note)) = noteId)
                then toggleReplies note else note) <$> this_notes this)
      this.

(** [{ ...note, isExpanded: !note.isExpanded }] *)
Definition toggleNote (note : NoteComponent.parentNote)
  : NoteComponent.parentNote :=
  {| self := self note;
     replies := replies note;
     extras :=
       {| NoteComponent.titleWithDate := NoteComponent.titleWithDate (extras note);
          NoteComponent.formattedDateTime :=
            NoteComponent.formattedDateTime (extras note);
          NoteComponent.repliesExpanded :=
            NoteComponent.repliesExpanded (extras note);
          NoteComponent.repliesSectionClass :=
            NoteComponent.repliesSectionClass (extras note);
          NoteComponent.repliesButtonLabel :=
            NoteComponent.repliesButtonLabel (extras note);
          NoteComponent.isExpanded :=
            negb (NoteComponent.isExpanded (extras note)) |} |}.

Definition handleToggleNote (noteId : jsval)
    (this : component NoteComponent.parentNote)
  : component NoteComponent.parentNote :=
  if negb (to_boolean noteId) then this
  else
    set_this_notes
      ((λ note, if bool_decide (Id (fields (self note)) = noteId)
                then toggleNote note else note) <$> this_notes this)
      this.

Section WithHost.
Variable toLocaleDateString : jsval → string.

End WithHost.
End NoteComponentPage.

(** ** The handlers of [part_000] *)
Module BasicPage.

(** White space and line terminators among the code units below 256. *)
Definition isWhiteSpace (c : Ascii.ascii) : bool :=
  let n := Ascii.nat_of_ascii c in
  (n =? 9)%nat || (n =? 10)%nat || (n =? 11)%nat || (n =? 12)%nat
  || (n =? 13)%nat || (n =? 32)%nat || (n =? 160)%nat.

(** [s.trim() === ''] *)
Definition isBlank (s : string) : bool :=
  forallb isWhiteSpace (list_ascii_of_string s).

(** [!v || v.trim() === '']: a truthy value that is not a string has no
    [trim] to call. *)
Definition missing (v : jsval) : result bool :=
  if negb (to_boolean v) then Ok true
  else match v with
       | JStr s => Ok (isBlank s)
       | _ => Throw (TypeError "trim is not a function")
       end.

Definition validateForm (f : forms) : result bool :=
  noTitle ← missing (Draft.title (newNote f));
  noCategory ← missing (Draft.category (newNote f));
  noBody ← missing (Draft.body (newNote f));
  Ok (negb noTitle && negb noCategory && negb noBody).

(** [handleCancel] of this variant, which has no edit form. *)
Definition handleCancel (f : forms) : forms :=
  resetNewNote (set_showReplyForm false (set_showNewNoteForm false f)).

(** [handleSave], with the chain behind [saveNote] and the delayed
    [loadNotes] run to their end. *)
Definition handleSave (saveNote : settled unit) (getNotes : settled jsinput)
    (this : page Basic.parentNote) : page Basic.parentNote :=
  match validateForm (form this) with
  | Throw validationError => this
  | Ok false => this
  | Ok true =>
      let records := Draft.linkedRecords (newNote (form this)) in
      let nonEmpty := (0 <? List.length records)%nat in
      let linkedRecordIds :=
        (if nonEmpty then LinkedRecord.Id <$> records else [])
          ++ [this_recordId (core this)] in
      let relatedObjects :=
        (if nonEmpty then LinkedRecord.RelatedObject <$> records else [])
          ++ [this_objectApiName (core this)] in
      let parentNoteId :=
        if showReplyForm (form this) then replyToNoteId (form this)
        else JStr "" in
      if negb (List.length linkedRecordIds =? List.length relatedObjects)%nat
      then
        onCore (showToast "Error"
                  "Data validation error: mismatched array lengths" "error")
               this
      else
        let this := send (SaveNote (Draft.title (newNote (form this)))
                                   (Draft.category (newNote (form this)))
                                   (Draft.body (newNote (form this)))
                                   parentNoteId linkedRecordIds relatedObjects)
                         this in
        match saveNote with
        | Fulfilled _ =>
            onCore (Basic.loadNotes getNotes)
              (onForm handleCancel
                 (onCore (showToast "Success" "Note saved successfully"
                            "success") this))
        | Rejected error =>
            onCore (showToast "Error"
                      ("Failed to save note: "
                         +:+ to_string (Basic.getErrorMessage error))
                      "error") this
        end
  end.

(** [handleDelete] *)
Definition handleDelete (noteId : jsval) (deleteNote : settled unit)
    (getNotes : settled jsinput)
    (this : page Basic.parentNote) : page Basic.parentNote :=
  if negb (to_boolean noteId) then
    onCore (showToast "Error" "No note ID provided for deletion" "error") this
  else
    let this := send (DeleteNote noteId) this in
    match deleteNote with
    | Fulfilled _ =>
        onCore (Basic.loadNotes getNotes)
          (onCore (showToast "Success" "Note deleted successfully" "success")
                  this)
    | Rejected error =>
        onCore (showToast "Error"
                  ("Failed to delete note: "
                     +:+ to_string (Basic.getErrorMessage error))
                  "error") this
    end.
End BasicPage.

(** ** Vocabulary of the further properties *)

(** The guard of [loadNotes]: the component knows its record. *)
Definition hasRecordContext {P} (this : component P) : bool :=
  to_boolean (this_recordId this) && to_boolean (this_objectApiName this).

(** The section class of every note goes with its flag. *)
Definition NoteJs_inSync (notes : list NoteJs.parentNote) : Prop :=
  Forall (λ p, NoteJs.repliesSectionClass (extras p)
               = sectionClass (NoteJs.repliesExpanded (extras p))) notes.

Definition NoteComponent_inSync (notes : list NoteComponent.parentNote) : Prop :=
  Forall (λ p, NoteComponent.repliesSectionClass (extras p)
               = sectionClass (NoteComponent.repliesExpanded (extras p))) notes.

(** The [Id]s of the records linked in a draft. *)
Definition draftIds (d : Draft.t) : list jsval :=
  LinkedRecord.Id <$> Draft.linkedRecords d.

(** The records linked in both drafts have distinct [Id]s. *)
Definition distinctDrafts (f : forms) : Prop :=
  NoDup (draftIds (newNote f)) ∧ NoDup (draftIds (editingNote f)).

(** [handleRichTextChange] of [note.js] and [noteComponent.js]:
    [this.newNote = { ...this.newNote, body: event.target.value }] *)
Definition handleRichTextChange (value : jsval) (f : forms) : forms :=
  set_newNote
    {| Draft.title := Draft.title (newNote f);
       Draft.category := Draft.category (newNote f);
       Draft.body := value;
       Draft.linkedRecords := Draft.linkedRecords (newNote f) |}
    f.



(** The toast of [handleSave] in [part_000] for arrays of unequal length. *)
Definition mismatchToast : toast :=
  {| title := "Error";
     message := "Data validation error: mismatched array lengths";
     variant := "error" |}.

(** The page of a component and its forms before any call is made. *)
Definition pageOf {P} (c : component P) (f : forms) : page P :=
  {| core := c; form := f; requests := [] |}.

(** The forms while a note with one linked record is written and another
    is edited. *)
Definition sampleForms : forms :=
  {| newNote :=
       {| Draft.title := JStr "Visit";
          Draft.category := JStr "General";
          Draft.body := JStr "text";
          Draft.linkedRecords := [sampleLinked "Acme"] |};
     editingNote :=
       {| Draft.title := JStr "Note A";
          Draft.category := JStr "General";
          Draft.body := JStr "text, revised";
          Draft.linkedRecords := [sampleLinked "Acme"] |};
     editingNoteId := JStr "A";
     replyToNoteId := JStr "";
     showNewNoteForm := true;
     showReplyForm := false;
     showEditForm := false;
     searchTerm := JStr "";
     searchResults := [] |}.

(** How a change that the server refused leaves the page: one error toast
    more, the spinner off, and the list, the open sections and the forms
    as they were. *)
Definition refused {P} (what : string) (error : jserror)
    (this after : page P) : Prop :=
  form after = form this
  ∧ this_notes (core after) = this_notes (core this)
  ∧ this_expandedSections (core after) = this_expandedSections (core this)
  ∧ this_isLoading (core after) = false
  ∧ dispatched (core after)
    = dispatched (core this)
        ++ [{| title := "Error";
               message := "Failed to " +:+ what +:+ " note: "
                            +:+ to_string (getErrorMessage error);
               variant := "error" |}].

(** The same fetches as in [sampleRun], served in the order of the calls. *)
Definition sampleRunInOrder : list event :=
  [Settle 0 (Fulfilled (Some [sampleLinked "Acme"; sampleLinked "Globex"]));
   Resume 0;
   Settle 1 (Rejected sampleError);
   Resume 1].

(** A page of [note.js] that shows root A. *)
Definition samplePage : page NoteJs.parentNote :=
  pageOf {| this_recordId := JStr "001";
            this_objectApiName := JStr "Account";
            this_notes := [sampleShown];
            this_expandedSections := [JStr "A"];
            this_isLoading := false;
            dispatched := [] |}
         sampleForms.

(** * Facts *)

(** ** Loops and records *)

Lemma forEachM_snoc {A S : Type} (f : S → A → result S) l x s :
  forEachM f (l ++ [x]) s = forEachM f l s ≫= λ s', f s' x.
Proof.
  revert s. induction l as [|y l IH]; intros s; simpl.
  - unfold mbind, result_bind. by destruct (f s x).
  - unfold mbind, result_bind in *. destruct (f s y); simpl; auto.
Qed.

Lemma copyFields_id note : copyFields note = note.
Proof. by destruct note. Qed.

(** ** The two passes *)

Section TwoPassFacts.
Context {E X : Type}.
Variable newParent : rawNote → result (parentNote E X).
Variable newReply : rawNote → node E.

(** After the first loop [parentNotes] holds one object per root record,
    in the order of the input, and [noteMap] sends an [Id] to the
    position of the last root that carries it. *)
Lemma firstPass_spec rawNotes noteMap parentNotes :
  forEachM (firstPass newParent) rawNotes (∅, []) = Ok (noteMap, parentNotes) →
  Forall2 (λ n p, newParent n = Ok p) (rootsOf rawNotes) parentNotes
  ∧ ∀ k i, noteMap !! k = Some i
           ↔ rootIds rawNotes !! i = Some k ∧ k ∉ drop (S i) (rootIds rawNotes).
Proof.
  revert noteMap parentNotes.
  induction rawNotes as [|x l IH] using rev_ind; intros m ps Hrun.
  - simpl in Hrun. injection Hrun as <- <-. split; [constructor|].
    intros k i. rewrite lookup_empty. unfold rootIds, rootsOf. simpl.
    split; [done|]. intros [H _]. by rewrite lookup_nil in H.
  - rewrite forEachM_snoc in Hrun.
    destruct (forEachM (firstPass newParent) l (∅, [])) as [[m0 ps0]|e] eqn:Hl;
      [|done].
    destruct (IH _ _ eq_refl) as [Hps Hmap]. clear IH.
    unfold mbind, result_bind, firstPass in Hrun.
    unfold rootIds, rootsOf in *. rewrite filter_app.
    destruct (to_boolean (Is_Reply__c x)) eqn:Hx; simpl in Hrun.
    + injection Hrun as <- <-.
      rewrite filter_cons_False, filter_nil, app_nil_r
        by (unfold isRoot; congruence).
      done.
    + destruct (newParent x) as [p|e] eqn:Hp; [|done].
      injection Hrun as <- <-.
      rewrite filter_cons_True, filter_nil by done.
      split; [apply Forall2_app; [done|by repeat constructor]|].
      pose proof (Forall2_length _ _ _ Hps) as Hlen.
      rewrite fmap_app. simpl.
      set (ids := Id <$> filter isRoot l) in *.
      assert (List.length ids = List.length ps0) as Hids
        by (unfold ids; by rewrite length_fmap).
      intros k i. destruct (decide (k = Id x)) as [->|Hne].
      * rewrite lookup_insert_eq. split.
        -- intros [= <-]. rewrite <- Hids. split.
           ++ by rewrite list_lookup_middle.
           ++ rewrite drop_ge by (rewrite length_app; simpl; lia).
              apply not_elem_of_nil.
        -- intros [Hi Hnot]. f_equal. rewrite <- Hids.
           destruct (decide (i < List.length ids)) as [Hlt|Hge].
           ++ exfalso. apply Hnot. rewrite drop_app_le by lia.
              apply elem_of_app. right. apply list_elem_of_singleton. done.
           ++ apply lookup_lt_Some in Hi. rewrite length_app in Hi.
              simpl in Hi. lia.
      * rewrite lookup_insert_ne by done. rewrite Hmap. split.
        -- intros [Hi Hnot]. pose proof (lookup_lt_Some _ _ _ Hi) as Hlt.
           split; [by rewrite lookup_app_l|].
           rewrite drop_app_le by lia. rewrite elem_of_app.
           intros [?|Hin]; [done|]. apply list_elem_of_singleton in Hin. done.
        -- intros [Hi Hnot].
           destruct (decide (i < List.length ids)) as [Hlt|Hge].
           ++ rewrite lookup_app_l in Hi by done. split; [done|].
              rewrite drop_app_le in Hnot by lia.
              rewrite elem_of_app in Hnot. tauto.
           ++ exfalso. pose proof (lookup_lt_Some _ _ _ Hi) as Hlt.
              rewrite length_app in Hlt. simpl in Hlt.
              assert (i = List.length ids) as -> by lia.
              rewrite list_lookup_middle in Hi by done. congruence.
Qed.

(** After the second loop the root object at position [i] has received,
    in the order of the input, the replies whose parent link [noteMap]
    sends to [i]. *)
Lemma secondPass_spec (noteMap : gmap jsval nat)
    (parentNotes : list (parentNote E X)) rawNotes :
  foldl (secondPass newReply noteMap) parentNotes rawNotes
  = imap (λ i p,
      {| self := self p;
         replies := replies p ++
           (newReply <$> filter (λ n, to_boolean (Is_Reply__c n) = true
                                      ∧ noteMap !! Parent_Note__c n = Some i)
                                rawNotes);
         extras := extras p |}) parentNotes.
Proof.
  induction rawNotes as [|x l IH] using rev_ind.
  - simpl. apply list_eq. intros i. rewrite list_lookup_imap.
    destruct (parentNotes !! i) as [p|]; simpl; [|done].
    rewrite app_nil_r. by destruct p.
  - rewrite foldl_app. simpl. rewrite IH. clear IH.
    apply list_eq. intros i. rewrite !list_lookup_imap.
    unfold secondPass.
    destruct (to_boolean (Is_Reply__c x)) eqn:Hx.
    + destruct (noteMap !! Parent_Note__c x) as [ref|] eqn:Href.
      * destruct (decide (ref = i)) as [->|Hne].
        -- rewrite list_lookup_alter_eq, list_lookup_imap.
           destruct (parentNotes !! i) as [p|]; simpl; [|done].
           rewrite filter_app, filter_cons_True, filter_nil by done.
           unfold pushReply. simpl. rewrite fmap_app. simpl.
           by rewrite <- app_assoc.
        -- rewrite list_lookup_alter_ne, list_lookup_imap by done.
           destruct (parentNotes !! i) as [p|]; simpl; [|done].
           rewrite filter_app, filter_cons_False, filter_nil, app_nil_r;
             [done|]. intros [_ H]. congruence.
      * rewrite list_lookup_imap.
        destruct (parentNotes !! i) as [p|]; simpl; [|done].
        rewrite filter_app, filter_cons_False, filter_nil, app_nil_r;
          [done|]. intros [_ H]. congruence.
    + rewrite list_lookup_imap.
      destruct (parentNotes !! i) as [p|]; simpl; [|done].
      rewrite filter_app, filter_cons_False, filter_nil, app_nil_r;
        [done|]. intros [H _]. congruence.
Qed.

(** The tree the two loops build. *)
Lemma groupNotes_spec rawNotes out :
  groupNotes newParent newReply rawNotes = Ok out →
  ∃ created,
    Forall2 (λ n p, newParent n = Ok p) (rootsOf rawNotes) created
    ∧ out = imap (λ i p,
        {| self := self p;
           replies := replies p ++
             (newReply <$> filter (attachedTo (rootIds rawNotes) i) rawNotes);
           extras := extras p |}) created.
Proof.
  unfold groupNotes. intros Hrun.
  destruct (forEachM (firstPass newParent) rawNotes (∅, []))
    as [[m ps]|e] eqn:Hfirst; [|done].
  simpl in Hrun. injection Hrun as <-.
  destruct (firstPass_spec _ _ _ Hfirst) as [Hps Hmap].
  exists ps. split; [done|].
  rewrite secondPass_spec. apply imap_ext. intros i p _. simpl.
  do 3 f_equal. apply list_filter_iff. intros n. unfold attachedTo.
  rewrite Hmap. tauto.
Qed.

(** The loops abandon the build exactly when an object literal throws. *)
Lemma groupNotes_total rawNotes :
  (∀ n, n ∈ rootsOf rawNotes → ∃ p, newParent n = Ok p) →
  ∃ out, groupNotes newParent newReply rawNotes = Ok out.
Proof.
  intros Hok. unfold groupNotes.
  assert (∀ acc, ∃ acc', forEachM (firstPass newParent) rawNotes acc = Ok acc')
    as Hall.
  { induction rawNotes as [|x l IH]; intros acc; simpl; [by eexists|].
    unfold rootsOf in Hok.
    assert (∃ acc1, firstPass newParent acc x = Ok acc1) as [acc1 ->].
    { destruct acc as [m ps]. unfold firstPass.
      destruct (to_boolean (Is_Reply__c x)) eqn:Hx; simpl; [by eexists|].
      destruct (Hok x) as [p ->]; [|by eexists].
      rewrite filter_cons_True by done. left. }
    simpl. apply IH. intros n Hn. apply Hok.
    destruct (decide (isRoot x)).
    - rewrite filter_cons_True by done. by right.
    - by rewrite filter_cons_False. }
  destruct (Hall (∅, [])) as [[m ps] Hrun]. rewrite Hrun. simpl. by eexists.
Qed.

Lemma groupNotes_length rawNotes out :
  groupNotes newParent newReply rawNotes = Ok out →
  List.length out = List.length (rootsOf rawNotes).
Proof.
  intros (created & Hc & ->)%groupNotes_spec.
  rewrite length_imap. symmetry. by eapply Forall2_length.
Qed.

(** The root at position [i] of the result: the object made from the
    [i]-th root record, with the replies it has received. *)
Lemma groupNotes_lookup rawNotes out i p :
  groupNotes newParent newReply rawNotes = Ok out →
  out !! i = Some p →
  ∃ n c, rootsOf rawNotes !! i = Some n ∧ newParent n = Ok c
         ∧ self p = self c ∧ extras p = extras c
         ∧ replies p = replies c ++
             (newReply <$> filter (attachedTo (rootIds rawNotes) i) rawNotes).
Proof.
  intros (created & Hc & ->)%groupNotes_spec Hi.
  rewrite list_lookup_imap in Hi.
  destruct (created !! i) as [c|] eqn:Hci; [|done].
  simpl in Hi. injection Hi as <-.
  destruct (Forall2_lookup_r _ _ _ _ _ Hc Hci) as (n & Hn & Hnc).
  exists n, c. by repeat split.
Qed.

(** When the object literals copy the record and start without replies,
    the result groups the input, both levels in input order. *)
Lemma groupNotes_groupedFrom rawNotes out :
  (∀ n c, newParent n = Ok c → rootRecord c = n ∧ replies c = []) →
  (∀ n, fields (newReply n) = n) →
  groupNotes newParent newReply rawNotes = Ok out →
  groupedFrom rawNotes out.
Proof.
  intros Hparent Hreply Hrun. split.
  - apply list_eq. intros i. rewrite list_lookup_fmap.
    destruct (out !! i) as [p|] eqn:Hi; simpl.
    + destruct (groupNotes_lookup _ _ _ _ Hrun Hi)
        as (n & c & Hn & Hc & Hself & _).
      destruct (Hparent _ _ Hc) as [<- _].
      rewrite Hn. unfold rootRecord. by rewrite Hself.
    + symmetry. apply lookup_ge_None.
      rewrite <- (groupNotes_length _ _ Hrun). by apply lookup_ge_None.
  - intros i p Hi.
    destruct (groupNotes_lookup _ _ _ _ Hrun Hi)
      as (n & c & Hn & Hc & _ & _ & Hreplies).
    destruct (Hparent _ _ Hc) as [_ Hnil].
    unfold replyRecords. rewrite Hreplies, Hnil. simpl.
    rewrite <- list_fmap_compose. clear Hreplies.
    induction (filter _ rawNotes) as [|x l IH]; [done|].
    simpl. rewrite Hreply. f_equal. exact IH.
Qed.
End TwoPassFacts.

Lemma groupedFrom_same_records {E X X'} rawNotes
    (out : list (parentNote E X)) (out' : list (parentNote E X')) :
  (∀ i, (λ p, (rootRecord p, replyRecords p)) <$> out' !! i
        = (λ p, (rootRecord p, replyRecords p)) <$> out !! i) →
  groupedFrom rawNotes out → groupedFrom rawNotes out'.
Proof.
  intros Hlook [Hroots Hreplies]. split.
  - rewrite <- Hroots. apply list_eq. intros i.
    rewrite !list_lookup_fmap. specialize (Hlook i).
    destruct (out' !! i), (out !! i); simpl in *; try done.
    injection Hlook as Hr _. by rewrite Hr.
  - intros i p' Hi. specialize (Hlook i).
    rewrite Hi in Hlook. simpl in Hlook.
    destruct (out !! i) as [p|] eqn:Hp; [|done].
    simpl in Hlook. injection Hlook as _ Hr.
    rewrite Hr. by apply Hreplies.
Qed.

Lemma groupedFrom_skeleton {E X} rawNotes (out out' : list (parentNote E X)) :
  skeleton <$> out' = skeleton <$> out →
  groupedFrom rawNotes out → groupedFrom rawNotes out'.
Proof.
  intros Hsk. apply groupedFrom_same_records. intros i.
  assert (skeleton <$> out' !! i = skeleton <$> out !! i) as Hlook
    by (by rewrite <- !list_lookup_fmap, Hsk).
  destruct (out' !! i), (out !! i); simpl in *; try done.
  injection Hlook as -> -> _. done.
Qed.

(** In a grouped tree no reply record with an unknown parent occurs, and
    every reply sits under the root its parent link names. *)
Lemma groupedFrom_no_orphan {E X} rawNotes (out : list (parentNote E X)) orphan p :
  groupedFrom rawNotes out →
  to_boolean (Is_Reply__c orphan) = true →
  Parent_Note__c orphan ∉ rootIds rawNotes →
  p ∈ out →
  rootRecord p ≠ orphan ∧ orphan ∉ replyRecords p.
Proof.
  intros [Hroots Hreplies] Hflag Hparent Hp. split.
  - intros <-.
    assert (rootRecord p ∈ rootsOf rawNotes) as Hin
      by (rewrite <- Hroots; by apply list_elem_of_fmap_2).
    apply list_elem_of_filter in Hin as [Hroot _].
    unfold isRoot in Hroot. congruence.
  - apply list_elem_of_lookup in Hp as [i Hi].
    rewrite (Hreplies _ _ Hi). intros Hin.
    apply list_elem_of_filter in Hin as [(_ & Hid & _) _].
    apply Hparent. by eapply list_elem_of_lookup_2.
Qed.

Lemma groupedFrom_parent_link {E X} rawNotes (out : list (parentNote E X)) p r :
  groupedFrom rawNotes out → p ∈ out → r ∈ replyRecords p →
  Parent_Note__c r = Id (rootRecord p).
Proof.
  intros [Hroots Hreplies] Hp Hr.
  apply list_elem_of_lookup in Hp as [i Hi].
  rewrite (Hreplies _ _ Hi) in Hr.
  apply list_elem_of_filter in Hr as [(_ & Hid & _) _].
  unfold rootIds in Hid. rewrite <- Hroots in Hid.
  rewrite !list_lookup_fmap, Hi in Hid. simpl in Hid. congruence.
Qed.

(** When no two root records share an [Id], the replies of a root are
    simply the reply records that name it. *)
Lemma attachedTo_unique ids i note :
  NoDup ids →
  attachedTo ids i note
  ↔ to_boolean (Is_Reply__c note) = true
    ∧ ids !! i = Some (Parent_Note__c note).
Proof.
  intros Hnodup. unfold attachedTo. split; [tauto|].
  intros [Hflag Hi]. repeat split; [done..|].
  intros [j Hj]%list_elem_of_lookup. rewrite lookup_drop in Hj.
  pose proof (NoDup_lookup _ _ _ _ Hnodup Hi Hj). lia.
Qed.

Lemma groupedFrom_unique_ids {E X} rawNotes (out : list (parentNote E X)) p :
  NoDup (rootIds rawNotes) →
  groupedFrom rawNotes out →
  p ∈ out →
  replyRecords p
  = filter (λ n, to_boolean (Is_Reply__c n) = true
                 ∧ Parent_Note__c n = Id (rootRecord p)) rawNotes.
Proof.
  intros Hnodup [Hroots Hreplies] [i Hi]%list_elem_of_lookup.
  rewrite (Hreplies _ _ Hi). apply list_filter_iff. intros n.
  rewrite attachedTo_unique by done.
  assert (rootIds rawNotes !! i = Some (Id (rootRecord p))) as ->.
  { unfold rootIds. rewrite <- Hroots, !list_lookup_fmap, Hi. done. }
  split; intros [? ?]; split; congruence.
Qed.

(** ** Enrichment of one node *)

(** The call always completes normally, whatever the fetch did: the
    rejection is caught, and nothing in the handler throws. *)
Lemma loadRelatedRecordsForNote_spec o note :
  loadRelatedRecordsForNote o note
  = ({| fields := fields note; enrich := enrichmentAfter o |}, Ok ()).
Proof. destruct o as [[[|r l]|]|e]; reflexivity. Qed.

Lemma enrichmentAfter_loaded o : isLoading (enrichmentAfter o) = false.
Proof. destruct o as [[[|r l]|]|e]; reflexivity. Qed.

(** ** [Promise.all] *)

Lemma promiseAll_no_rejection promises :
  Forall (λ p, isRejected p = false) promises →
  promiseAll promises
  = if forallb isFulfilled promises then Some (Ok ()) else None.
Proof.
  intros Hno. unfold promiseAll.
  destruct (list_find _ promises) as [[i p]|] eqn:Hfind; [|done].
  apply list_find_Some in Hfind as (Hi & Hrej & _).
  rewrite Forall_lookup in Hno. specialize (Hno _ _ Hi). congruence.
Qed.

Lemma forallb_isFulfilled promises :
  forallb (isFulfilled (A := unit)) promises = true
  ↔ ∀ k p, promises !! k = Some p → p = Some (Ok ()).
Proof.
  rewrite forallb_forall. split.
  - intros H k p Hk. specialize (H p).
    destruct p as [[[]|]|]; try done;
      (discriminate H; apply list_elem_of_In, list_elem_of_lookup; eauto).
  - intros H p Hp. apply list_elem_of_In, list_elem_of_lookup in Hp as [k Hk].
    by rewrite (H _ _ Hk).
Qed.

(** ** Trees and stores *)

Section TreeFacts.
Context {X : Type}.
Implicit Types notes : list (parentNote enrichment X).

Lemma nodesOf_cons (n : parentNote enrichment X) notes :
  nodesOf (n :: notes) = self n :: replies n ++ nodesOf notes.
Proof. reflexivity. Qed.

Lemma nodesOf_root notes p : p ∈ notes → self p ∈ nodesOf notes.
Proof.
  intros Hp. unfold nodesOf. apply list_elem_of_bind. exists p.
  split; [left|done].
Qed.

Lemma nodesOf_reply notes p r : p ∈ notes → r ∈ replies p → r ∈ nodesOf notes.
Proof.
  intros Hp Hr. unfold nodesOf. apply list_elem_of_bind. exists p.
  split; [by right|done].
Qed.

(** Read through a store that covers it, the tree holds exactly the
    objects of the store. *)
Lemma nodesOf_snapshot store k notes :
  k + List.length (nodesOf notes) ≤ List.length store →
  nodesOf (snapshot store k notes)
  = take (List.length (nodesOf notes)) (drop k store).
Proof.
  revert k. induction notes as [|n rest IH]; intros k Hlen.
  - done.
  - cbn [snapshot]. rewrite !nodesOf_cons in *. cbn [self replies].
    rewrite length_cons, length_app in *.
    rewrite IH by lia.
    set (len := List.length (replies n)).
    set (m := List.length (nodesOf rest)).
    replace (S (len + m)) with (S len + m) by lia.
    rewrite <- take_take_drop, drop_drop.
    rewrite app_comm_cons. f_equal.
    apply list_eq. intros [|j]; simpl.
    + rewrite lookup_take_lt, lookup_drop, Nat.add_0_r by lia.
      destruct (lookup_lt_is_Some_2 store k) as [x ->]; [lia|]. done.
    + destruct (decide (j < len)) as [Hj|Hj].
      * rewrite lookup_take_lt, lookup_drop by lia.
        rewrite list_lookup_imap.
        destruct (lookup_lt_is_Some_2 (replies n) j) as [r ->]; [done|].
        destruct (lookup_lt_is_Some_2 store (k + S j)) as [x ->]; [lia|].
        done.
      * rewrite lookup_take_ge by lia.
        apply lookup_ge_None. rewrite length_imap. fold len. lia.
Qed.

(** A store whose objects carry the records of the tree's own objects
    changes nothing but the enrichment. *)
Lemma skeleton_snapshot store k notes :
  (∀ j nd, nodesOf notes !! j = Some nd →
           ∃ nd', store !! (k + j) = Some nd' ∧ fields nd' = fields nd) →
  skeleton <$> snapshot store k notes = skeleton <$> notes.
Proof.
  revert k. induction notes as [|n rest IH]; intros k Hstore; [done|].
  cbn [snapshot fmap list_fmap]. f_equal.
  - unfold skeleton, rootRecord, replyRecords. cbn [self replies extras].
    destruct (Hstore 0 (self n)) as (nd' & Hk & Hf); [done|].
    rewrite Nat.add_0_r in Hk. rewrite Hk. simpl. rewrite Hf.
    do 2 f_equal. apply list_eq. intros j.
    rewrite !list_lookup_fmap, list_lookup_imap.
    destruct (replies n !! j) as [r|] eqn:Hr; simpl; [|done].
    destruct (Hstore (S j) r) as (nd'' & Hj & Hf').
    { rewrite nodesOf_cons. simpl. by rewrite lookup_app_l_Some with (x := r). }
    rewrite Hj. simpl. by rewrite Hf'.
  - apply IH. intros j nd Hj.
    destruct (Hstore (S (List.length (replies n)) + j) nd) as (nd' & H1 & H2).
    { rewrite nodesOf_cons. simpl. rewrite lookup_app_r by lia.
      by replace (List.length (replies n) + j - List.length (replies n))
        with j by lia. }
    exists nd'. split; [|done]. rewrite <- H1. f_equal. lia.
Qed.
End TreeFacts.

(** ** Flights *)

Section FlightFacts.
Context {X : Type}.
Implicit Types notes : list (parentNote enrichment X).

Lemma consistent_launch notes : consistent (nodesOf notes) (launch notes).
Proof.
  unfold consistent, launch. cbn [store fetches promises].
  rewrite !length_replicate. repeat split.
  intros k nd Hk. left. split; [|done].
  apply lookup_replicate_2. by apply lookup_lt_Some in Hk.
Qed.

Lemma consistent_step nodes ev s s' :
  consistent nodes s → step ev s = Some s' → consistent nodes s'.
Proof.
  intros (Hs & Hf & Hp & Hall) Hstep. destruct ev as [k o|k]; simpl in Hstep.
  - destruct (fetches s !! k) as [[o'|]|] eqn:Hk; try done.
    injection Hstep as <-. unfold consistent. cbn [store fetches promises].
    rewrite length_insert. repeat split; try done.
    intros j nd Hj. destruct (Hall j nd Hj) as [?|(o' & Ho' & ?)]; [by left|].
    right. exists o'. split; [|done].
    destruct (decide (k = j)) as [->|Hne]; [congruence|].
    by rewrite list_lookup_insert_ne.
  - destruct (fetches s !! k) as [[o|]|] eqn:Hk; try done.
    destruct (promises s !! k) as [[c|]|] eqn:Hpk; try done.
    destruct (store s !! k) as [note|] eqn:Hsk; try done.
    rewrite loadRelatedRecordsForNote_spec in Hstep.
    injection Hstep as <-. unfold consistent. cbn [store fetches promises].
    rewrite !length_insert. repeat split; try done.
    intros j nd Hj. destruct (decide (k = j)) as [->|Hne].
    + right. exists o. split; [done|].
      apply lookup_lt_Some in Hpk as Hlt.
      apply lookup_lt_Some in Hsk as Hlt'.
      rewrite !list_lookup_insert_eq by lia.
      split; [done|].
      destruct (Hall j nd Hj) as [[_ Hnd]|(? & _ & ? & _)]; congruence.
    + rewrite !list_lookup_insert_ne by done. by apply Hall.
Qed.

Lemma consistent_steps nodes evs s s' :
  consistent nodes s → steps evs s = Some s' → consistent nodes s'.
Proof.
  revert s. induction evs as [|ev evs IH]; intros s Hs Hrun; simpl in Hrun.
  - by injection Hrun as <-.
  - destruct (step ev s) as [s1|] eqn:Hstep; [|done].
    simpl in Hrun. eauto using consistent_step.
Qed.

(** No call of [loadRelatedRecordsForNote] ever rejects. *)
Lemma consistent_no_rejection nodes s :
  consistent nodes s → Forall (λ p, isRejected p = false) (promises s).
Proof.
  intros (_ & _ & Hp & Hall). apply Forall_lookup. intros k p Hk.
  destruct (lookup_lt_is_Some_2 nodes k) as [nd Hnd].
  { rewrite <- Hp. by apply lookup_lt_Some in Hk. }
  destruct (Hall k nd Hnd) as [[Hpend _]|(? & _ & Hdone & _)].
  - rewrite Hpend in Hk. by injection Hk as <-.
  - rewrite Hdone in Hk. by injection Hk as <-.
Qed.

(** Once [Promise.all] is fulfilled, every call has resumed. *)
Lemma consistent_fulfilled nodes s k nd :
  consistent nodes s →
  loadAllRelatedRecords_promise s = Some (Ok ()) →
  nodes !! k = Some nd →
  ∃ o, fetches s !! k = Some (Some o)
       ∧ store s !! k = Some {| fields := fields nd; enrich := enrichmentAfter o |}.
Proof.
  intros Hcons Hall Hk. unfold loadAllRelatedRecords_promise in Hall.
  rewrite promiseAll_no_rejection in Hall
    by eauto using consistent_no_rejection.
  destruct (forallb isFulfilled (promises s)) eqn:Hful; [|done].
  rewrite forallb_isFulfilled in Hful.
  destruct Hcons as (_ & _ & _ & Hnodes).
  destruct (Hnodes k nd Hk) as [[Hpend _]|(o & ? & _ & ?)]; [|by eauto].
  by specialize (Hful _ _ Hpend).
Qed.

(** When nothing can happen any more, every call has resumed. *)
Lemma consistent_quiescent nodes s k nd :
  consistent nodes s → quiescent s → nodes !! k = Some nd →
  ∃ o, fetches s !! k = Some (Some o)
       ∧ promises s !! k = Some (Some (Ok ()))
       ∧ store s !! k = Some {| fields := fields nd; enrich := enrichmentAfter o |}.
Proof.
  intros (_ & Hf & _ & Hnodes) Hq Hk.
  destruct (Hnodes k nd Hk) as [[Hpend Hst]|?]; [exfalso|done].
  destruct (lookup_lt_is_Some_2 (fetches s) k) as [[o|] Hfk].
  { rewrite Hf. by apply lookup_lt_Some in Hk. }
  - specialize (Hq (Resume k)). simpl in Hq.
    rewrite Hfk, Hpend, Hst, loadRelatedRecordsForNote_spec in Hq. done.
  - specialize (Hq (Settle k (Fulfilled None))). simpl in Hq.
    by rewrite Hfk in Hq.
Qed.

Lemma quiescent_fulfilled nodes s :
  consistent nodes s → quiescent s →
  loadAllRelatedRecords_promise s = Some (Ok ()).
Proof.
  intros Hcons Hq. unfold loadAllRelatedRecords_promise.
  rewrite promiseAll_no_rejection by eauto using consistent_no_rejection.
  assert (forallb isFulfilled (promises s) = true) as ->; [|done].
  apply forallb_isFulfilled. intros k p Hk.
  destruct (lookup_lt_is_Some_2 nodes k) as [nd Hnd].
  { destruct Hcons as (_ & _ & <- & _). by apply lookup_lt_Some in Hk. }
  destruct (consistent_quiescent _ _ _ _ Hcons Hq Hnd) as (? & _ & ? & _).
  congruence.
Qed.

(** The tree of a consistent state holds the objects of its store. *)
Lemma nodesOf_treeOf notes s :
  consistent (nodesOf notes) s → nodesOf (treeOf notes s) = store s.
Proof.
  intros (Hs & _). unfold treeOf. rewrite nodesOf_snapshot by lia.
  rewrite drop_0, <- Hs. apply firstn_all.
Qed.
End FlightFacts.

(** ** [loadAllRelatedRecords], start to end *)

Lemma loadAllRelatedRecords_spec {X} outs (notes : list (parentNote enrichment X)) :
  ∃ out, loadAllRelatedRecords outs notes = Ok out
    ∧ skeleton <$> out = skeleton <$> notes
    ∧ nodesOf out
      = imap (λ k nd, {| fields := fields nd; enrich := enrichmentAfter (outs k) |})
             (nodesOf notes).
Proof.
  unfold loadAllRelatedRecords.
  set (enriched := λ (k : nat) (nd : node enrichment),
         {| fields := fields nd; enrich := enrichmentAfter (outs k) |}).
  rewrite (imap_ext _ (λ k nd, (enriched k nd, Ok ())) (nodesOf notes))
    by (intros; apply loadRelatedRecordsForNote_spec).
  set (done := imap _ (nodesOf notes)).
  assert (fst <$> done = imap enriched (nodesOf notes)) as Hstore.
  { unfold done. apply list_eq. intros k.
    rewrite list_lookup_fmap, !list_lookup_imap.
    by destruct (nodesOf notes !! k). }
  rewrite promiseAll_no_rejection.
  2:{ apply Forall_lookup. intros k p. unfold done.
      rewrite list_lookup_fmap, list_lookup_imap.
      destruct (nodesOf notes !! k); simpl; [|done]. by intros [= <-]. }
  eexists. split; [by destruct (forallb _ _)|]. rewrite Hstore. split.
  - apply skeleton_snapshot. intros j nd Hj. eexists. split.
    + rewrite Nat.add_0_l, list_lookup_imap, Hj. done.
    + done.
  - rewrite nodesOf_snapshot by (rewrite length_imap; lia).
    rewrite drop_0, <- (length_imap enriched). apply firstn_all.
Qed.

(** ** The [Map] of expansion states *)

Section ExpansionMap.
Context {A V : Type}.
Variable key : A → jsval.
Variable val : A → V.

Lemma states_other (m : gmap jsval V) l k :
  k ∉ key <$> l →
  foldl (λ m x, <[key x := val x]> m) m l !! k = m !! k.
Proof.
  revert m. induction l as [|x l IH]; intros m Hk; [done|].
  simpl. rewrite fmap_cons, not_elem_of_cons in Hk. destruct Hk as [Hne Hk].
  rewrite IH by done. by rewrite lookup_insert_ne.
Qed.

(** The last entry of a key is the one the [Map] keeps. *)
Lemma states_last l1 q l2 :
  key q ∉ key <$> l2 →
  foldl (λ (m : gmap jsval V) x, <[key x := val x]> m) ∅ (l1 ++ q :: l2)
    !! key q
  = Some (val q).
Proof.
  intros Hlast. rewrite foldl_app. simpl.
  rewrite states_other by done. apply lookup_insert_eq.
Qed.

Lemma states_absent l k :
  k ∉ key <$> l →
  foldl (λ (m : gmap jsval V) x, <[key x := val x]> m) ∅ l !! k = None.
Proof. intros Hk. by rewrite states_other. Qed.
End ExpansionMap.

(** ** The variant without enrichment *)

Lemma Basic_processNotes_grouped rawNotes :
  ∃ out, Basic.processNotes (InArray rawNotes) = Ok out
         ∧ groupedFrom rawNotes out.
Proof.
  unfold Basic.processNotes. simpl.
  destruct (groupNotes_total Basic.newParent Basic.newReply rawNotes)
    as [out Hout]; [intros; by eexists|].
  exists out. split; [done|].
  eapply groupNotes_groupedFrom; [| |done].
  - intros n c [= <-]. unfold rootRecord. simpl. by rewrite copyFields_id.
  - intros n. simpl. apply copyFields_id.
Qed.

(** ** The variant [note.js] *)

Lemma NoteJs_newParent_Ok fmt states n :
  hasLength (Title__c n) = true →
  ∃ c, NoteJs.newParent fmt states n = Ok c.
Proof.
  intros Hlen. unfold NoteJs.newParent.
  destruct (Title__c n); try done; by eexists.
Qed.

Lemma NoteJs_newParent_inv fmt states n c :
  NoteJs.newParent fmt states n = Ok c →
  rootRecord c = n ∧ replies c = []
  ∧ NoteJs.repliesExpanded (extras c) = default false (states !! Id n).
Proof.
  unfold NoteJs.newParent. intros Hc.
  destruct (lengthOf (Title__c n)) as [len|e]; [|done].
  simpl in Hc. injection Hc as <-. unfold rootRecord. simpl.
  by rewrite copyFields_id.
Qed.

(** [processNotes] on an array, loop by loop. *)
Lemma NoteJs_processNotes_array fmt rawNotes outs this :
  NoteJs.processNotes fmt (InArray rawNotes) outs this
  = match groupNotes (NoteJs.newParent fmt
                        (NoteJs.currentExpansionStates (this_notes this)))
                     NoteJs.newReply rawNotes with
    | Ok built =>
        (set_this_expandedSections (idsOf built) this,
         loadAllRelatedRecords outs built)
    | Throw e => (this, Throw e)
    end.
Proof.
  unfold NoteJs.processNotes. simpl.
  unfold mbind, mutator_bind, getThis, lift, assign.
  by destruct (groupNotes _ _ rawNotes).
Qed.

Lemma NoteJs_processNotes_inv fmt rawNotes outs this this' out :
  NoteJs.processNotes fmt (InArray rawNotes) outs this = (this', Ok out) →
  ∃ built,
    groupNotes (NoteJs.newParent fmt
                  (NoteJs.currentExpansionStates (this_notes this)))
               NoteJs.newReply rawNotes = Ok built
    ∧ this' = set_this_expandedSections (idsOf built) this
    ∧ skeleton <$> out = skeleton <$> built
    ∧ nodesOf out
      = imap (λ k nd, {| fields := fields nd; enrich := enrichmentAfter (outs k) |})
             (nodesOf built).
Proof.
  rewrite NoteJs_processNotes_array.
  destruct (groupNotes _ _ rawNotes) as [built|e]; [|done].
  destruct (loadAllRelatedRecords_spec outs built) as (out' & -> & Hsk & Hnodes).
  intros [= <- <-]. by exists built.
Qed.

Lemma NoteJs_processNotes_total fmt rawNotes outs this :
  titled rawNotes →
  ∃ this' out,
    NoteJs.processNotes fmt (InArray rawNotes) outs this = (this', Ok out).
Proof.
  intros Htitled. rewrite NoteJs_processNotes_array.
  destruct (groupNotes_total
              (NoteJs.newParent fmt
                 (NoteJs.currentExpansionStates (this_notes this)))
              NoteJs.newReply rawNotes) as [built ->].
  { intros n Hn. apply NoteJs_newParent_Ok. by apply Htitled. }
  destruct (loadAllRelatedRecords_spec outs built) as (out & -> & _).
  by eexists _, _.
Qed.

Lemma NoteJs_processNotes_grouped fmt rawNotes outs this this' out :
  NoteJs.processNotes fmt (InArray rawNotes) outs this = (this', Ok out) →
  groupedFrom rawNotes out.
Proof.
  intros (built & Hbuilt & _ & Hsk & _)%NoteJs_processNotes_inv.
  eapply groupedFrom_skeleton; [done|].
  eapply groupNotes_groupedFrom; [| |done].
  - intros n c Hc. by destruct (NoteJs_newParent_inv _ _ _ _ Hc) as (? & ? & _).
  - intros n. simpl. apply copyFields_id.
Qed.

(** ** The variant [noteComponent.js] *)

Lemma NoteComponent_newParent_inv fmt repliesStates noteStates n c :
  NoteComponent.newParent fmt repliesStates noteStates n = Ok c →
  rootRecord c = n ∧ replies c = []
  ∧ NoteComponent.repliesExpanded (extras c)
    = default false (repliesStates !! Id n)
  ∧ NoteComponent.isExpanded (extras c)
    = negb (bool_decide (noteStates !! Id n = Some false)).
Proof.
  unfold NoteComponent.newParent. intros [= <-]. unfold rootRecord. simpl.
  by rewrite copyFields_id.
Qed.

Lemma NoteComponent_setButtonLabel_keeps note :
  self (NoteComponent.setButtonLabel note) = self note
  ∧ replies (NoteComponent.setButtonLabel note) = replies note
  ∧ NoteComponent.repliesExpanded (extras (NoteComponent.setButtonLabel note))
    = NoteComponent.repliesExpanded (extras note)
  ∧ NoteComponent.isExpanded (extras (NoteComponent.setButtonLabel note))
    = NoteComponent.isExpanded (extras note).
Proof. unfold NoteComponent.setButtonLabel. by destruct (0 <? _)%nat. Qed.

Lemma NoteComponent_processNotes_array fmt rawNotes outs this :
  ∃ grouped,
    groupNotes (NoteComponent.newParent fmt
                  (NoteComponent.currentRepliesExpansion (this_notes this))
                  (NoteComponent.currentNoteExpansion (this_notes this)))
               NoteComponent.newReply rawNotes = Ok grouped
    ∧ NoteComponent.processNotes fmt (InArray rawNotes) outs this
      = (set_this_expandedSections
           (idsOf (NoteComponent.setButtonLabel <$> grouped)) this,
         loadAllRelatedRecords outs (NoteComponent.setButtonLabel <$> grouped)).
Proof.
  destruct (groupNotes_total
              (NoteComponent.newParent fmt
                 (NoteComponent.currentRepliesExpansion (this_notes this))
                 (NoteComponent.currentNoteExpansion (this_notes this)))
              NoteComponent.newReply rawNotes) as [grouped Hg];
    [intros; by eexists|].
  exists grouped. split; [done|].
  unfold NoteComponent.processNotes. simpl.
  unfold mbind, mutator_bind, getThis, lift, assign. by rewrite Hg.
Qed.

Lemma NoteComponent_processNotes_spec fmt rawNotes outs this :
  ∃ grouped out,
    groupNotes (NoteComponent.newParent fmt
                  (NoteComponent.currentRepliesExpansion (this_notes this))
                  (NoteComponent.currentNoteExpansion (this_notes this)))
               NoteComponent.newReply rawNotes = Ok grouped
    ∧ NoteComponent.processNotes fmt (InArray rawNotes) outs this
      = (set_this_expandedSections
           (idsOf (NoteComponent.setButtonLabel <$> grouped)) this, Ok out)
    ∧ skeleton <$> out = skeleton <$> (NoteComponent.setButtonLabel <$> grouped)
    ∧ nodesOf out
      = imap (λ k nd, {| fields := fields nd; enrich := enrichmentAfter (outs k) |})
             (nodesOf (NoteComponent.setButtonLabel <$> grouped)).
Proof.
  destruct (NoteComponent_processNotes_array fmt rawNotes outs this)
    as (grouped & Hg & ->).
  destruct (loadAllRelatedRecords_spec outs
              (NoteComponent.setButtonLabel <$> grouped))
    as (out & -> & Hsk & Hnodes).
  by exists grouped, out.
Qed.

Lemma NoteComponent_processNotes_grouped fmt rawNotes outs this :
  ∃ this' out,
    NoteComponent.processNotes fmt (InArray rawNotes) outs this = (this', Ok out)
    ∧ groupedFrom rawNotes out.
Proof.
  destruct (NoteComponent_processNotes_spec fmt rawNotes outs this)
    as (grouped & out & Hg & -> & Hsk & _).
  eexists _, out. split; [done|].
  eapply groupedFrom_skeleton; [done|].
  eapply (groupedFrom_same_records _ grouped).
  - intros i. rewrite list_lookup_fmap.
    destruct (grouped !! i) as [g|]; simpl; [|done].
    unfold rootRecord, replyRecords.
    destruct (NoteComponent_setButtonLabel_keeps g) as (-> & -> & _). done.
  - eapply groupNotes_groupedFrom; [| |done].
    + intros n c Hc.
      by destruct (NoteComponent_newParent_inv _ _ _ _ _ Hc) as (? & ? & _).
    + intros n. simpl. apply copyFields_id.
Qed.

(** * The claims *)

(** C3: for every flat list of note records, [processNotes] keeps the input
    order at both levels: the roots of the output are the non-reply records
    in their order of appearance, and the replies of each root are the reply
    records attached to it in their order of appearance; nothing is sorted.
    The variants [part_000] and [noteComponent.js] always return such a tree;
    [note.js] returns one whenever every root record has a title, and any
    tree it returns is of that form.  When the [Id]s of the root records are
    distinct, the replies of a root are the reply records whose parent link
    is its [Id], in input order. *)
Theorem processNotes_preserves_input_order fmt rawNotes outs :
  (∀ E X (out : list (parentNote E X)) p,
     NoDup (rootIds rawNotes) → groupedFrom rawNotes out → p ∈ out →
     replyRecords p
     = filter (λ n, to_boolean (Is_Reply__c n) = true
                    ∧ Parent_Note__c n = Id (rootRecord p)) rawNotes)
  ∧ (∃ out, Basic.processNotes (InArray rawNotes) = Ok out
          ∧ groupedFrom rawNotes out)
  ∧ (∀ this, ∃ this' out,
       NoteComponent.processNotes fmt (InArray rawNotes) outs this
       = (this', Ok out)
       ∧ groupedFrom rawNotes out)
  ∧ (∀ this,
       (titled rawNotes → ∃ this' out,
          NoteJs.processNotes fmt (InArray rawNotes) outs this = (this', Ok out))
       ∧ (∀ this' out,
            NoteJs.processNotes fmt (InArray rawNotes) outs this = (this', Ok out) →
            groupedFrom rawNotes out)).
Proof.
  split; [intros E X out p; apply groupedFrom_unique_ids|].
  split; [apply Basic_processNotes_grouped|].
  split; [intros this; apply NoteComponent_processNotes_grouped|].
  intros this. split.
  - apply NoteJs_processNotes_total.
  - intros this' out. apply NoteJs_processNotes_grouped.
Qed.

Lemma sampleNotes_titled : titled sampleNotes.
Proof.
  intros n Hn. vm_compute in Hn. apply list_elem_of_singleton in Hn. by subst.
Qed.

Lemma sampleNotes_distinct : NoDup (rootIds sampleNotes).
Proof. vm_compute. apply NoDup_singleton. Qed.

Lemma processNotes_preserves_input_order_witness :
  titled sampleNotes
  ∧ NoDup (rootIds sampleNotes)
  ∧ ∃ this' out,
      NoteJs.processNotes sampleDate (InArray sampleNotes) (λ _, Fulfilled None)
                          sampleComponent = (this', Ok out)
      ∧ groupedFrom sampleNotes out
      ∧ ∀ p, p ∈ out →
          replyRecords p
          = filter (λ n, to_boolean (Is_Reply__c n) = true
                         ∧ Parent_Note__c n = Id (rootRecord p)) sampleNotes.
Proof.
  split; [exact sampleNotes_titled|]. split; [exact sampleNotes_distinct|].
  destruct (processNotes_preserves_input_order
              sampleDate sampleNotes (λ _, Fulfilled None)) as (HU & _ & _ & HJ).
  destruct (HJ sampleComponent) as [Htotal Hgrouped].
  destruct (Htotal sampleNotes_titled) as (this' & out & Hrun).
  exists this', out. split; [exact Hrun|].
  split; [exact (Hgrouped _ _ Hrun)|].
  intros p Hp.
  exact (HU _ _ out p sampleNotes_distinct (Hgrouped _ _ Hrun) Hp).
Defined.

(** The scenario of the three records: one root A with the one reply B;
    the orphan C is gone. *)
Example scenario_orphan_discarded :
  Basic.processNotes (InArray sampleNotes)
  = Ok [{| self := {| fields := sampleNote "A" JUndefined false; enrich := () |};
           replies := [{| fields := sampleNote "B" (JStr "A") true;
                          enrich := () |}];
           extras := () |}].
Proof. reflexivity. Qed.

(** The scenario of the empty result. *)
Example scenario_current_record_only note :
  loadRelatedRecordsForNote (Fulfilled (Some [])) note
  = ({| fields := fields note;
        enrich := {| relatedRecordsDisplay := "Current record only";
                     linkedRecords := Some [];
                     isLoading := false |} |},
     Ok ()).
Proof. reflexivity. Qed.

(** C2: for every flat list of note records, a record whose reply flag is
    set and whose parent link is the [Id] of no root record of the list
    appears nowhere in the output of [processNotes]: it is behind no root
    and behind no reply; and no reply of the output dangles, each sits under
    the root its parent link names. *)
Theorem orphan_reply_never_surfaces fmt rawNotes outs orphan :
  to_boolean (Is_Reply__c orphan) = true →
  Parent_Note__c orphan ∉ rootIds rawNotes →
  (∃ out, Basic.processNotes (InArray rawNotes) = Ok out
          ∧ absentFrom orphan out ∧ wellLinked out)
  ∧ (∀ this, ∃ this' out,
       NoteComponent.processNotes fmt (InArray rawNotes) outs this
       = (this', Ok out)
       ∧ absentFrom orphan out ∧ wellLinked out)
  ∧ (∀ this this' out,
       NoteJs.processNotes fmt (InArray rawNotes) outs this = (this', Ok out) →
       absentFrom orphan out ∧ wellLinked out).
Proof.
  intros Hflag Hparent.
  assert (∀ E X (out : list (parentNote E X)),
            groupedFrom rawNotes out → absentFrom orphan out ∧ wellLinked out)
    as Hgrouped.
  { intros E X out Hg. split.
    - intros p Hp. by eapply groupedFrom_no_orphan.
    - intros p r Hp Hr. by eapply groupedFrom_parent_link. }
  split; [|split].
  - destruct (Basic_processNotes_grouped rawNotes) as (out & Hrun & Hg).
    exists out. split; [done|]. by apply Hgrouped.
  - intros this.
    destruct (NoteComponent_processNotes_grouped fmt rawNotes outs this)
      as (this' & out & Hrun & Hg).
    exists this', out. split; [done|]. by apply Hgrouped.
  - intros this this' out Hrun. apply Hgrouped.
    by eapply NoteJs_processNotes_grouped.
Qed.

Lemma orphan_reply_never_surfaces_witness :
  ∃ this' out,
    NoteJs.processNotes sampleDate (InArray sampleNotes) (λ _, Fulfilled None)
                        sampleComponent = (this', Ok out)
    ∧ absentFrom (sampleNote "C" (JStr "X") true) out ∧ wellLinked out.
Proof.
  destruct (NoteJs_processNotes_total sampleDate sampleNotes
              (λ _, Fulfilled None) sampleComponent sampleNotes_titled)
    as (this' & out & Hrun).
  exists this', out. split; [exact Hrun|].
  refine (proj2 (proj2 (orphan_reply_never_surfaces
            sampleDate sampleNotes (λ _, Fulfilled None)
            (sampleNote "C" (JStr "X") true) eq_refl _)) _ _ _ Hrun).
  vm_compute. intros H. apply list_elem_of_singleton in H. discriminate H.
Defined.

(** What a root of the output of [note.js] and of [noteComponent.js] was
    made from. *)
Lemma NoteJs_processNotes_root fmt rawNotes outs this this' out p :
  NoteJs.processNotes fmt (InArray rawNotes) outs this = (this', Ok out) →
  p ∈ out →
  NoteJs.repliesExpanded (extras p)
  = default false
      (NoteJs.currentExpansionStates (this_notes this) !! Id (rootRecord p)).
Proof.
  intros (built & Hbuilt & _ & Hsk & _)%NoteJs_processNotes_inv
         [i Hi]%list_elem_of_lookup.
  assert (skeleton <$> out !! i = skeleton <$> built !! i) as Hlook
    by (by rewrite <- !list_lookup_fmap, Hsk).
  rewrite Hi in Hlook. simpl in Hlook.
  destruct (built !! i) as [b|] eqn:Hb; [|done].
  simpl in Hlook. injection Hlook as Hroot _ Hextras.
  destruct (groupNotes_lookup _ _ _ _ _ _ Hbuilt Hb)
    as (n & c & _ & Hc & Hself & Hx & _).
  destruct (NoteJs_newParent_inv _ _ _ _ Hc) as (Hn & _ & Hflag).
  rewrite Hextras, Hx, Hflag, Hroot. unfold rootRecord in *.
  by rewrite Hself, Hn.
Qed.

Lemma NoteComponent_processNotes_root fmt rawNotes outs this this' out p :
  NoteComponent.processNotes fmt (InArray rawNotes) outs this = (this', Ok out) →
  p ∈ out →
  NoteComponent.repliesExpanded (extras p)
  = default false
      (NoteComponent.currentRepliesExpansion (this_notes this)
         !! Id (rootRecord p))
  ∧ NoteComponent.isExpanded (extras p)
    = negb (bool_decide
              (NoteComponent.currentNoteExpansion (this_notes this)
                 !! Id (rootRecord p) = Some false)).
Proof.
  destruct (NoteComponent_processNotes_spec fmt rawNotes outs this)
    as (grouped & out' & Hg & -> & Hsk & _).
  intros [= <- <-] [i Hi]%list_elem_of_lookup.
  assert (skeleton <$> out' !! i
          = skeleton <$> (NoteComponent.setButtonLabel <$> grouped) !! i)
    as Hlook by (by rewrite <- !list_lookup_fmap, Hsk).
  rewrite Hi, list_lookup_fmap in Hlook. simpl in Hlook.
  destruct (grouped !! i) as [g|] eqn:Hgi; [|done].
  simpl in Hlook. injection Hlook as Hroot _ Hextras.
  destruct (groupNotes_lookup _ _ _ _ _ _ Hg Hgi)
    as (n & c & _ & Hc & Hself & Hx & _).
  destruct (NoteComponent_newParent_inv _ _ _ _ _ Hc) as (Hn & _ & Hr & He).
  destruct (NoteComponent_setButtonLabel_keeps g) as (Hs & _ & Hkr & Hke).
  rewrite Hextras, Hkr, Hke, Hx, Hr, He, Hroot. unfold rootRecord in *.
  by rewrite Hs, Hself, Hn.
Qed.

(** C5: [processNotes] resolves the expansion flags of each root by its
    [Id].  The roots of the tree it returns are the root records of the
    input, one for one and in order, so a root record that is still in the
    list comes back as a root; [noteComponent.js] always returns a tree,
    [note.js] does when every root record has a title.  For each root
    returned: when the notes shown before contain a note with that [Id]
    (the last such note, should the [Id] occur more than once), the flags
    of that note are carried over unchanged; when none has that [Id], the
    root gets the default of the component: replies collapsed in
    [note.js]; replies collapsed and the note itself expanded in
    [noteComponent.js]. *)
Theorem processNotes_carries_expansion_over fmt rawNotes outs :
  (∀ this this' out,
     NoteJs.processNotes fmt (InArray rawNotes) outs this = (this', Ok out) →
     rootRecord <$> out = rootsOf rawNotes
     ∧ ∀ p, p ∈ out →
         (∀ before q after,
            this_notes this = before ++ q :: after →
            Id (rootRecord q) = Id (rootRecord p) →
            Id (rootRecord p) ∉ idsOf after →
            NoteJs.repliesExpanded (extras p)
            = NoteJs.repliesExpanded (extras q))
         ∧ (Id (rootRecord p) ∉ idsOf (this_notes this) →
            NoteJs.repliesExpanded (extras p) = false))
  ∧ (titled rawNotes →
     ∀ this, ∃ this' out,
       NoteJs.processNotes fmt (InArray rawNotes) outs this = (this', Ok out))
  ∧ (∀ this, ∃ this' out,
       NoteComponent.processNotes fmt (InArray rawNotes) outs this
       = (this', Ok out)
       ∧ rootRecord <$> out = rootsOf rawNotes
       ∧ ∀ p, p ∈ out →
           (∀ before q after,
              this_notes this = before ++ q :: after →
              Id (rootRecord q) = Id (rootRecord p) →
              Id (rootRecord p) ∉ idsOf after →
              NoteComponent.repliesExpanded (extras p)
              = NoteComponent.repliesExpanded (extras q)
              ∧ NoteComponent.isExpanded (extras p)
                = NoteComponent.isExpanded (extras q))
           ∧ (Id (rootRecord p) ∉ idsOf (this_notes this) →
              NoteComponent.repliesExpanded (extras p) = false
              ∧ NoteComponent.isExpanded (extras p) = true)).
Proof.
  split; [|split].
  - intros this this' out Hrun.
    split; [by destruct (NoteJs_processNotes_grouped _ _ _ _ _ _ Hrun)|].
    intros p Hp.
    rewrite (NoteJs_processNotes_root _ _ _ _ _ _ _ Hrun Hp).
    unfold NoteJs.currentExpansionStates, idsOf, rootRecord. split.
    + intros before q after -> <- Hlast.
      by rewrite (states_last (λ n : NoteJs.parentNote, Id (fields (self n)))).
    + intros Habsent.
      by rewrite (states_absent (λ n : NoteJs.parentNote, Id (fields (self n)))).
  - intros Htitled this. by apply NoteJs_processNotes_total.
  - intros this.
    destruct (NoteComponent_processNotes_grouped fmt rawNotes outs this)
      as (this' & out & Hrun & Hroots & _).
    exists this', out. split; [done|]. split; [done|].
    intros p Hp.
    destruct (NoteComponent_processNotes_root _ _ _ _ _ _ _ Hrun Hp)
      as [-> ->].
    unfold NoteComponent.currentRepliesExpansion,
      NoteComponent.currentNoteExpansion, idsOf, rootRecord. split.
    + intros before q after -> <- Hlast.
      rewrite !(states_last
                  (λ n : NoteComponent.parentNote, Id (fields (self n))))
        by done.
      simpl. rewrite orb_false_r. split; [done|].
      by destruct (NoteComponent.isExpanded (extras q)).
    + intros Habsent.
      rewrite !(states_absent
                  (λ n : NoteComponent.parentNote, Id (fields (self n))))
        by done.
      done.
Qed.

Lemma processNotes_carries_expansion_over_witness :
  (∃ this' p,
     NoteJs.processNotes sampleDate (InArray sampleNotes) (λ _, Fulfilled None)
       (set_this_notes [sampleShown] sampleComponent) = (this', Ok [p])
     ∧ rootRecord p = sampleNote "A" JUndefined false
     ∧ NoteJs.repliesExpanded (extras p) = true)
  ∧ (∃ this' p,
       NoteComponent.processNotes sampleDate (InArray sampleNotes)
         (λ _, Fulfilled None)
         (set_this_notes [sampleFolded] sampleComponent) = (this', Ok [p])
       ∧ rootRecord p = sampleNote "A" JUndefined false
       ∧ NoteComponent.repliesExpanded (extras p) = true
       ∧ NoteComponent.isExpanded (extras p) = false).
Proof.
  destruct (processNotes_carries_expansion_over sampleDate sampleNotes
              (λ _, Fulfilled None)) as (Hcarry & Htotal & Hcomponent).
  split.
  - destruct (Htotal sampleNotes_titled
                (set_this_notes [sampleShown] sampleComponent))
      as (this' & out & Hrun).
    destruct (Hcarry _ _ _ Hrun) as [Hroots Hflags].
    destruct out as [|p [|p' rest]]; try discriminate Hroots.
    injection Hroots as Hroot.
    exists this', p. split; [exact Hrun|]. split; [exact Hroot|].
    refine (proj1 (Hflags p _) [] sampleShown [] eq_refl _ _).
    + left.
    + rewrite Hroot. reflexivity.
    + apply not_elem_of_nil.
  - destruct (Hcomponent (set_this_notes [sampleFolded] sampleComponent))
      as (this' & out & Hrun & Hroots & Hflags).
    destruct out as [|p [|p' rest]]; try discriminate Hroots.
    injection Hroots as Hroot.
    exists this', p. split; [exact Hrun|]. split; [exact Hroot|].
    refine (proj1 (Hflags p _) [] sampleFolded [] eq_refl _ _).
    + left.
    + rewrite Hroot. reflexivity.
    + apply not_elem_of_nil.
Defined.

(** ** Frame properties of [processNotes] *)

Lemma NoteJs_processNotes_frame fmt rawNotes outs this1 this2 :
  this_notes this1 = this_notes this2 →
  (NoteJs.processNotes fmt rawNotes outs this1).2
  = (NoteJs.processNotes fmt rawNotes outs this2).2.
Proof.
  intros Hsame. unfold NoteJs.processNotes.
  destruct (notAnArray rawNotes); [done|].
  unfold mbind, mutator_bind, getThis, lift, assign. rewrite Hsame.
  by destruct (groupNotes _ _ _).
Qed.

Lemma NoteJs_processNotes_keeps_notes fmt rawNotes outs this :
  this_notes (NoteJs.processNotes fmt rawNotes outs this).1 = this_notes this.
Proof.
  unfold NoteJs.processNotes.
  destruct (notAnArray rawNotes); [done|].
  unfold mbind, mutator_bind, getThis, lift, assign.
  by destruct (groupNotes _ _ _).
Qed.

Lemma NoteComponent_processNotes_frame fmt rawNotes outs this1 this2 :
  this_notes this1 = this_notes this2 →
  (NoteComponent.processNotes fmt rawNotes outs this1).2
  = (NoteComponent.processNotes fmt rawNotes outs this2).2.
Proof.
  intros Hsame. unfold NoteComponent.processNotes.
  destruct (notAnArray rawNotes); [done|].
  unfold mbind, mutator_bind, getThis, lift, assign. rewrite Hsame.
  by destruct (groupNotes _ _ _).
Qed.

Lemma NoteComponent_processNotes_keeps_notes fmt rawNotes outs this :
  this_notes (NoteComponent.processNotes fmt rawNotes outs this).1
  = this_notes this.
Proof.
  unfold NoteComponent.processNotes.
  destruct (notAnArray rawNotes); [done|].
  unfold mbind, mutator_bind, getThis, lift, assign.
  by destruct (groupNotes _ _ _).
Qed.

Lemma Basic_processNotes_total rawNotes :
  ∃ out, Basic.processNotes rawNotes = Ok out.
Proof.
  unfold Basic.processNotes. destruct (notAnArray rawNotes); [by eexists|].
  apply groupNotes_total. intros; by eexists.
Qed.

(** C7: with no notes shown before, [processNotes] is a function of the
    flat list (and, where it enriches, of what the fetches bring): two
    components without notes build the same tree from the same list, and so
    does the same component called twice in a row; in [part_000], loading
    the same list twice leaves the same tree. *)
Theorem processNotes_twice_same_tree fmt rawNotes outs :
  (∀ this1 this2 : component NoteJs.parentNote,
     this_notes this1 = [] → this_notes this2 = [] →
     (NoteJs.processNotes fmt rawNotes outs this1).2
     = (NoteJs.processNotes fmt rawNotes outs this2).2)
  ∧ (∀ this : component NoteJs.parentNote,
       this_notes this = [] →
       (NoteJs.processNotes fmt rawNotes outs
          (NoteJs.processNotes fmt rawNotes outs this).1).2
       = (NoteJs.processNotes fmt rawNotes outs this).2)
  ∧ (∀ this1 this2 : component NoteComponent.parentNote,
       this_notes this1 = [] → this_notes this2 = [] →
       (NoteComponent.processNotes fmt rawNotes outs this1).2
       = (NoteComponent.processNotes fmt rawNotes outs this2).2)
  ∧ (∀ this : component NoteComponent.parentNote,
       this_notes this = [] →
       (NoteComponent.processNotes fmt rawNotes outs
          (NoteComponent.processNotes fmt rawNotes outs this).1).2
       = (NoteComponent.processNotes fmt rawNotes outs this).2)
  ∧ (∀ this : component Basic.parentNote,
       this_notes (Basic.loadNotes (Fulfilled rawNotes)
                     (Basic.loadNotes (Fulfilled rawNotes) this))
       = this_notes (Basic.loadNotes (Fulfilled rawNotes) this)).
Proof.
  repeat split.
  - intros this1 this2 H1 H2. apply NoteJs_processNotes_frame. congruence.
  - intros this _. apply NoteJs_processNotes_frame.
    apply NoteJs_processNotes_keeps_notes.
  - intros this1 this2 H1 H2. apply NoteComponent_processNotes_frame.
    congruence.
  - intros this _. apply NoteComponent_processNotes_frame.
    apply NoteComponent_processNotes_keeps_notes.
  - intros this. unfold Basic.loadNotes.
    destruct (negb (to_boolean (this_recordId this))
              || negb (to_boolean (this_objectApiName this))) eqn:Hguard.
    + by rewrite Hguard.
    + unfold tryCatch, mbind, mutator_bind, lift, assign. simpl.
      destruct (Basic_processNotes_total rawNotes) as [out ->]. simpl.
      by rewrite Hguard.
Qed.

Lemma processNotes_twice_same_tree_witness :
  (NoteJs.processNotes sampleDate (InArray sampleNotes) (λ _, Fulfilled None)
     (NoteJs.processNotes sampleDate (InArray sampleNotes) (λ _, Fulfilled None)
        sampleComponent).1).2
  = (NoteJs.processNotes sampleDate (InArray sampleNotes) (λ _, Fulfilled None)
       sampleComponent).2.
Proof.
  exact (proj1 (proj2 (processNotes_twice_same_tree
           sampleDate (InArray sampleNotes) (λ _, Fulfilled None)))
           sampleComponent eq_refl).
Defined.

(** C10: when its argument is [null], [undefined] or anything else that is
    not an array, [processNotes] returns the empty list of roots in every
    variant; it does not throw and leaves the component as it was. *)
Theorem processNotes_without_array fmt rawNotes outs :
  isArray rawNotes = false →
  Basic.processNotes rawNotes = Ok []
  ∧ (∀ this, NoteJs.processNotes fmt rawNotes outs this = (this, Ok []))
  ∧ (∀ this, NoteComponent.processNotes fmt rawNotes outs this = (this, Ok [])).
Proof.
  intros Hnot.
  assert (notAnArray rawNotes = true) as Hguard
    by (unfold notAnArray; rewrite Hnot; apply orb_true_r).
  unfold Basic.processNotes, NoteJs.processNotes, NoteComponent.processNotes.
  by rewrite Hguard.
Qed.

Lemma processNotes_without_array_witness :
  Basic.processNotes (InPrim JNull) = Ok []
  ∧ NoteJs.processNotes sampleDate (InPrim JUndefined) (λ _, Fulfilled None)
      sampleComponent = (sampleComponent, Ok [])
  ∧ NoteComponent.processNotes sampleDate InObject (λ _, Fulfilled None)
      sampleComponent = (sampleComponent, Ok []).
Proof.
  split; [|split].
  - exact (proj1 (processNotes_without_array
             sampleDate (InPrim JNull) (λ _, Fulfilled None) eq_refl)).
  - exact (proj1 (proj2 (processNotes_without_array
             sampleDate (InPrim JUndefined) (λ _, Fulfilled None) eq_refl))
             sampleComponent).
  - exact (proj2 (proj2 (processNotes_without_array
             sampleDate InObject (λ _, Fulfilled None) eq_refl))
             sampleComponent).
Defined.

(** ** The flight of [loadAllRelatedRecords] *)

Lemma flight_consistent {X} (notes : list (parentNote enrichment X)) evs s :
  steps evs (launch notes) = Some s → consistent (nodesOf notes) s.
Proof. apply consistent_steps, consistent_launch. Qed.

(** The promise [loadAllRelatedRecords] returned is never rejected. *)
Lemma loadAllRelatedRecords_never_rejects {X}
    (notes : list (parentNote enrichment X)) evs s e :
  steps evs (launch notes) = Some s →
  loadAllRelatedRecords_promise s ≠ Some (Throw e).
Proof.
  intros Hrun%flight_consistent. unfold loadAllRelatedRecords_promise.
  rewrite promiseAll_no_rejection by eauto using consistent_no_rejection.
  by destruct (forallb _ _).
Qed.

Lemma treeOf_skeleton {X} (notes : list (parentNote enrichment X)) s :
  consistent (nodesOf notes) s →
  skeleton <$> treeOf notes s = skeleton <$> notes.
Proof.
  intros (_ & _ & _ & Hnodes). apply skeleton_snapshot. intros j nd Hj.
  rewrite Nat.add_0_l.
  destruct (Hnodes j nd Hj) as [[_ ->]|(o & _ & _ & ->)]; by eexists.
Qed.

(** C1: for every tree of roots and replies, the promise that
    [loadAllRelatedRecords] returned is fulfilled only in states where the
    [getLinkedRecords] call of every root and of every reply has settled;
    in such a state the tree still has the roots and replies it had, and no
    node of it is unresolved: each has [isLoading = false]. *)
Theorem loadAllRelatedRecords_resolves_after_every_fetch {X}
    (notes : list (parentNote enrichment X)) evs s :
  steps evs (launch notes) = Some s →
  loadAllRelatedRecords_promise s = Some (Ok ()) →
  (∀ k, k < List.length (nodesOf notes) → ∃ o, fetches s !! k = Some (Some o))
  ∧ skeleton <$> treeOf notes s = skeleton <$> notes
  ∧ ∀ p, p ∈ treeOf notes s →
      (isLoading (enrich (self p)) = false
       ∧ isUnresolved (enrich (self p)) = false)
      ∧ ∀ r, r ∈ replies p →
          isLoading (enrich r) = false ∧ isUnresolved (enrich r) = false.
Proof.
  intros Hcons%flight_consistent Hdone.
  assert (∀ nd, nd ∈ store s →
            isLoading (enrich nd) = false ∧ isUnresolved (enrich nd) = false)
    as Hloaded.
  { intros nd [k Hk]%list_elem_of_lookup.
    destruct (lookup_lt_is_Some_2 (nodesOf notes) k) as [nd0 Hnd0].
    { destruct Hcons as (<- & _). by apply lookup_lt_Some in Hk. }
    destruct (consistent_fulfilled _ _ _ _ Hcons Hdone Hnd0) as (o & _ & Hst).
    rewrite Hk in Hst. injection Hst as ->. unfold isUnresolved. simpl.
    by rewrite enrichmentAfter_loaded. }
  split; [|split].
  - intros k Hk. destruct (lookup_lt_is_Some_2 (nodesOf notes) k) as [nd Hnd];
      [done|].
    destruct (consistent_fulfilled _ _ _ _ Hcons Hdone Hnd) as (o & ? & _).
    by exists o.
  - by apply treeOf_skeleton.
  - intros p Hp. split.
    + apply Hloaded. rewrite <- (nodesOf_treeOf notes) by done.
      by apply nodesOf_root.
    + intros r Hr. apply Hloaded. rewrite <- (nodesOf_treeOf notes) by done.
      by eapply nodesOf_reply.
Qed.

Lemma loadAllRelatedRecords_resolves_after_every_fetch_witness :
  ∃ s, steps sampleRun (launch sampleTree) = Some s
       ∧ loadAllRelatedRecords_promise s = Some (Ok ())
       ∧ ∀ p, p ∈ treeOf sampleTree s →
           (isLoading (enrich (self p)) = false
            ∧ isUnresolved (enrich (self p)) = false)
           ∧ ∀ r, r ∈ replies p →
               isLoading (enrich r) = false ∧ isUnresolved (enrich r) = false.
Proof.
  eexists. split; [vm_compute; reflexivity|]. split; [reflexivity|].
  refine (proj2 (proj2 (loadAllRelatedRecords_resolves_after_every_fetch
            sampleTree sampleRun _ _ _))).
  - vm_compute. reflexivity.
  - reflexivity.
Defined.

(** C4: take a tree of N nodes and a flight over it that has come to rest,
    in which the fetch of exactly one node was rejected and the fetches of
    all the others were fulfilled.  The promise of [loadAllRelatedRecords]
    is fulfilled, not rejected; that one node shows
    [Error loading related records] with an empty [linkedRecords]; each of
    the other N-1 nodes shows what its own fetch brought. *)
Theorem single_rejection_stays_local {X}
    (notes : list (parentNote enrichment X)) evs s k e :
  steps evs (launch notes) = Some s →
  quiescent s →
  fetches s !! k = Some (Some (Rejected e)) →
  (∀ j, j ≠ k → j < List.length (nodesOf notes) →
        ∃ r, fetches s !! j = Some (Some (Fulfilled r))) →
  loadAllRelatedRecords_promise s = Some (Ok ())
  ∧ (∃ nd, nodesOf notes !! k = Some nd
           ∧ nodesOf (treeOf notes s) !! k
             = Some {| fields := fields nd;
                       enrich :=
                         {| relatedRecordsDisplay := "Error loading related records";
                            linkedRecords := Some [];
                            isLoading := false |} |})
  ∧ (∀ j nd, j ≠ k → nodesOf notes !! j = Some nd →
       ∃ r, fetches s !! j = Some (Some (Fulfilled r))
            ∧ nodesOf (treeOf notes s) !! j
              = Some {| fields := fields nd; enrich := resolvedWith r |}).
Proof.
  intros Hcons%flight_consistent Hq Hk Hothers.
  rewrite (nodesOf_treeOf notes) by done.
  split; [by eapply quiescent_fulfilled|]. split.
  - destruct (lookup_lt_is_Some_2 (nodesOf notes) k) as [nd Hnd].
    { destruct Hcons as (_ & <- & _). by apply lookup_lt_Some in Hk. }
    exists nd. split; [done|].
    destruct (consistent_quiescent _ _ _ _ Hcons Hq Hnd) as (o & Ho & _ & ->).
    rewrite Hk in Ho. by injection Ho as <-.
  - intros j nd Hne Hnd.
    destruct (Hothers j Hne) as [r Hr]; [by apply lookup_lt_Some in Hnd|].
    exists r. split; [done|].
    destruct (consistent_quiescent _ _ _ _ Hcons Hq Hnd) as (o & Ho & _ & ->).
    rewrite Hr in Ho. by injection Ho as <-.
Qed.

Lemma single_rejection_stays_local_witness :
  ∃ s, steps sampleRun (launch sampleTree) = Some s
       ∧ quiescent s
       ∧ loadAllRelatedRecords_promise s = Some (Ok ())
       ∧ (relatedRecordsDisplay ∘ enrich) <$> nodesOf (treeOf sampleTree s)
         = ["Acme, Globex"; "Error loading related records"].
Proof.
  eexists. split; [vm_compute; reflexivity|].
  assert (quiescent
            {| store :=
                 [{| fields := sampleNote "A" JUndefined false;
                     enrich := resolvedWith
                       (Some [sampleLinked "Acme"; sampleLinked "Globex"]) |};
                  {| fields := sampleNote "B" (JStr "A") true;
                     enrich := failed |}];
               fetches :=
                 [Some (Fulfilled
                          (Some [sampleLinked "Acme"; sampleLinked "Globex"]));
                  Some (Rejected sampleError)];
               promises := [Some (Ok ()); Some (Ok ())] |}) as Hq.
  { intros [j o|j]; destruct j as [|[|j]]; reflexivity. }
  split; [exact Hq|].
  split; [|reflexivity].
  refine (proj1 (single_rejection_stays_local
            sampleTree sampleRun _ 1 sampleError _ Hq eq_refl _)).
  - vm_compute. reflexivity.
  - intros j Hne Hlt. destruct j as [|[|j]].
    + eexists. reflexivity.
    + by destruct Hne.
    + simpl in Hlt. lia.
Defined.

(** C6: a node whose [getLinkedRecords] call was fulfilled and whose
    [loadRelatedRecordsForNote] call has resumed has [isLoading = false];
    when the result holds records, its [relatedRecordsDisplay] is their
    names joined by a comma and a space and its [linkedRecords] is the
    result; when the result is empty (or [null]), its
    [relatedRecordsDisplay] is [Current record only] and its
    [linkedRecords] is the empty list. *)
Theorem fulfilled_fetch_resolves_node {X}
    (notes : list (parentNote enrichment X)) evs s k nd r :
  steps evs (launch notes) = Some s →
  nodesOf notes !! k = Some nd →
  fetches s !! k = Some (Some (Fulfilled r)) →
  promises s !! k ≠ Some None →
  ∃ nd', nodesOf (treeOf notes s) !! k = Some nd'
    ∧ fields nd' = fields nd
    ∧ isLoading (enrich nd') = false
    ∧ match r with
      | Some (first :: rest) =>
          relatedRecordsDisplay (enrich nd')
          = join ", " (LinkedRecord.Name <$> first :: rest)
          ∧ linkedRecords (enrich nd') = Some (first :: rest)
      | _ =>
          relatedRecordsDisplay (enrich nd') = "Current record only"
          ∧ linkedRecords (enrich nd') = Some []
      end.
Proof.
  intros Hcons%flight_consistent Hnd Hfetch Hresumed.
  rewrite (nodesOf_treeOf notes) by done.
  destruct Hcons as (_ & _ & _ & Hnodes).
  destruct (Hnodes k nd Hnd) as [[? _]|(o & Ho & _ & ->)]; [done|].
  rewrite Hfetch in Ho. injection Ho as <-.
  eexists. split; [done|]. by destruct r as [[|first rest]|].
Qed.

Lemma fulfilled_fetch_resolves_node_witness :
  ∃ s nd', steps sampleRun (launch sampleTree) = Some s
    ∧ nodesOf (treeOf sampleTree s) !! 0 = Some nd'
    ∧ relatedRecordsDisplay (enrich nd') = "Acme, Globex"
    ∧ linkedRecords (enrich nd')
      = Some [sampleLinked "Acme"; sampleLinked "Globex"].
Proof.
  destruct (fulfilled_fetch_resolves_node sampleTree sampleRun
              {| store :=
                   [{| fields := sampleNote "A" JUndefined false;
                       enrich := resolvedWith
                         (Some [sampleLinked "Acme"; sampleLinked "Globex"]) |};
                    {| fields := sampleNote "B" (JStr "A") true;
                       enrich := failed |}];
                 fetches :=
                   [Some (Fulfilled
                            (Some [sampleLinked "Acme"; sampleLinked "Globex"]));
                    Some (Rejected sampleError)];
                 promises := [Some (Ok ()); Some (Ok ())] |}
              0 _ (Some [sampleLinked "Acme"; sampleLinked "Globex"])
              eq_refl eq_refl eq_refl)
    as (nd' & Hnd' & _ & _ & Hdisplay & Hlinked).
  - discriminate.
  - eexists _, nd'. split; [reflexivity|]. split; [exact Hnd'|].
    split; [exact Hdisplay|exact Hlinked].
Defined.

(** When every name is a string, the join is the plain concatenation. *)
Lemma join_strings sep (names : list string) :
  join sep (JStr <$> names) = String.concat sep names.
Proof.
  unfold join. f_equal. induction names as [|n names IH]; [done|].
  simpl. by f_equal.
Qed.

(** ** [loadNotes] when [getNotes] is rejected *)

(** C8, as the claim has it (the failure of the first fetch reaches the
    caller as a rejected promise), does not hold: here [getNotes] is
    rejected and the promise of [loadNotes] is not. *)
Lemma loadNotes_swallows_fetch_failure :
  ¬ ∃ e, (NoteJs.loadNotes sampleDate (Rejected sampleError)
            (λ _, Fulfilled None) sampleComponent).2 = Throw e.
Proof. intros [e He]. vm_compute in He. discriminate He. Qed.

(** C8, amended: when the first fetch fails (and the component has its
    record id and object name, without which nothing is fetched),
    [loadNotes] catches the failure.  In [note.js] and [noteComponent.js] it
    dispatches the error toast [Failed to load notes: ...], replaces the
    notes by the empty list, clears [isLoading], and its promise is
    fulfilled.  In [part_000], where [loadNotes] returns no promise, the
    toast is dispatched and the notes stay as they were. *)
Theorem loadNotes_reports_fetch_failure fmt error outs :
  (∀ this : component NoteJs.parentNote,
     to_boolean (this_recordId this) = true →
     to_boolean (this_objectApiName this) = true →
     NoteJs.loadNotes fmt (Rejected error) outs this
     = (set_this_isLoading false
          (set_this_notes []
             (showToast "Error"
                ("Failed to load notes: " +:+ to_string (getErrorMessage error))
                "error"
                (set_this_isLoading true this))),
        Ok ()))
  ∧ (∀ this : component NoteComponent.parentNote,
       to_boolean (this_recordId this) = true →
       to_boolean (this_objectApiName this) = true →
       NoteComponent.loadNotes fmt (Rejected error) outs this
       = (set_this_isLoading false
            (set_this_notes []
               (showToast "Error"
                  ("Failed to load notes: " +:+ to_string (getErrorMessage error))
                  "error"
                  (set_this_isLoading true this))),
          Ok ()))
  ∧ (∀ this : component Basic.parentNote,
       to_boolean (this_recordId this) = true →
       to_boolean (this_objectApiName this) = true →
       Basic.loadNotes (Rejected error) this
       = showToast "Error"
           ("Failed to load notes: " +:+ to_string (Basic.getErrorMessage error))
           "error" this).
Proof.
  repeat split; intros this Hid Hobj.
  - unfold NoteJs.loadNotes, loadNotesWith, mbind, mutator_bind, getThis.
    by rewrite Hid, Hobj.
  - unfold NoteComponent.loadNotes, loadNotesWith, mbind, mutator_bind, getThis.
    by rewrite Hid, Hobj.
  - unfold Basic.loadNotes. by rewrite Hid, Hobj.
Qed.

Lemma loadNotes_reports_fetch_failure_witness :
  NoteJs.loadNotes sampleDate (Rejected sampleError) (λ _, Fulfilled None)
                   sampleComponent
  = ({| this_recordId := JStr "001";
        this_objectApiName := JStr "Account";
        this_notes := [];
        this_expandedSections := [];
        this_isLoading := false;
        dispatched :=
          [{| title := "Error";
              message := "Failed to load notes: Insufficient access";
              variant := "error" |}] |},
     Ok ()).
Proof.
  exact (proj1 (loadNotes_reports_fetch_failure
           sampleDate sampleError (λ _, Fulfilled None))
           sampleComponent eq_refl eq_refl).
Defined.

(** ** A root record without a title *)

Section Throwing.
Context {E X : Type}.
Variable newParent : rawNote → result (parentNote E X).
Variable newReply : rawNote → node E.

(** An object literal that throws for a root record abandons the build. *)
Lemma groupNotes_throws rawNotes n :
  n ∈ rootsOf rawNotes →
  (∃ e, newParent n = Throw e) →
  ∃ e, groupNotes newParent newReply rawNotes = Throw e.
Proof.
  intros Hn Hthrow. unfold groupNotes.
  assert (∀ acc, ∃ e, forEachM (firstPass newParent) rawNotes acc = Throw e)
    as Hall.
  { induction rawNotes as [|x l IH]; intros acc.
    - by apply elem_of_nil in Hn.
    - simpl. destruct (firstPass newParent acc x) as [acc'|e] eqn:Hx;
        [|by eexists].
      simpl. apply IH. unfold rootsOf in Hn.
      destruct (decide (isRoot x)) as [Hroot|Hroot].
      + rewrite filter_cons_True in Hn by done.
        apply elem_of_cons in Hn as [->|Hn]; [|done].
        destruct Hthrow as [e He]. destruct acc as [m ps].
        unfold firstPass in Hx. unfold isRoot in Hroot.
        rewrite Hroot, He in Hx. done.
      + by rewrite filter_cons_False in Hn. }
  destruct (Hall (∅, [])) as [e ->]. by eexists.
Qed.
End Throwing.

(** In [note.js], one root record whose title is [undefined] or [null]
    makes [processNotes] throw; nothing is built for the other records. *)
Lemma NoteJs_processNotes_throws fmt rawNotes outs this n :
  n ∈ rootsOf rawNotes →
  hasLength (Title__c n) = false →
  ∃ e, NoteJs.processNotes fmt (InArray rawNotes) outs this = (this, Throw e).
Proof.
  intros Hn Hlen. rewrite NoteJs_processNotes_array.
  destruct (groupNotes_throws
              (NoteJs.newParent fmt
                 (NoteJs.currentExpansionStates (this_notes this)))
              NoteJs.newReply rawNotes n Hn) as [e ->]; [|by eexists].
  unfold NoteJs.newParent. destruct (Title__c n); try done; by eexists.
Qed.

(** [loadNotes] then reports the failed build like a failed fetch. *)
Lemma NoteJs_loadNotes_after_throw fmt rawNotes outs this e :
  to_boolean (this_recordId this) = true →
  to_boolean (this_objectApiName this) = true →
  NoteJs.processNotes fmt rawNotes outs (set_this_isLoading true this)
  = (set_this_isLoading true this, Throw e) →
  NoteJs.loadNotes fmt (Fulfilled rawNotes) outs this
  = (set_this_isLoading false
       (set_this_notes []
          (showToast "Error"
             ("Failed to load notes: " +:+ to_string (getErrorMessage e))
             "error"
             (set_this_isLoading true this))),
     Ok ()).
Proof.
  intros Hid Hobj Hthrow.
  unfold NoteJs.loadNotes, loadNotesWith, mbind, mutator_bind, getThis.
  rewrite Hid, Hobj. simpl.
  unfold tryFinally, tryCatch, assign, lift. simpl. by rewrite Hthrow.
Qed.

(** C9 (the build never fails as a whole, whatever the field values):
    [note.js] breaks it.  For a list whose only root record has no title,
    its [processNotes] throws a [TypeError] on reading the length of the
    title, so no tree is built, while [part_000] and [noteComponent.js]
    build the tree from the same list. *)
Theorem processNotes_throws_on_untitled_root :
  NoteJs.processNotes sampleDate
    (InArray [untitledNote; sampleNote "B" (JStr "A") true])
    (λ _, Fulfilled None) sampleComponent
  = (sampleComponent,
     Throw (TypeError "Cannot read properties of undefined (reading 'length')"))
  ∧ (∃ out, Basic.processNotes
              (InArray [untitledNote; sampleNote "B" (JStr "A") true]) = Ok out
            ∧ List.length out = 1)
  ∧ (∃ this' out,
       NoteComponent.processNotes sampleDate
         (InArray [untitledNote; sampleNote "B" (JStr "A") true])
         (λ _, Fulfilled None) sampleComponent = (this', Ok out)
       ∧ List.length out = 1).
Proof.
  split; [reflexivity|]. split.
  - eexists. split; [vm_compute; reflexivity|reflexivity].
  - eexists _, _. split; [vm_compute; reflexivity|reflexivity].
Qed.

(** ** Every flight can come to rest, and rests at the enriched tree *)

Lemma steps_app evs1 evs2 s :
  steps (evs1 ++ evs2) s = steps evs1 s ≫= steps evs2.
Proof.
  revert s. induction evs1 as [|ev evs1 IH]; intros s; [done|].
  simpl. destruct (step ev s); simpl; [apply IH|done].
Qed.

Lemma imap_insert {A B : Type} (f g : nat → A → B) (l : list A) j a x :
  l !! j = Some a →
  x = g j a →
  (∀ k b, k ≠ j → f k b = g k b) →
  <[j := x]> (imap f l) = imap g l.
Proof.
  intros Hj -> Hother. apply list_eq. intros k.
  destruct (decide (k = j)) as [->|Hne].
  - rewrite list_lookup_insert_eq
      by (rewrite length_imap; by apply lookup_lt_Some in Hj).
    by rewrite list_lookup_imap, Hj.
  - rewrite list_lookup_insert_ne by done. rewrite !list_lookup_imap.
    destruct (l !! k); simpl; [|done]. by rewrite Hother.
Qed.

Lemma servedUpTo_next outs nodes j :
  j < List.length nodes →
  steps [Settle j (outs j); Resume j] (servedUpTo outs nodes j)
  = Some (servedUpTo outs nodes (S j)).
Proof.
  intros Hj. destruct (lookup_lt_is_Some_2 nodes j Hj) as [nd Hnd].
  assert (fetches (servedUpTo outs nodes j) !! j = Some None) as Hfetch.
  { unfold servedUpTo. cbn [fetches]. rewrite list_lookup_imap, Hnd. simpl.
    destruct (decide (j < j)); [lia|done]. }
  assert (promises (servedUpTo outs nodes j) !! j = Some None) as Hpromise.
  { unfold servedUpTo. cbn [promises]. rewrite list_lookup_imap, Hnd. simpl.
    destruct (decide (j < j)); [lia|done]. }
  assert (store (servedUpTo outs nodes j) !! j = Some nd) as Hstore.
  { unfold servedUpTo. cbn [store]. rewrite list_lookup_imap, Hnd. simpl.
    destruct (decide (j < j)); [lia|done]. }
  unfold steps, step. rewrite Hfetch. cbn [mbind option_bind store fetches promises].
  rewrite list_lookup_insert_eq by (by apply lookup_lt_Some in Hfetch).
  rewrite Hpromise, Hstore, loadRelatedRecordsForNote_spec.
  cbn [mbind option_bind]. f_equal. unfold servedUpTo.
  cbn [store fetches promises]. f_equal.
  - apply (imap_insert _ _ _ _ nd); [done| |].
    + by destruct (decide (j < S j)); [|lia].
    + intros k b Hne.
      destruct (decide (k < j)), (decide (k < S j)); try done; lia.
  - apply (imap_insert _ _ _ _ nd); [done| |].
    + by destruct (decide (j < S j)); [|lia].
    + intros k b Hne.
      destruct (decide (k < j)), (decide (k < S j)); try done; lia.
  - apply (imap_insert _ _ _ _ nd); [done| |].
    + by destruct (decide (j < S j)); [|lia].
    + intros k b Hne.
      destruct (decide (k < j)), (decide (k < S j)); try done; lia.
Qed.

Lemma servedUpTo_run outs nodes j :
  j ≤ List.length nodes →
  steps (oneByOne outs j) (servedUpTo outs nodes 0)
  = Some (servedUpTo outs nodes j).
Proof.
  induction j as [|j IH]; intros Hj; [done|].
  unfold oneByOne in *. rewrite seq_S, bind_app, steps_app, IH by lia.
  simpl. apply servedUpTo_next. lia.
Qed.

Lemma servedUpTo_launch {X} outs (notes : list (parentNote enrichment X)) :
  servedUpTo outs (nodesOf notes) 0 = launch notes.
Proof.
  unfold servedUpTo, launch. f_equal.
  - apply list_eq. intros k. rewrite list_lookup_imap.
    by destruct (nodesOf notes !! k).
  - apply list_eq. intros k. rewrite list_lookup_imap.
    destruct (nodesOf notes !! k) eqn:Hk; simpl.
    + symmetry. apply lookup_replicate_2. by apply lookup_lt_Some in Hk.
    + symmetry. apply lookup_ge_None. rewrite length_replicate.
      by apply lookup_ge_None.
  - apply list_eq. intros k. rewrite list_lookup_imap.
    destruct (nodesOf notes !! k) eqn:Hk; simpl.
    + symmetry. apply lookup_replicate_2. by apply lookup_lt_Some in Hk.
    + symmetry. apply lookup_ge_None. rewrite length_replicate.
      by apply lookup_ge_None.
Qed.

Lemma servedUpTo_quiescent outs nodes :
  quiescent (servedUpTo outs nodes (List.length nodes)).
Proof.
  intros [k o|k]; unfold step, servedUpTo; cbn [store fetches promises];
    rewrite !list_lookup_imap.
  - destruct (nodes !! k) eqn:Hk; simpl; [|done].
    apply lookup_lt_Some in Hk. by rewrite decide_True by done.
  - destruct (nodes !! k) eqn:Hk; simpl; [|done].
    apply lookup_lt_Some in Hk. by rewrite !decide_True by done.
Qed.

(** When a flight has come to rest, its tree is the one
    [await this.loadAllRelatedRecords(notes)] hands back for the way the
    fetches settled. *)
Lemma flight_adequate {X} (notes : list (parentNote enrichment X)) evs s outs :
  steps evs (launch notes) = Some s →
  quiescent s →
  (∀ k, k < List.length (nodesOf notes) → fetches s !! k = Some (Some (outs k))) →
  loadAllRelatedRecords outs notes = Ok (treeOf notes s).
Proof.
  intros Hcons%flight_consistent Hq Houts.
  destruct (loadAllRelatedRecords_spec outs notes) as (out & Hrun & _ & _).
  rewrite Hrun. f_equal.
  unfold loadAllRelatedRecords in Hrun.
  destruct (promiseAll _) as [[[]|e]|]; try done;
    injection Hrun as <-; unfold treeOf; f_equal;
    (apply list_eq; intros k;
     rewrite list_lookup_fmap, list_lookup_imap;
     destruct (nodesOf notes !! k) as [nd|] eqn:Hnd; simpl;
     [ destruct (consistent_quiescent _ _ _ _ Hcons Hq Hnd) as (o & Ho & _ & ->);
       rewrite Houts in Ho by (by apply lookup_lt_Some in Hnd);
       injection Ho as <-; by rewrite loadRelatedRecordsForNote_spec
     | symmetry; apply lookup_ge_None;
       destruct Hcons as (-> & _); by apply lookup_ge_None ]).
Qed.

(** Whatever the fetches bring, the flight can come to rest: then the
    promise is fulfilled and the tree is the enriched one. *)
Lemma flight_completes {X} (notes : list (parentNote enrichment X)) outs :
  ∃ s, steps (oneByOne outs (List.length (nodesOf notes))) (launch notes) = Some s
       ∧ quiescent s
       ∧ loadAllRelatedRecords_promise s = Some (Ok ())
       ∧ loadAllRelatedRecords outs notes = Ok (treeOf notes s).
Proof.
  exists (servedUpTo outs (nodesOf notes) (List.length (nodesOf notes))).
  assert (steps (oneByOne outs (List.length (nodesOf notes))) (launch notes)
          = Some (servedUpTo outs (nodesOf notes) (List.length (nodesOf notes))))
    as Hrun by (rewrite <- (servedUpTo_launch outs); by apply servedUpTo_run).
  pose proof (servedUpTo_quiescent outs (nodesOf notes)) as Hq.
  split; [done|]. split; [done|]. split.
  - eapply quiescent_fulfilled; [by eapply flight_consistent|done].
  - eapply flight_adequate; [done..|].
    intros k Hk. unfold servedUpTo. cbn [fetches].
    rewrite list_lookup_imap.
    destruct (lookup_lt_is_Some_2 (nodesOf notes) k Hk) as [nd ->]. simpl.
    by rewrite decide_True.
Qed.

(** * Further properties *)

(** ** [loadNotes], case by case *)

Section LoadNotesFacts.
Context {P : Type}.
Variable processNotes :
  jsinput → (nat → settled fetched) → mutator (component P) (list P).

Lemma loadNotesWith_guarded getNotes outs this :
  hasRecordContext this = false →
  loadNotesWith processNotes getNotes outs this = (this, Ok ()).
Proof.
  unfold hasRecordContext, loadNotesWith, mbind, mutator_bind, getThis.
  intros Hguard.
  by destruct (to_boolean (this_recordId this)),
              (to_boolean (this_objectApiName this)).
Qed.

Lemma loadNotesWith_fulfilled rawNotes outs this :
  hasRecordContext this = true →
  loadNotesWith processNotes (Fulfilled rawNotes) outs this
  = match processNotes rawNotes outs (set_this_isLoading true this) with
    | (this1, Ok notes) =>
        (set_this_isLoading false (set_this_notes notes this1), Ok ())
    | (this1, Throw error) =>
        (set_this_isLoading false
           (set_this_notes []
              (showToast "Error"
                 ("Failed to load notes: " +:+ to_string (getErrorMessage error))
                 "error" this1)),
         Ok ())
    end.
Proof.
  unfold hasRecordContext, loadNotesWith, mbind, mutator_bind, getThis.
  intros [-> ->]%andb_true_iff. simpl.
  unfold tryFinally, tryCatch, assign, lift. simpl.
  by destruct (processNotes rawNotes outs _) as [this1 [notes|e]].
Qed.

Lemma loadNotesWith_rejected error outs this :
  hasRecordContext this = true →
  loadNotesWith processNotes (Rejected error) outs this
  = (set_this_isLoading false
       (set_this_notes []
          (showToast "Error"
             ("Failed to load notes: " +:+ to_string (getErrorMessage error))
             "error" (set_this_isLoading true this))),
     Ok ()).
Proof.
  unfold hasRecordContext, loadNotesWith, mbind, mutator_bind, getThis.
  by intros [-> ->]%andb_true_iff.
Qed.

(** Whatever the calls bring, [loadNotes] completes normally; when it had
    a record to load for, the spinner is off afterwards. *)
Lemma loadNotesWith_completes getNotes outs this :
  (loadNotesWith processNotes getNotes outs this).2 = Ok ()
  ∧ (hasRecordContext this = true →
     this_isLoading (loadNotesWith processNotes getNotes outs this).1 = false).
Proof.
  destruct (hasRecordContext this) eqn:Hguard.
  - destruct getNotes as [rawNotes|error].
    + rewrite loadNotesWith_fulfilled by done.
      by destruct (processNotes rawNotes outs _) as [this1 [notes|e]].
    + by rewrite loadNotesWith_rejected.
  - by rewrite loadNotesWith_guarded.
Qed.
End LoadNotesFacts.

(** X1: in [note.js] and in [noteComponent.js], [loadNotes] never rejects,
    whatever [getNotes] and the [getLinkedRecords] calls bring and whatever
    the records hold.  When the component has its record id and object
    name the spinner is off afterwards; when it lacks one of them
    [loadNotes] changes nothing. *)
Theorem loadNotes_always_completes fmt getNotes outs :
  (∀ this : component NoteJs.parentNote,
     (NoteJs.loadNotes fmt getNotes outs this).2 = Ok ()
     ∧ (hasRecordContext this = true →
        this_isLoading (NoteJs.loadNotes fmt getNotes outs this).1 = false)
     ∧ (hasRecordContext this = false →
        NoteJs.loadNotes fmt getNotes outs this = (this, Ok ())))
  ∧ (∀ this : component NoteComponent.parentNote,
       (NoteComponent.loadNotes fmt getNotes outs this).2 = Ok ()
       ∧ (hasRecordContext this = true →
          this_isLoading (NoteComponent.loadNotes fmt getNotes outs this).1
          = false)
       ∧ (hasRecordContext this = false →
          NoteComponent.loadNotes fmt getNotes outs this = (this, Ok ()))).
Proof.
  split; intros this.
  - destruct (loadNotesWith_completes (NoteJs.processNotes fmt)
                getNotes outs this) as [Hok Hoff].
    split; [exact Hok|]. split; [exact Hoff|].
    apply loadNotesWith_guarded.
  - destruct (loadNotesWith_completes (NoteComponent.processNotes fmt)
                getNotes outs this) as [Hok Hoff].
    split; [exact Hok|]. split; [exact Hoff|].
    apply loadNotesWith_guarded.
Qed.

Lemma loadNotes_always_completes_witness :
  this_isLoading
    (NoteJs.loadNotes sampleDate (Fulfilled (InArray [untitledNote]))
       (λ _, Rejected sampleError) sampleComponent).1 = false.
Proof.
  exact (proj1 (proj2 (proj1 (loadNotes_always_completes sampleDate
           (Fulfilled (InArray [untitledNote])) (λ _, Rejected sampleError))
           sampleComponent)) eq_refl).
Defined.

(** ** What a root of the output was made from *)

Lemma rootsOf_elem rawNotes i n : rootsOf rawNotes !! i = Some n → n ∈ rawNotes.
Proof.
  intros Hn%list_elem_of_lookup_2. unfold rootsOf in Hn.
  by apply list_elem_of_filter in Hn as [_ ?].
Qed.

Lemma NoteJs_processNotes_made fmt rawNotes outs this this' out p :
  NoteJs.processNotes fmt (InArray rawNotes) outs this = (this', Ok out) →
  p ∈ out →
  ∃ c, NoteJs.newParent fmt (NoteJs.currentExpansionStates (this_notes this))
         (rootRecord p) = Ok c
       ∧ extras p = extras c
       ∧ rootRecord p ∈ rawNotes.
Proof.
  intros (built & Hbuilt & _ & Hsk & _)%NoteJs_processNotes_inv
         [i Hi]%list_elem_of_lookup.
  assert (skeleton <$> out !! i = skeleton <$> built !! i) as Hlook
    by (by rewrite <- !list_lookup_fmap, Hsk).
  rewrite Hi in Hlook. simpl in Hlook.
  destruct (built !! i) as [b|] eqn:Hb; [|done].
  simpl in Hlook. injection Hlook as Hroot _ Hextras.
  destruct (groupNotes_lookup _ _ _ _ _ _ Hbuilt Hb)
    as (n & c & Hn & Hc & Hself & Hx & _).
  destruct (NoteJs_newParent_inv _ _ _ _ Hc) as (Hcn & _).
  assert (rootRecord p = n) as ->.
  { rewrite Hroot. unfold rootRecord in *. by rewrite Hself. }
  exists c. split; [done|]. split; [congruence|]. by eapply rootsOf_elem.
Qed.

Lemma NoteComponent_processNotes_made fmt rawNotes outs this this' out p :
  NoteComponent.processNotes fmt (InArray rawNotes) outs this = (this', Ok out) →
  p ∈ out →
  ∃ c g,
    NoteComponent.newParent fmt
      (NoteComponent.currentRepliesExpansion (this_notes this))
      (NoteComponent.currentNoteExpansion (this_notes this))
      (rootRecord p) = Ok c
    ∧ extras g = extras c
    ∧ List.length (replies g) = List.length (replies p)
    ∧ extras p = extras (NoteComponent.setButtonLabel g).
Proof.
  destruct (NoteComponent_processNotes_spec fmt rawNotes outs this)
    as (grouped & out' & Hg & -> & Hsk & _).
  intros [= <- <-] [i Hi]%list_elem_of_lookup.
  assert (skeleton <$> out' !! i
          = skeleton <$> (NoteComponent.setButtonLabel <$> grouped) !! i)
    as Hlook by (by rewrite <- !list_lookup_fmap, Hsk).
  rewrite Hi, list_lookup_fmap in Hlook. simpl in Hlook.
  destruct (grouped !! i) as [g|] eqn:Hgi; [|done].
  simpl in Hlook. injection Hlook as Hroot Hreplies Hextras.
  destruct (groupNotes_lookup _ _ _ _ _ _ Hg Hgi)
    as (n & c & _ & Hc & Hself & Hx & _).
  destruct (NoteComponent_newParent_inv _ _ _ _ _ Hc) as (Hn & _).
  destruct (NoteComponent_setButtonLabel_keeps g) as (Hs & Hr & _).
  assert (rootRecord p = n) as ->.
  { rewrite Hroot. unfold rootRecord in *. by rewrite Hs, Hself. }
  exists c, g. split; [done|]. split; [done|]. split; [|done].
  unfold replyRecords in Hreplies. rewrite Hr in Hreplies.
  apply (f_equal List.length) in Hreplies. by rewrite !length_fmap in Hreplies.
Qed.

(** ** [processNotes] and the open sections *)

Lemma idsOf_grouped {E X} rawNotes (out : list (parentNote E X)) :
  groupedFrom rawNotes out → idsOf out = rootIds rawNotes.
Proof.
  intros [Hroots _]. unfold idsOf, rootIds. rewrite <- Hroots.
  by rewrite <- list_fmap_compose.
Qed.

Lemma idsOf_skeleton {E X} (a b : list (parentNote E X)) :
  skeleton <$> a = skeleton <$> b → idsOf a = idsOf b.
Proof.
  intros Hsk. unfold idsOf. apply list_eq. intros i.
  assert (skeleton <$> a !! i = skeleton <$> b !! i) as Hlook
    by (by rewrite <- !list_lookup_fmap, Hsk).
  rewrite !list_lookup_fmap.
  destruct (a !! i), (b !! i); simpl in *; try done.
  injection Hlook as -> _ _. done.
Qed.

Lemma NoteComponent_processNotes_full fmt rawNotes outs this :
  ∃ out,
    NoteComponent.processNotes fmt (InArray rawNotes) outs this
    = (set_this_expandedSections (rootIds rawNotes) this, Ok out)
    ∧ groupedFrom rawNotes out.
Proof.
  destruct (NoteComponent_processNotes_grouped fmt rawNotes outs this)
    as (this' & out & Hrun & Hgrouped).
  destruct (NoteComponent_processNotes_spec fmt rawNotes outs this)
    as (grouped & out' & _ & Hrun' & Hsk & _).
  rewrite Hrun in Hrun'. injection Hrun' as -> <-.
  exists out. split; [|done]. rewrite Hrun. do 2 f_equal.
  rewrite <- (idsOf_skeleton _ _ Hsk). by apply idsOf_grouped.
Qed.

Lemma NoteJs_processNotes_full fmt rawNotes outs this :
  titled rawNotes →
  ∃ out,
    NoteJs.processNotes fmt (InArray rawNotes) outs this
    = (set_this_expandedSections (rootIds rawNotes) this, Ok out)
    ∧ groupedFrom rawNotes out.
Proof.
  intros Htitled.
  destruct (NoteJs_processNotes_total fmt rawNotes outs this Htitled)
    as (this' & out & Hrun).
  pose proof (NoteJs_processNotes_grouped _ _ _ _ _ _ Hrun) as Hgrouped.
  destruct (NoteJs_processNotes_inv _ _ _ _ _ _ Hrun)
    as (built & _ & -> & Hsk & _).
  exists out. split; [|done]. rewrite Hrun. do 2 f_equal.
  rewrite <- (idsOf_skeleton _ _ Hsk). by apply idsOf_grouped.
Qed.

Lemma Basic_loadNotes_fulfilled rawNotes this out :
  hasRecordContext this = true →
  Basic.processNotes rawNotes = Ok out →
  Basic.loadNotes (Fulfilled rawNotes) this = set_this_notes out this.
Proof.
  unfold hasRecordContext, Basic.loadNotes.
  intros [-> ->]%andb_true_iff Hout. simpl.
  unfold tryCatch, mbind, mutator_bind, lift, assign. simpl. by rewrite Hout.
Qed.

(** X2: a load that goes through publishes the grouped tree and nothing
    else: when the component has its record and [getNotes] brings a list
    of records, [loadNotes] ends with the notes grouped from that list,
    with the spinner off and without a toast; in [note.js] and
    [noteComponent.js] the open accordion sections are then the [Id]s of
    all the roots, in order.  In [note.js] this needs every root record to
    have a title. *)
Theorem loadNotes_publishes_grouped_tree fmt rawNotes outs :
  (∀ this : component NoteComponent.parentNote,
     hasRecordContext this = true →
     let after := (NoteComponent.loadNotes fmt (Fulfilled (InArray rawNotes))
                     outs this).1 in
     groupedFrom rawNotes (this_notes after)
     ∧ this_expandedSections after = rootIds rawNotes
     ∧ this_isLoading after = false
     ∧ dispatched after = dispatched this)
  ∧ (∀ this : component NoteJs.parentNote,
       hasRecordContext this = true →
       titled rawNotes →
       let after := (NoteJs.loadNotes fmt (Fulfilled (InArray rawNotes))
                       outs this).1 in
       groupedFrom rawNotes (this_notes after)
       ∧ this_expandedSections after = rootIds rawNotes
       ∧ this_isLoading after = false
       ∧ dispatched after = dispatched this)
  ∧ (∀ this : component Basic.parentNote,
       hasRecordContext this = true →
       let after := Basic.loadNotes (Fulfilled (InArray rawNotes)) this in
       groupedFrom rawNotes (this_notes after)
       ∧ dispatched after = dispatched this).
Proof.
  split; [|split].
  - intros this Hguard after. subst after.
    unfold NoteComponent.loadNotes. rewrite loadNotesWith_fulfilled by done.
    destruct (NoteComponent_processNotes_full fmt rawNotes outs
                (set_this_isLoading true this)) as (out & -> & Hgrouped).
    done.
  - intros this Hguard Htitled after. subst after.
    unfold NoteJs.loadNotes. rewrite loadNotesWith_fulfilled by done.
    destruct (NoteJs_processNotes_full fmt rawNotes outs
                (set_this_isLoading true this) Htitled)
      as (out & -> & Hgrouped).
    done.
  - intros this Hguard after. subst after.
    destruct (Basic_processNotes_grouped rawNotes) as (out & Hrun & Hgrouped).
    by rewrite (Basic_loadNotes_fulfilled _ _ _ Hguard Hrun).
Qed.

Lemma loadNotes_publishes_grouped_tree_witness :
  let after := (NoteJs.loadNotes sampleDate (Fulfilled (InArray sampleNotes))
                  (λ _, Fulfilled None) sampleComponent).1 in
  groupedFrom sampleNotes (this_notes after)
  ∧ this_expandedSections after = [JStr "A"]
  ∧ this_isLoading after = false
  ∧ dispatched after = [].
Proof.
  exact (proj1 (proj2 (loadNotes_publishes_grouped_tree sampleDate sampleNotes
           (λ _, Fulfilled None))) sampleComponent eq_refl sampleNotes_titled).
Defined.

(** ** Toggling *)

Lemma NoteComponent_toggleNote_twice note :
  NoteComponentPage.toggleNote (NoteComponentPage.toggleNote note) = note.
Proof.
  destruct note as [s r [t d re c b e]]. unfold NoteComponentPage.toggleNote.
  simpl. by rewrite negb_involutive.
Qed.

Lemma set_this_notes_twice {P} (a b : list P) (this : component P) :
  set_this_notes a (set_this_notes b this) = set_this_notes a this.
Proof. done. Qed.

Lemma set_this_notes_same {P} (this : component P) :
  set_this_notes (this_notes this) this = this.
Proof. by destruct this. Qed.

(** X3: in [noteComponent.js], toggling a note twice gives back the list
    as it was: [handleToggleNote] is its own inverse, for every id and
    every list (two notes that share the id are both toggled, and both
    toggled back). *)
Theorem handleToggleNote_twice noteId this :
  NoteComponentPage.handleToggleNote noteId
    (NoteComponentPage.handleToggleNote noteId this) = this.
Proof.
  unfold NoteComponentPage.handleToggleNote.
  destruct (to_boolean noteId); simpl; [|done].
  rewrite set_this_notes_twice, <- list_fmap_compose.
  etrans; [|apply set_this_notes_same]. f_equal.
  etrans; [|apply list_fmap_id].
  apply list_fmap_ext. intros i note _. simpl.
  destruct (bool_decide (Id (fields (self note)) = noteId)) eqn:Hid; simpl.
  - rewrite Hid. apply NoteComponent_toggleNote_twice.
  - by rewrite Hid.
Qed.

Lemma NoteJs_toggleReplies_twice note :
  NoteJs.repliesSectionClass (extras note)
  = sectionClass (NoteJs.repliesExpanded (extras note)) →
  NoteJsPage.toggleReplies (NoteJsPage.toggleReplies note) = note.
Proof.
  destruct note as [s r [t e c]]. unfold NoteJsPage.toggleReplies. simpl.
  intros ->. by rewrite negb_involutive.
Qed.

Lemma NoteComponent_toggleReplies_twice note :
  NoteComponent.repliesSectionClass (extras note)
  = sectionClass (NoteComponent.repliesExpanded (extras note)) →
  NoteComponentPage.toggleReplies (NoteComponentPage.toggleReplies note) = note.
Proof.
  destruct note as [s r [t d re c b e]].
  unfold NoteComponentPage.toggleReplies. simpl.
  intros ->. by rewrite negb_involutive.
Qed.

(** X4: [handleToggleReplies] is its own inverse on a list whose section
    classes go with the flags (which is how [processNotes] builds them and
    how the handler leaves them): toggling the replies of a note twice
    gives back the list as it was, in [note.js] and in [noteComponent.js]. *)
Theorem handleToggleReplies_twice noteId :
  (∀ this, NoteJs_inSync (this_notes this) →
     NoteJsPage.handleToggleReplies noteId
       (NoteJsPage.handleToggleReplies noteId this) = this)
  ∧ (∀ this, NoteComponent_inSync (this_notes this) →
       NoteComponentPage.handleToggleReplies noteId
         (NoteComponentPage.handleToggleReplies noteId this) = this).
Proof.
  split; intros this Hsync.
  - unfold NoteJsPage.handleToggleReplies.
    destruct (to_boolean noteId); simpl; [|done].
    rewrite set_this_notes_twice, <- list_fmap_compose.
    etrans; [|apply set_this_notes_same]. f_equal.
    etrans; [|apply list_fmap_id].
    apply list_fmap_ext. intros i note Hi. simpl.
    destruct (bool_decide (Id (fields (self note)) = noteId)) eqn:Hid; simpl.
    + rewrite Hid. apply NoteJs_toggleReplies_twice.
      unfold NoteJs_inSync in Hsync. rewrite Forall_lookup in Hsync. eauto.
    + by rewrite Hid.
  - unfold NoteComponentPage.handleToggleReplies.
    destruct (to_boolean noteId); simpl; [|done].
    rewrite set_this_notes_twice, <- list_fmap_compose.
    etrans; [|apply set_this_notes_same]. f_equal.
    etrans; [|apply list_fmap_id].
    apply list_fmap_ext. intros i note Hi. simpl.
    destruct (bool_decide (Id (fields (self note)) = noteId)) eqn:Hid; simpl.
    + rewrite Hid. apply NoteComponent_toggleReplies_twice.
      unfold NoteComponent_inSync in Hsync. rewrite Forall_lookup in Hsync.
      eauto.
    + by rewrite Hid.
Qed.

Lemma handleToggleReplies_twice_witness :
  NoteJsPage.handleToggleReplies (JStr "A")
    (NoteJsPage.handleToggleReplies (JStr "A")
       (set_this_notes [sampleShown] sampleComponent))
  = set_this_notes [sampleShown] sampleComponent.
Proof.
  apply (proj1 (handleToggleReplies_twice (JStr "A"))).
  repeat constructor.
Defined.

(** ** The section class goes with the flag *)

Lemma NoteJs_newParent_extras fmt states n c :
  NoteJs.newParent fmt states n = Ok c →
  ∃ len, lengthOf (Title__c n) = Ok len
    ∧ extras c
      = {| NoteJs.titleWithDate :=
             to_string (Title__c n) +:+ padTo80 len +:+ fmt (CreatedDate n);
           NoteJs.repliesExpanded := default false (states !! Id n);
           NoteJs.repliesSectionClass :=
             sectionClass (default false (states !! Id n)) |}.
Proof.
  unfold NoteJs.newParent. intros Hc.
  destruct (lengthOf (Title__c n)) as [len|e]; [|done].
  simpl in Hc. injection Hc as <-. by exists len.
Qed.

(** X5: the section class always goes with the flag.  Every root that
    [processNotes] returns has [repliesSectionClass] open exactly when its
    [repliesExpanded] is set, and [handleToggleReplies] (and, in
    [noteComponent.js], [handleToggleNote]) keeps a list that way. *)
Theorem section_class_follows_flag fmt rawNotes outs noteId :
  (∀ this this' out,
     NoteJs.processNotes fmt (InArray rawNotes) outs this = (this', Ok out) →
     NoteJs_inSync out)
  ∧ (∀ this this' out,
       NoteComponent.processNotes fmt (InArray rawNotes) outs this
       = (this', Ok out) →
       NoteComponent_inSync out)
  ∧ (∀ this, NoteJs_inSync (this_notes this) →
       NoteJs_inSync (this_notes (NoteJsPage.handleToggleReplies noteId this)))
  ∧ (∀ this, NoteComponent_inSync (this_notes this) →
       NoteComponent_inSync
         (this_notes (NoteComponentPage.handleToggleReplies noteId this))
       ∧ NoteComponent_inSync
           (this_notes (NoteComponentPage.handleToggleNote noteId this))).
Proof.
  split; [|split; [|split]].
  - intros this this' out Hrun. apply Forall_forall. intros p Hp.
    destruct (NoteJs_processNotes_made _ _ _ _ _ _ _ Hrun Hp)
      as (c & Hc & -> & _).
    by destruct (NoteJs_newParent_extras _ _ _ _ Hc) as (len & _ & ->).
  - intros this this' out Hrun. apply Forall_forall. intros p Hp.
    destruct (NoteComponent_processNotes_made _ _ _ _ _ _ _ Hrun Hp)
      as (c & g & Hc & Hg & _ & ->).
    unfold NoteComponent.setButtonLabel.
    assert (NoteComponent.repliesSectionClass (extras g)
            = sectionClass (NoteComponent.repliesExpanded (extras g))) as Hsync
      by (rewrite Hg; unfold NoteComponent.newParent in Hc; by injection Hc as <-).
    by destruct (0 <? _)%nat.
  - intros this Hsync. unfold NoteJsPage.handleToggleReplies.
    destruct (to_boolean noteId); simpl; [|done].
    apply Forall_fmap. eapply Forall_impl; [exact Hsync|].
    intros p Hp. simpl. by destruct (bool_decide _).
  - intros this Hsync. split.
    + unfold NoteComponentPage.handleToggleReplies.
      destruct (to_boolean noteId); simpl; [|done].
      apply Forall_fmap. eapply Forall_impl; [exact Hsync|].
      intros p Hp. simpl. by destruct (bool_decide _).
    + unfold NoteComponentPage.handleToggleNote.
      destruct (to_boolean noteId); simpl; [|done].
      apply Forall_fmap. eapply Forall_impl; [exact Hsync|].
      intros p Hp. simpl. by destruct (bool_decide _).
Qed.

Lemma section_class_follows_flag_witness :
  NoteJs_inSync
    (this_notes (NoteJsPage.handleToggleReplies (JStr "A")
                   (set_this_notes [sampleShown] sampleComponent))).
Proof.
  apply (proj1 (proj2 (proj2 (section_class_follows_flag
           sampleDate sampleNotes (λ _, Fulfilled None) (JStr "A"))))).
  repeat constructor.
Defined.

(** ** Expansion through a refresh *)









(** ** No reply with a known parent is lost *)

Lemma last_occurrence (ids : list jsval) k :
  k ∈ ids → ∃ i, ids !! i = Some k ∧ k ∉ drop (S i) ids.
Proof.
  induction ids as [|x ids IH] using rev_ind; [by intros ?%elem_of_nil|].
  intros Hk. destruct (decide (k = x)) as [->|Hne].
  - exists (List.length ids). split; [by apply list_lookup_middle|].
    rewrite drop_ge by (rewrite length_app; simpl; lia).
    apply not_elem_of_nil.
  - apply elem_of_app in Hk as [Hk|Hk];
      [|apply list_elem_of_singleton in Hk; done].
    destruct (IH Hk) as (i & Hi & Hnot). exists i.
    pose proof (lookup_lt_Some _ _ _ Hi) as Hlt.
    split; [by rewrite lookup_app_l|].
    rewrite drop_app_le by lia. rewrite elem_of_app.
    intros [?|Hin]; [done|]. apply list_elem_of_singleton in Hin. done.
Qed.

Lemma groupedFrom_keeps_reply {E X} rawNotes (out : list (parentNote E X)) n :
  groupedFrom rawNotes out →
  n ∈ rawNotes →
  to_boolean (Is_Reply__c n) = true →
  Parent_Note__c n ∈ rootIds rawNotes →
  ∃ p, p ∈ out ∧ n ∈ replyRecords p ∧ Id (rootRecord p) = Parent_Note__c n.
Proof.
  intros [Hroots Hreplies] Hn Hflag Hparent.
  destruct (last_occurrence _ _ Hparent) as (i & Hi & Hlast).
  destruct (lookup_lt_is_Some_2 out i) as [p Hp].
  { apply lookup_lt_Some in Hi. unfold rootIds in Hi.
    rewrite <- Hroots, !length_fmap in Hi. done. }
  exists p. split; [by eapply list_elem_of_lookup_2|]. split.
  - rewrite (Hreplies _ _ Hp). apply list_elem_of_filter. by repeat split.
  - unfold rootIds in Hi. rewrite <- Hroots in Hi.
    rewrite !list_lookup_fmap, Hp in Hi. simpl in Hi. congruence.
Qed.

(** X8: no reply with a known parent is lost.  A record of the input whose
    reply flag is set and whose parent link is the [Id] of a root record
    is behind a reply of the output, under a root with that [Id] -- in
    every variant ([note.js]: in any tree it returns). *)
Theorem reply_with_known_parent_is_kept fmt rawNotes outs n :
  n ∈ rawNotes →
  to_boolean (Is_Reply__c n) = true →
  Parent_Note__c n ∈ rootIds rawNotes →
  (∃ out, Basic.processNotes (InArray rawNotes) = Ok out
          ∧ ∃ p, p ∈ out ∧ n ∈ replyRecords p
                 ∧ Id (rootRecord p) = Parent_Note__c n)
  ∧ (∀ this, ∃ this' out,
       NoteComponent.processNotes fmt (InArray rawNotes) outs this
       = (this', Ok out)
       ∧ ∃ p, p ∈ out ∧ n ∈ replyRecords p
              ∧ Id (rootRecord p) = Parent_Note__c n)
  ∧ (∀ this this' out,
       NoteJs.processNotes fmt (InArray rawNotes) outs this = (this', Ok out) →
       ∃ p, p ∈ out ∧ n ∈ replyRecords p
            ∧ Id (rootRecord p) = Parent_Note__c n).
Proof.
  intros Hn Hflag Hparent. split; [|split].
  - destruct (Basic_processNotes_grouped rawNotes) as (out & Hrun & Hg).
    exists out. split; [done|]. by eapply groupedFrom_keeps_reply.
  - intros this.
    destruct (NoteComponent_processNotes_grouped fmt rawNotes outs this)
      as (this' & out & Hrun & Hg).
    exists this', out. split; [done|]. by eapply groupedFrom_keeps_reply.
  - intros this this' out Hrun.
    eapply groupedFrom_keeps_reply; [|done..].
    by eapply NoteJs_processNotes_grouped.
Qed.

Lemma reply_with_known_parent_is_kept_witness :
  ∃ out, Basic.processNotes (InArray sampleNotes) = Ok out
         ∧ ∃ p, p ∈ out ∧ sampleNote "B" (JStr "A") true ∈ replyRecords p
                ∧ Id (rootRecord p) = JStr "A".
Proof.
  refine (proj1 (reply_with_known_parent_is_kept sampleDate sampleNotes
            (λ _, Fulfilled None) (sampleNote "B" (JStr "A") true) _ eq_refl _)).
  - right. left.
  - vm_compute. left.
Defined.

(** ** What a root shows *)

(** X9: in [noteComponent.js] the label of the replies button counts the
    replies of the root as returned: empty without replies, [1 reply] for
    one, and the number followed by [replies] otherwise. *)
Theorem replies_button_label_counts_replies fmt rawNotes outs this this' out p :
  NoteComponent.processNotes fmt (InArray rawNotes) outs this = (this', Ok out) →
  p ∈ out →
  NoteComponent.repliesButtonLabel (extras p)
  = match List.length (replies p) with
    | 0 => ""
    | 1 => "1 reply"
    | n => pretty n +:+ " replies"
    end.
Proof.
  intros Hrun Hp.
  destruct (NoteComponent_processNotes_made _ _ _ _ _ _ _ Hrun Hp)
    as (c & g & Hc & Hg & Hlen & ->).
  assert (NoteComponent.repliesButtonLabel (extras g) = "") as Hempty
    by (rewrite Hg; unfold NoteComponent.newParent in Hc; by injection Hc as <-).
  unfold NoteComponent.setButtonLabel. rewrite Hlen.
  destruct (List.length (replies p)) as [|[|n]]; simpl; done.
Qed.

Lemma replies_button_label_counts_replies_witness :
  ∃ this' p rest,
    NoteComponent.processNotes sampleDate (InArray sampleNotes)
      (λ _, Fulfilled None) sampleComponent = (this', Ok (p :: rest))
    ∧ NoteComponent.repliesButtonLabel (extras p) = "1 reply".
Proof.
  destruct (NoteComponent.processNotes sampleDate (InArray sampleNotes)
              (λ _, Fulfilled None) sampleComponent)
    as [this' [out|e]] eqn:Hrun.
  2:{ vm_compute in Hrun. discriminate Hrun. }
  destruct out as [|p rest]; [vm_compute in Hrun; discriminate Hrun|].
  exists this', p, rest. split; [reflexivity|].
  assert (List.length (replies p) = 1) as Hlen.
  { pose proof Hrun as Hval. vm_compute in Hval.
    injection Hval as _ <- _. reflexivity. }
  rewrite (replies_button_label_counts_replies _ _ _ _ _ _ p Hrun);
    [by rewrite Hlen|left].
Defined.

Lemma length_append (s1 s2 : string) :
  String.length (s1 +:+ s2) = String.length s1 + String.length s2.
Proof. induction s1 as [|c s1 IH]; simpl; [done|]. by rewrite IH. Qed.

Lemma length_repeat_space n : String.length (repeat_space n) = n.
Proof. induction n as [|n IH]; simpl; [done|]. f_equal. exact IH. Qed.

(** X10: in [note.js] the date of a root is set off to the right of its
    title.  For a title that is a string, [titleWithDate] is the title,
    then spaces up to column 80 (none when the title is longer), then the
    formatted creation date: the date starts at column 80 or right after
    a longer title. *)
Theorem titleWithDate_aligns_date fmt rawNotes outs this this' out p title :
  NoteJs.processNotes fmt (InArray rawNotes) outs this = (this', Ok out) →
  p ∈ out →
  Title__c (rootRecord p) = JStr title →
  let padding := repeat_space (80 - String.length title) in
  NoteJs.titleWithDate (extras p)
  = title +:+ padding +:+ fmt (CreatedDate (rootRecord p))
  ∧ String.length (title +:+ padding) = Nat.max 80 (String.length title).
Proof.
  intros Hrun Hp Htitle padding. subst padding.
  destruct (NoteJs_processNotes_made _ _ _ _ _ _ _ Hrun Hp)
    as (c & Hc & -> & _).
  destruct (NoteJs_newParent_extras _ _ _ _ Hc) as (len & Hlen & ->).
  rewrite Htitle in *. simpl in Hlen. injection Hlen as <-. simpl. split.
  - do 2 f_equal. f_equal. lia.
  - rewrite length_append, length_repeat_space. lia.
Qed.

Lemma titleWithDate_aligns_date_witness :
  ∃ this' p rest,
    NoteJs.processNotes sampleDate (InArray sampleNotes) (λ _, Fulfilled None)
      sampleComponent = (this', Ok (p :: rest))
    ∧ NoteJs.titleWithDate (extras p)
      = "Note A" +:+ repeat_space 74 +:+ "Jan 01, 2024, 12:00 AM"
    ∧ String.length ("Note A" +:+ repeat_space 74) = 80.
Proof.
  destruct (NoteJs.processNotes sampleDate (InArray sampleNotes)
              (λ _, Fulfilled None) sampleComponent)
    as [this' [out|e]] eqn:Hrun.
  2:{ vm_compute in Hrun. discriminate Hrun. }
  destruct out as [|p rest]; [vm_compute in Hrun; discriminate Hrun|].
  exists this', p, rest. split; [reflexivity|].
  assert (Title__c (rootRecord p) = JStr "Note A") as Htitle.
  { pose proof Hrun as Hval. vm_compute in Hval.
    injection Hval as _ <- _. reflexivity. }
  refine (titleWithDate_aligns_date _ _ _ _ _ _ p "Note A" Hrun _ Htitle).
  left.
Defined.

(** X11: when [processNotes] of [note.js] or [noteComponent.js] hands back
    its tree, no node of it is loading any more: the k-th node in the order
    of the visit (each root, then its replies) shows what the k-th
    [getLinkedRecords] call brought, or the error placeholder if that call
    was rejected. *)
Theorem processNotes_enriches_every_node fmt rawNotes outs k nd :
  (∀ this this' out,
     NoteJs.processNotes fmt (InArray rawNotes) outs this = (this', Ok out) →
     nodesOf out !! k = Some nd →
     enrich nd = enrichmentAfter (outs k) ∧ isLoading (enrich nd) = false)
  ∧ (∀ this this' out,
       NoteComponent.processNotes fmt (InArray rawNotes) outs this
       = (this', Ok out) →
       nodesOf out !! k = Some nd →
       enrich nd = enrichmentAfter (outs k) ∧ isLoading (enrich nd) = false).
Proof.
  split.
  - intros this this' out (built & _ & _ & _ & Hnodes)%NoteJs_processNotes_inv.
    rewrite Hnodes, list_lookup_imap.
    destruct (nodesOf built !! k); simpl; [|done].
    intros [= <-]. simpl. split; [done|apply enrichmentAfter_loaded].
  - intros this this' out Hrun.
    destruct (NoteComponent_processNotes_spec fmt rawNotes outs this)
      as (grouped & out' & _ & Hrun' & _ & Hnodes).
    rewrite Hrun in Hrun'. injection Hrun' as _ ->.
    rewrite Hnodes, list_lookup_imap.
    destruct (nodesOf _ !! k); simpl; [|done].
    intros [= <-]. simpl. split; [done|apply enrichmentAfter_loaded].
Qed.

Lemma processNotes_enriches_every_node_witness :
  ∃ this' out nd,
    NoteJs.processNotes sampleDate (InArray sampleNotes)
      (λ k, if (k =? 1)%nat then Rejected sampleError else Fulfilled None)
      sampleComponent = (this', Ok out)
    ∧ nodesOf out !! 1 = Some nd
    ∧ enrich nd = failed.
Proof.
  destruct (NoteJs.processNotes sampleDate (InArray sampleNotes)
              (λ k, if (k =? 1)%nat then Rejected sampleError else Fulfilled None)
              sampleComponent)
    as [this' [out|e]] eqn:Hrun.
  2:{ vm_compute in Hrun. discriminate Hrun. }
  destruct (nodesOf out !! 1) as [nd|] eqn:Hnd.
  2:{ pose proof Hrun as Hval. vm_compute in Hval.
      injection Hval as _ <-. vm_compute in Hnd. discriminate Hnd. }
  exists this', out, nd. split; [reflexivity|]. split; [exact Hnd|].
  exact (proj1 (proj1 (processNotes_enriches_every_node sampleDate sampleNotes
           (λ k, if (k =? 1)%nat then Rejected sampleError else Fulfilled None)
           1 nd) _ _ _ Hrun Hnd)).
Defined.

(** ** The message of an error *)

(** X12: [getErrorMessage] of [note.js] and [noteComponent.js] never
    returns a falsy value (no empty string, no [undefined]): it falls back
    from [error.body.message] to [error.message] to
    [Unknown error occurred], so a toast built from it always says
    something. *)
Theorem getErrorMessage_is_never_blank error :
  to_boolean (getErrorMessage error) = true
  ∧ getErrorMessage error ≠ JStr ""
  ∧ getErrorMessage error ≠ JUndefined.
Proof.
  assert (to_boolean (getErrorMessage error) = true) as Htruthy.
  { unfold getErrorMessage.
    destruct (error_to_boolean error && to_boolean (body_message error))
      eqn:Hbody.
    - by apply andb_true_iff in Hbody as [_ ?].
    - destruct (error_to_boolean error && to_boolean (error_message error))
        eqn:Hmsg; [|done].
      by apply andb_true_iff in Hmsg as [_ ?]. }
  split; [done|]. split; intros Heq; by rewrite Heq in Htruthy.
Qed.

(** ** The records linked in a draft *)

Lemma hasRecord_elem recordId records :
  hasRecord recordId records = true ↔ recordId ∈ LinkedRecord.Id <$> records.
Proof.
  unfold hasRecord. rewrite existsb_exists, list_elem_of_fmap. split.
  - intros (r & Hr%list_elem_of_In & Hid%bool_decide_eq_true). eauto.
  - intros (r & -> & Hr). exists r.
    split; [by apply list_elem_of_In|by apply bool_decide_eq_true].
Qed.

Lemma hasRecord_not_elem recordId records :
  hasRecord recordId records = false ↔ recordId ∉ LinkedRecord.Id <$> records.
Proof.
  rewrite <- hasRecord_elem. by destruct (hasRecord recordId records).
Qed.

Lemma addRecord_distinct recordId recordName relatedObject records :
  NoDup (LinkedRecord.Id <$> records) →
  NoDup (LinkedRecord.Id <$> addRecord recordId recordName relatedObject records).
Proof.
  intros Hnodup. unfold addRecord.
  destruct (hasRecord recordId records) eqn:Hhas; simpl; [done|].
  apply hasRecord_not_elem in Hhas. rewrite fmap_app. simpl.
  apply NoDup_app. split; [done|]. split; [|apply NoDup_singleton].
  intros x Hx Hin. apply list_elem_of_singleton in Hin. by subst.
Qed.

Lemma removeRecord_ids recordId records :
  LinkedRecord.Id <$> removeRecord recordId records
  = filter (λ i, i ≠ recordId) (LinkedRecord.Id <$> records).
Proof.
  unfold removeRecord. induction records as [|r records IH]; [done|].
  rewrite fmap_cons. destruct (decide (LinkedRecord.Id r = recordId)).
  - by rewrite !filter_cons_False by naive_solver.
  - rewrite !filter_cons_True by done. by rewrite fmap_cons, IH.
Qed.

Lemma removeRecord_distinct recordId records :
  NoDup (LinkedRecord.Id <$> records) →
  NoDup (LinkedRecord.Id <$> removeRecord recordId records).
Proof. rewrite removeRecord_ids. apply NoDup_filter. Qed.

Lemma removeRecord_absent recordId records :
  recordId ∉ LinkedRecord.Id <$> records →
  removeRecord recordId records = records.
Proof.
  unfold removeRecord. induction records as [|r records IH]; [done|].
  rewrite fmap_cons, not_elem_of_cons. intros [Hne Hrest].
  rewrite filter_cons_True by done. by rewrite IH.
Qed.

(** X13: the records linked in a draft keep distinct [Id]s.  Adding and
    removing linked records, in the form for a new note and in the edit
    form, opening the form for a new note and cancelling: each of these
    handlers leaves both drafts without two records of the same [Id] if
    it found them so. *)
Theorem linked_records_stay_distinct recordId recordName relatedObject f :
  distinctDrafts f →
  distinctDrafts (handleAddRecord recordId recordName relatedObject f)
  ∧ distinctDrafts (handleRemoveRecord recordId f)
  ∧ distinctDrafts (handleEditAddRecord recordId recordName relatedObject f)
  ∧ distinctDrafts (handleEditRemoveRecord recordId f)
  ∧ distinctDrafts (handleNewNote f)
  ∧ distinctDrafts (handleCancel f).
Proof.
  intros [Hnew Hedit]. unfold distinctDrafts, draftIds in *.
  repeat split; simpl;
    auto using addRecord_distinct, removeRecord_distinct, NoDup_nil_2.
Qed.

Lemma linked_records_stay_distinct_witness :
  distinctDrafts
    (handleAddRecord (JStr "003") (JStr "Acme") (JStr "Account")
       (handleAddRecord (JStr "003") (JStr "Acme Ltd") (JStr "Account")
          (handleCancel
             {| newNote := emptyDraft; editingNote := emptyDraft;
                editingNoteId := JStr ""; replyToNoteId := JStr "";
                showNewNoteForm := true; showReplyForm := false;
                showEditForm := false; searchTerm := JStr "acm";
                searchResults := [] |}))).
Proof.
  apply linked_records_stay_distinct.
  apply linked_records_stay_distinct.
  split; apply NoDup_nil_2.
Defined.

(** X14: adding and removing a linked record undo each other.  After
    [handleAddRecord] a record with the [Id] is in the draft, and a second
    add of the same [Id] changes nothing (the name given the second time
    is dropped); after [handleRemoveRecord] no record with the [Id] is
    left; and removing a record that was just added to a draft that did
    not have its [Id] gives back the draft as it was. *)
Theorem add_and_remove_linked_record recordId name object name' object' f :
  recordId ∈ draftIds (newNote (handleAddRecord recordId name object f))
  ∧ (handleAddRecord recordId name' object'
       (handleAddRecord recordId name object f)
     = handleAddRecord recordId name object f)
  ∧ (recordId ∉ draftIds (newNote (handleRemoveRecord recordId f)))
  ∧ (recordId ∉ draftIds (newNote f) →
     newNote (handleRemoveRecord recordId (handleAddRecord recordId name object f))
     = newNote f).
Proof.
  unfold draftIds. simpl.
  assert (recordId ∈ (LinkedRecord.Id <$>
            addRecord recordId name object (Draft.linkedRecords (newNote f))))
    as Hin.
  { unfold addRecord.
    destruct (hasRecord recordId _) eqn:Hhas; simpl.
    - by apply hasRecord_elem.
    - rewrite fmap_app. apply elem_of_app. right. simpl. left. }
  split; [done|]. split; [|split].
  - unfold handleAddRecord. simpl. unfold addRecord at 1.
    apply hasRecord_elem in Hin. by rewrite Hin.
  - rewrite removeRecord_ids. intros [Hne _]%list_elem_of_filter. done.
  - intros Hnot. unfold addRecord.
    apply hasRecord_not_elem in Hnot as Hhas. rewrite Hhas. simpl.
    unfold removeRecord. rewrite filter_app.
    rewrite filter_cons_False, filter_nil, app_nil_r by naive_solver.
    fold (removeRecord recordId (Draft.linkedRecords (newNote f))).
    rewrite removeRecord_absent by done. by destruct (newNote f).
Qed.

Lemma add_and_remove_linked_record_witness :
  newNote (handleRemoveRecord (JStr "003")
             (handleAddRecord (JStr "003") (JStr "Acme") (JStr "Account")
                {| newNote := emptyDraft; editingNote := emptyDraft;
                   editingNoteId := JStr ""; replyToNoteId := JStr "";
                   showNewNoteForm := true; showReplyForm := false;
                   showEditForm := false; searchTerm := JStr "acm";
                   searchResults := [] |}))
  = emptyDraft.
Proof.
  refine (proj2 (proj2 (proj2 (add_and_remove_linked_record (JStr "003")
            (JStr "Acme") (JStr "Account") (JStr "Acme") (JStr "Account")
            _))) _).
  apply not_elem_of_nil.
Defined.

(** ** Saving, updating and deleting in [note.js] *)

Lemma NoteJs_forceRefresh_completes fmt getNotes outs this :
  (NoteJsPage.forceRefresh fmt getNotes outs this).2 = Ok ().
Proof.
  apply (loadNotesWith_completes (NoteJs.processNotes fmt) getNotes outs this).
Qed.

(** [handleSave] with a filled draft, by how [saveNote] settles. *)
Lemma NoteJs_handleSave_valid fmt saveNote getNotes outs this :
  to_boolean (validateDraft (newNote (form this))) = true →
  NoteJsPage.handleSave fmt saveNote getNotes outs this
  = let draft := newNote (form this) in
    let request :=
      SaveNote (Draft.title draft) (Draft.category draft) (Draft.body draft)
        (if showReplyForm (form this) then replyToNoteId (form this)
         else JStr "")
        (draftIds draft ++ [this_recordId (core this)])
        ((LinkedRecord.RelatedObject <$> Draft.linkedRecords draft)
           ++ [this_objectApiName (core this)]) in
    match saveNote with
    | Fulfilled _ =>
        ({| core :=
              set_this_isLoading false
                (NoteJsPage.forceRefresh fmt getNotes outs
                   (showToast "Success" "Note saved successfully" "success"
                      (set_this_isLoading true (core this)))).1;
            form := handleCancel (form this);
            requests := requests this ++ [request] |},
         Ok ())
    | Rejected error =>
        ({| core :=
              set_this_isLoading false
                (showToast "Error"
                   ("Failed to save note: "
                      +:+ to_string (getErrorMessage error))
                   "error" (set_this_isLoading true (core this)));
            form := form this;
            requests := requests this ++ [request] |},
         Ok ())
    end.
Proof.
  intros Hvalid.
  unfold NoteJsPage.handleSave, mbind, mutator_bind, getThis.
  rewrite Hvalid. simpl.
  unfold tryFinally, tryCatch, assign, lift, inCore, onCore, onForm, send.
  simpl. destruct saveNote as [[]|error]; simpl; [|done].
  pose proof (NoteJs_forceRefresh_completes fmt getNotes outs
                (showToast "Success" "Note saved successfully" "success"
                   (set_this_isLoading true (core this)))) as Hok.
  destruct (NoteJsPage.forceRefresh fmt getNotes outs _) as [c r].
  simpl in Hok. by subst r.
Qed.

Lemma NoteJs_handleSave_invalid fmt saveNote getNotes outs this :
  to_boolean (validateDraft (newNote (form this))) = false →
  NoteJsPage.handleSave fmt saveNote getNotes outs this = (this, Ok ()).
Proof.
  intros Hinvalid.
  unfold NoteJsPage.handleSave, mbind, mutator_bind, getThis.
  by rewrite Hinvalid.
Qed.

(** [handleUpdateNote] with a filled draft. *)
Lemma NoteJs_handleUpdateNote_valid fmt updateNote getNotes outs this :
  to_boolean (validateDraft (editingNote (form this))) = true →
  NoteJsPage.handleUpdateNote fmt updateNote getNotes outs this
  = let draft := editingNote (form this) in
    let included := bool_decide (this_recordId (core this) ∈ draftIds draft) in
    let request :=
      UpdateNote (editingNoteId (form this))
        (Draft.title draft) (Draft.category draft) (Draft.body draft)
        (if included then draftIds draft
         else draftIds draft ++ [this_recordId (core this)])
        (if included then LinkedRecord.RelatedObject <$> Draft.linkedRecords draft
         else (LinkedRecord.RelatedObject <$> Draft.linkedRecords draft)
                ++ [this_objectApiName (core this)]) in
    match updateNote with
    | Fulfilled _ =>
        ({| core :=
              set_this_isLoading false
                (NoteJsPage.forceRefresh fmt getNotes outs
                   (showToast "Success" "Note updated successfully" "success"
                      (set_this_isLoading true (core this)))).1;
            form := handleCancel (form this);
            requests := requests this ++ [request] |},
         Ok ())
    | Rejected error =>
        ({| core :=
              set_this_isLoading false
                (showToast "Error"
                   ("Failed to update note: "
                      +:+ to_string (getErrorMessage error))
                   "error" (set_this_isLoading true (core this)));
            form := form this;
            requests := requests this ++ [request] |},
         Ok ())
    end.
Proof.
  intros Hvalid.
  unfold NoteJsPage.handleUpdateNote, mbind, mutator_bind, getThis.
  rewrite Hvalid. simpl.
  unfold tryFinally, tryCatch, assign, lift, inCore, onCore, onForm, send.
  simpl. destruct updateNote as [[]|error]; simpl; [|done].
  pose proof (NoteJs_forceRefresh_completes fmt getNotes outs
                (showToast "Success" "Note updated successfully" "success"
                   (set_this_isLoading true (core this)))) as Hok.
  destruct (NoteJsPage.forceRefresh fmt getNotes outs _) as [c r].
  simpl in Hok. by subst r.
Qed.

Lemma NoteJs_handleUpdateNote_invalid fmt updateNote getNotes outs this :
  to_boolean (validateDraft (editingNote (form this))) = false →
  NoteJsPage.handleUpdateNote fmt updateNote getNotes outs this = (this, Ok ()).
Proof.
  intros Hinvalid.
  unfold NoteJsPage.handleUpdateNote, mbind, mutator_bind, getThis.
  by rewrite Hinvalid.
Qed.

(** [handleDelete], by how [deleteNote] settles. *)
Lemma NoteJs_handleDelete_cases fmt noteId deleteNote getNotes outs this :
  NoteJsPage.handleDelete fmt noteId deleteNote getNotes outs this
  = match deleteNote with
    | Fulfilled _ =>
        ({| core :=
              set_this_isLoading false
                (NoteJsPage.forceRefresh fmt getNotes outs
                   (showToast "Success" "Note deleted successfully" "success"
                      (set_this_isLoading true (core this)))).1;
            form := form this;
            requests := requests this ++ [DeleteNote noteId] |},
         Ok ())
    | Rejected error =>
        ({| core :=
              set_this_isLoading false
                (showToast "Error"
                   ("Failed to delete note: "
                      +:+ to_string (getErrorMessage error))
                   "error" (set_this_isLoading true (core this)));
            form := form this;
            requests := requests this ++ [DeleteNote noteId] |},
         Ok ())
    end.
Proof.
  unfold NoteJsPage.handleDelete, mbind, mutator_bind.
  unfold tryFinally, tryCatch, assign, lift, inCore, onCore, onForm, send.
  simpl. destruct deleteNote as [[]|error]; simpl; [|done].
  pose proof (NoteJs_forceRefresh_completes fmt getNotes outs
                (showToast "Success" "Note deleted successfully" "success"
                   (set_this_isLoading true (core this)))) as Hok.
  destruct (NoteJsPage.forceRefresh fmt getNotes outs _) as [c r].
  simpl in Hok. by subst r.
Qed.

(** ** Finding a note by its [Id] *)

Section NodeLookupFacts.
Context {E X : Type}.
Implicit Types (notes : list (parentNote E X)) (n : node E).

Lemma findRoot_Some noteId notes p :
  findRoot noteId notes = Some p →
  p ∈ notes ∧ Id (fields (self p)) = noteId.
Proof.
  unfold findRoot. intros H.
  destruct (list_find _ notes) as [[i q]|] eqn:Hfind; [|done].
  injection H as <-. apply list_find_Some in Hfind as (Hq & Hid & _).
  split; [by eapply list_elem_of_lookup_2|done].
Qed.

Lemma findRoot_None noteId notes p :
  findRoot noteId notes = None → p ∈ notes → Id (fields (self p)) ≠ noteId.
Proof.
  unfold findRoot. intros H Hp.
  destruct (list_find _ notes) as [[i q]|] eqn:Hfind; [done|].
  apply list_find_None in Hfind.
  by eapply Forall_forall in Hfind.
Qed.





End NodeLookupFacts.


(** ** What [note.js] sends to the server *)

(** X16: [handleSave] of [note.js] sends one well-formed request, or
    nothing.  When title, category and body of the draft are all truthy,
    exactly one [saveNote] call is made, however it settles afterwards: it
    carries the draft's fields, the note replied to as parent when the
    reply form is shown and the empty string otherwise, and the [Id]s of
    the draft's linked records followed by the host record, with one
    object name per [Id], the host's last.  When one of the three fields is
    falsy the handler returns at once and changes nothing. *)
Theorem handleSave_sends_one_request fmt saveNote getNotes outs this :
  let draft := newNote (form this) in
  let after := (NoteJsPage.handleSave fmt saveNote getNotes outs this).1 in
  if to_boolean (validateDraft draft) then
    ∃ ids objects,
      requests after
      = requests this
          ++ [SaveNote (Draft.title draft) (Draft.category draft)
                (Draft.body draft)
                (if showReplyForm (form this) then replyToNoteId (form this)
                 else JStr "")
                ids objects]
      ∧ ids = draftIds draft ++ [this_recordId (core this)]
      ∧ List.length objects = List.length ids
      ∧ last objects = Some (this_objectApiName (core this))
  else after = this.
Proof.
  intros draft after. subst draft after.
  destruct (to_boolean (validateDraft (newNote (form this)))) eqn:Hvalid.
  - rewrite NoteJs_handleSave_valid by done. cbv zeta.
    eexists _, _. split; [by destruct saveNote|].
    split; [done|]. split.
    + unfold draftIds. by rewrite !length_app, !length_fmap.
    + apply last_snoc.
  - by rewrite NoteJs_handleSave_invalid.
Qed.

(** X17: the request of [handleUpdateNote] of [note.js] names the host
    record exactly as often as needed.  With a filled draft under edit,
    one [updateNote] call is made for [editingNoteId]; its [Id]s start
    with those of the draft's linked records, contain the host record,
    come with as many object names, and are distinct whenever the draft's
    are: the host record is appended only when the draft does not link it
    already. *)
Theorem handleUpdateNote_links_host_once fmt updateNote getNotes outs this :
  let draft := editingNote (form this) in
  let after := (NoteJsPage.handleUpdateNote fmt updateNote getNotes outs this).1 in
  to_boolean (validateDraft draft) = true →
  ∃ ids objects,
    requests after
    = requests this
        ++ [UpdateNote (editingNoteId (form this))
              (Draft.title draft) (Draft.category draft) (Draft.body draft)
              ids objects]
    ∧ draftIds draft `prefix_of` ids
    ∧ this_recordId (core this) ∈ ids
    ∧ List.length objects = List.length ids
    ∧ (NoDup (draftIds draft) → NoDup ids).
Proof.
  intros draft after Hvalid. subst draft after.
  rewrite NoteJs_handleUpdateNote_valid by done. cbv zeta.
  eexists _, _. split; [by destruct updateNote|].
  unfold draftIds.
  destruct (bool_decide _) eqn:Hin.
  - apply bool_decide_eq_true in Hin. repeat split; try done.
    by rewrite !length_fmap.
  - apply bool_decide_eq_false in Hin. repeat split.
    + by apply prefix_app_r.
    + apply elem_of_app. right. by left.
    + by rewrite !length_app, !length_fmap.
    + intros Hnodup. apply NoDup_app. split; [done|]. split.
      * intros x Hx ->%list_elem_of_singleton. done.
      * apply NoDup_singleton.
Qed.

Lemma handleUpdateNote_links_host_once_witness :
  ∃ ids objects,
    requests (NoteJsPage.handleUpdateNote sampleDate (Fulfilled ())
                (Fulfilled (InArray sampleNotes)) (λ _, Fulfilled None)
                (pageOf sampleComponent sampleForms)).1
    = [UpdateNote (JStr "A") (JStr "Note A") (JStr "General")
         (JStr "text, revised") ids objects]
    ∧ JStr "001" ∈ ids.
Proof.
  destruct (handleUpdateNote_links_host_once sampleDate (Fulfilled ())
              (Fulfilled (InArray sampleNotes)) (λ _, Fulfilled None)
              (pageOf sampleComponent sampleForms) eq_refl)
    as (ids & objects & Hsent & _ & Hhost & _).
  by exists ids, objects.
Defined.

(** X18: a change that the server refuses costs the user nothing.  When
    [saveNote], [updateNote] or [deleteNote] is rejected, [handleSave],
    [handleUpdateNote] and [handleDelete] (for any note) of [note.js] show
    one error
    toast with the message of the error and turn the spinner off; the
    forms stay open with both drafts as they were, and the list and its
    open sections are not reloaded. *)
Theorem refused_change_keeps_the_draft fmt error getNotes outs noteId this :
  (to_boolean (validateDraft (newNote (form this))) = true →
   refused "save" error this
     (NoteJsPage.handleSave fmt (Rejected error) getNotes outs this).1)
  ∧ (to_boolean (validateDraft (editingNote (form this))) = true →
     refused "update" error this
       (NoteJsPage.handleUpdateNote fmt (Rejected error) getNotes outs this).1)
  ∧ refused "delete" error this
      (NoteJsPage.handleDelete fmt noteId (Rejected error) getNotes outs this).1.
Proof.
  split; [|split].
  - intros Hvalid. by rewrite NoteJs_handleSave_valid.
  - intros Hvalid. by rewrite NoteJs_handleUpdateNote_valid.
  - by rewrite NoteJs_handleDelete_cases.
Qed.

Lemma refused_change_keeps_the_draft_witness :
  newNote (form (NoteJsPage.handleSave sampleDate (Rejected sampleError)
                   (Fulfilled (InArray sampleNotes)) (λ _, Fulfilled None)
                   (pageOf sampleComponent sampleForms)).1)
  = newNote sampleForms.
Proof.
  destruct (proj1 (refused_change_keeps_the_draft sampleDate sampleError
                     (Fulfilled (InArray sampleNotes)) (λ _, Fulfilled None)
                     (JStr "A") (pageOf sampleComponent sampleForms)) eq_refl)
    as (Hform & _).
  by rewrite Hform.
Defined.

(** X19: a save that goes through ends on the server's fresh list.  With
    a filled draft, the record context set, [saveNote] fulfilled and
    [getNotes] bringing records whose roots have titles, [handleSave] of
    [note.js] shows the success toast and no other, closes the three forms
    and clears both drafts, and leaves the notes grouped from the records
    just fetched, with the spinner off. *)
Theorem saved_note_refreshes_the_list fmt rawNotes outs this :
  let after := (NoteJsPage.handleSave fmt (Fulfilled ())
                  (Fulfilled (InArray rawNotes)) outs this).1 in
  to_boolean (validateDraft (newNote (form this))) = true →
  hasRecordContext (core this) = true →
  titled rawNotes →
  groupedFrom rawNotes (this_notes (core after))
  ∧ form after = handleCancel (form this)
  ∧ newNote (form after) = emptyDraft
  ∧ showNewNoteForm (form after) = false
  ∧ showReplyForm (form after) = false
  ∧ this_isLoading (core after) = false
  ∧ dispatched (core after)
    = dispatched (core this)
        ++ [{| title := "Success"; message := "Note saved successfully";
               variant := "success" |}].
Proof.
  intros after Hvalid Hguard Htitled. subst after.
  rewrite NoteJs_handleSave_valid by done. cbv zeta. cbn [fst core form].
  unfold NoteJsPage.forceRefresh, NoteJs.loadNotes.
  rewrite loadNotesWith_fulfilled by done.
  destruct (NoteJs_processNotes_full fmt rawNotes outs
              (set_this_isLoading true
                 (showToast "Success" "Note saved successfully" "success"
                    (set_this_isLoading true (core this)))) Htitled)
    as (out & -> & Hgrouped).
  done.
Qed.

Lemma saved_note_refreshes_the_list_witness :
  groupedFrom sampleNotes
    (this_notes (core (NoteJsPage.handleSave sampleDate (Fulfilled ())
                         (Fulfilled (InArray sampleNotes))
                         (λ _, Fulfilled None)
                         (pageOf sampleComponent sampleForms)).1)).
Proof.
  exact (proj1 (saved_note_refreshes_the_list sampleDate sampleNotes
                  (λ _, Fulfilled None) (pageOf sampleComponent sampleForms)
                  eq_refl eq_refl sampleNotes_titled)).
Defined.

(** X20: the three handlers of [note.js] that change notes never reject.
    Whatever the server call and the reload after it bring, and whatever
    the records hold, the promises of [handleSave], [handleUpdateNote] and
    [handleDelete] are fulfilled; and unless the handler returned at once
    for an unfilled draft, the spinner is off at the end. *)
Theorem changes_never_reject fmt call getNotes outs noteId this :
  let save := NoteJsPage.handleSave fmt call getNotes outs this in
  let update := NoteJsPage.handleUpdateNote fmt call getNotes outs this in
  let delete := NoteJsPage.handleDelete fmt noteId call getNotes outs this in
  save.2 = Ok () ∧ update.2 = Ok () ∧ delete.2 = Ok ()
  ∧ this_isLoading (core save.1)
    = (if to_boolean (validateDraft (newNote (form this))) then false
       else this_isLoading (core this))
  ∧ this_isLoading (core update.1)
    = (if to_boolean (validateDraft (editingNote (form this))) then false
       else this_isLoading (core this))
  ∧ this_isLoading (core delete.1) = false.
Proof.
  intros save update delete. subst save update delete.
  rewrite NoteJs_handleDelete_cases.
  destruct (to_boolean (validateDraft (newNote (form this)))) eqn:Hnew;
    destruct (to_boolean (validateDraft (editingNote (form this)))) eqn:Hedit;
    rewrite ?NoteJs_handleSave_valid, ?NoteJs_handleSave_invalid,
            ?NoteJs_handleUpdateNote_valid, ?NoteJs_handleUpdateNote_invalid
      by done;
    cbv zeta; by destruct call.
Qed.

(** ** Replying and editing, then sending *)

Lemma to_boolean_Re s : to_boolean (JStr ("Re: " +:+ s)) = true.
Proof. done. Qed.

(** X21: a reply is sent under the root it answers, once it has a body.
    Right after [handleReply] the draft has an empty body, so [handleSave]
    of [note.js] sends nothing.  After [handleRichTextChange] has put a
    truthy body in: when some root of the list has the [Id] replied to and
    a truthy category, one [saveNote] call goes out with that [Id] as
    parent, the title ['Re: '] followed by the root's title, the root's
    category, the body, and the host record as the only link; when no root
    has the [Id] (a reply, say), the title is empty and nothing is sent. *)
Theorem reply_is_sent_under_its_root fmt noteId body saveNote getNotes outs
    (this : page NoteJs.parentNote) :
  let save p := (NoteJsPage.handleSave fmt saveNote getNotes outs p).1 in
  let replying := handleReply noteId this in
  let written := onForm (handleRichTextChange body) replying in
  save replying = replying
  ∧ ((∃ root, root ∈ this_notes (core this)
              ∧ Id (fields (self root)) = noteId
              ∧ (to_boolean (Category__c (fields (self root))) = true →
                 to_boolean body = true →
                 requests (save written)
                 = requests this
                     ++ [SaveNote
                           (JStr ("Re: "
                                    +:+ to_string (Title__c (fields (self root)))))
                           (Category__c (fields (self root))) body noteId
                           [this_recordId (core this)]
                           [this_objectApiName (core this)]]))
     ∨ ((∀ root, root ∈ this_notes (core this) →
                 Id (fields (self root)) ≠ noteId)
        ∧ save written = written)).
Proof.
  intros save replying written. subst save replying written.
  unfold handleReply. cbn [onForm form core replyToNoteId set_showReplyForm
                             set_replyToNoteId].
  destruct (findRoot noteId (this_notes (core this))) as [root|] eqn:Hroot.
  - split.
    + rewrite NoteJs_handleSave_invalid; [done|].
      unfold validateDraft. simpl.
      by destruct (to_boolean (Category__c (fields (self root)))) eqn:Hcategory.
    + left. exists root. apply findRoot_Some in Hroot as [Hin Hid].
      split; [done|]. split; [done|]. intros Hcategory Hbody.
      rewrite NoteJs_handleSave_valid.
      * by destruct saveNote.
      * unfold validateDraft. simpl. by rewrite Hcategory.
  - split.
    + by rewrite NoteJs_handleSave_invalid.
    + right. split; [intros root; by apply findRoot_None|].
      by rewrite NoteJs_handleSave_invalid.
Qed.

Lemma reply_is_sent_under_its_root_witness :
  requests (NoteJsPage.handleSave sampleDate (Fulfilled ())
              (Fulfilled (InArray sampleNotes)) (λ _, Fulfilled None)
              (onForm (handleRichTextChange (JStr "Thanks"))
                 (handleReply (JStr "A") samplePage))).1
  = [SaveNote (JStr "Re: Note A") (JStr "General") (JStr "Thanks") (JStr "A")
       [JStr "001"] [JStr "Account"]].
Proof.
  destruct (proj2 (reply_is_sent_under_its_root sampleDate (JStr "A")
                     (JStr "Thanks") (Fulfilled ())
                     (Fulfilled (InArray sampleNotes)) (λ _, Fulfilled None)
                     samplePage))
    as [(root & Hin & Hid & Hsent)|[Hnone _]].
  - apply list_elem_of_singleton in Hin. subst root.
    exact (Hsent eq_refl eq_refl).
  - exfalso. apply (Hnone sampleShown); [by left|done].
Defined.



(** ** Saving and deleting in [part_000] *)

Lemma Basic_loadNotes_dispatched getNotes (this : component Basic.parentNote) :
  dispatched (Basic.loadNotes getNotes this) = dispatched this
  ∨ ∃ m, dispatched (Basic.loadNotes getNotes this)
         = dispatched this
             ++ [{| title := "Error";
                    message := "Failed to load notes: " +:+ m;
                    variant := "error" |}].
Proof.
  unfold Basic.loadNotes.
  destruct (negb _ || negb _); [by left|].
  unfold tryCatch, mbind, mutator_bind, lift, assign.
  destruct getNotes as [rawNotes|error]; simpl.
  - destruct (Basic.processNotes rawNotes) as [out|error]; simpl;
      [by left|right; eauto].
  - right; eauto.
Qed.

Lemma BasicPage_missing_false v :
  BasicPage.missing v = Ok false → to_boolean v = true.
Proof. unfold BasicPage.missing. by destruct (to_boolean v). Qed.

Lemma BasicPage_validateForm_true f :
  BasicPage.validateForm f = Ok true →
  to_boolean (Draft.title (newNote f)) = true
  ∧ to_boolean (Draft.category (newNote f)) = true
  ∧ to_boolean (Draft.body (newNote f)) = true.
Proof.
  unfold BasicPage.validateForm.
  destruct (BasicPage.missing (Draft.title (newNote f)))
    as [[]|] eqn:Htitle; simpl;
    destruct (BasicPage.missing (Draft.category (newNote f)))
      as [[]|] eqn:Hcategory; simpl;
    destruct (BasicPage.missing (Draft.body (newNote f)))
      as [[]|] eqn:Hbody; simpl; try done.
  intros _. repeat split; by apply BasicPage_missing_false.
Qed.

(** X23: in [part_000], [handleSave] cannot reach its toast about
    mismatched array lengths, and sends nothing incomplete.  Whatever the
    draft, the server call and the reload bring, the toasts the handler
    adds never include 'Data validation error: mismatched array lengths':
    the two arrays it compares are always of one length.  It makes at most
    one [saveNote] call, and that only for a draft whose title, category
    and body are all truthy, with the host record as last linked [Id] and
    one object name per [Id]. *)
Theorem part_000_handleSave_never_reports_mismatch saveNote getNotes this :
  let draft := newNote (form this) in
  let after := BasicPage.handleSave saveNote getNotes this in
  (∃ new, dispatched (core after) = dispatched (core this) ++ new
          ∧ mismatchToast ∉ new)
  ∧ (requests after = requests this
     ∨ ∃ parentNoteId ids objects,
         requests after
         = requests this
             ++ [SaveNote (Draft.title draft) (Draft.category draft)
                   (Draft.body draft) parentNoteId ids objects]
         ∧ to_boolean (Draft.title draft) = true
         ∧ to_boolean (Draft.category draft) = true
         ∧ to_boolean (Draft.body draft) = true
         ∧ ids = draftIds draft ++ [this_recordId (core this)]
         ∧ List.length objects = List.length ids).
Proof.
  intros draft after. subst draft after. unfold BasicPage.handleSave.
  assert (mismatchToast ∉ @nil toast) as Hnil by apply not_elem_of_nil.
  destruct (BasicPage.validateForm (form this)) as [[]|error] eqn:Hvalid;
    [|split; [exists []; by rewrite app_nil_r|by left]..].
  apply BasicPage_validateForm_true in Hvalid as (Htitle & Hcategory & Hbody).
  set (records := Draft.linkedRecords (newNote (form this))).
  assert ((if (0 <? List.length records)%nat
           then LinkedRecord.Id <$> records else [])
          = LinkedRecord.Id <$> records) as Hids
    by (clearbody records; by destruct records).
  assert (List.length
            ((if (0 <? List.length records)%nat
              then LinkedRecord.RelatedObject <$> records else [])
               ++ [this_objectApiName (core this)])
          = List.length ((LinkedRecord.Id <$> records)
                           ++ [this_recordId (core this)])) as Hlen
    by (clearbody records; destruct records as [|r rs]; [done|];
        cbn [List.length Nat.ltb Nat.leb];
        by rewrite !length_app, !length_fmap).
  rewrite Hids.
  rewrite (proj2 (Nat.eqb_eq _ _) (eq_sym Hlen)). cbn [negb].
  split.
  - destruct saveNote as [[]|error]; cbn [onCore onForm send core].
    + destruct (Basic_loadNotes_dispatched getNotes
                  (showToast "Success" "Note saved successfully" "success"
                     (core this))) as [->|[m ->]]; cbn [dispatched showToast].
      * eexists. split; [done|].
        unfold mismatchToast. by intros [= ]%list_elem_of_singleton.
      * eexists. split; [by rewrite <- app_assoc|].
        unfold mismatchToast. simpl.
        rewrite !elem_of_cons, elem_of_nil. by intros [[=]|[[=]|[]]].
    + eexists. split; [done|].
      unfold mismatchToast. simpl. by intros [= ]%list_elem_of_singleton.
  - right. eexists _, _, _. split; [by destruct saveNote as [[]|error]|].
    done.
Qed.

(** X24: a delete without an [Id].  When the button clicked carries no
    [data-note-id] (or an empty one), [handleDelete] of [part_000] calls
    nothing on the server, leaves the list alone and shows the toast 'No
    note ID provided for deletion'; [handleDelete] of [note.js] has no such
    guard and calls [deleteNote] with whatever it read.  With a truthy
    [Id] both make exactly one [deleteNote] call for it. *)
Theorem delete_without_an_id fmt noteId deleteNote getNotes outs
    (basic : page Basic.parentNote) (this : page NoteJs.parentNote) :
  (to_boolean noteId = false →
   let after := BasicPage.handleDelete noteId deleteNote getNotes basic in
   requests after = requests basic
   ∧ this_notes (core after) = this_notes (core basic)
   ∧ dispatched (core after)
     = dispatched (core basic)
         ++ [{| title := "Error";
                message := "No note ID provided for deletion";
                variant := "error" |}])
  ∧ (to_boolean noteId = true →
     requests (BasicPage.handleDelete noteId deleteNote getNotes basic)
     = requests basic ++ [DeleteNote noteId])
  ∧ requests (NoteJsPage.handleDelete fmt noteId deleteNote getNotes outs this).1
    = requests this ++ [DeleteNote noteId].
Proof.
  split; [|split].
  - intros Hid after. subst after. unfold BasicPage.handleDelete.
    by rewrite Hid.
  - intros Hid. unfold BasicPage.handleDelete. rewrite Hid.
    by destruct deleteNote.
  - rewrite NoteJs_handleDelete_cases. by destruct deleteNote.
Qed.

Lemma delete_without_an_id_witness :
  requests (BasicPage.handleDelete JUndefined (Fulfilled ())
              (Fulfilled (InArray sampleNotes))
              (pageOf sampleComponent sampleForms)) = []
  ∧ requests (NoteJsPage.handleDelete sampleDate JUndefined (Fulfilled ())
                (Fulfilled (InArray sampleNotes)) (λ _, Fulfilled None)
                samplePage).1 = [DeleteNote JUndefined].
Proof.
  destruct (delete_without_an_id sampleDate JUndefined (Fulfilled ())
              (Fulfilled (InArray sampleNotes)) (λ _, Fulfilled None)
              (pageOf sampleComponent sampleForms) samplePage)
    as (Hguard & _ & Hsent).
  split; [exact (proj1 (Hguard eq_refl))|exact Hsent].
Defined.

(** ** The order in which the fetches come back *)

(** X25: the enriched tree does not depend on the order in which the
    [getLinkedRecords] calls settle and the calls of
    [loadRelatedRecordsForNote] resume.  Two flights of
    [loadAllRelatedRecords] over the same tree, each run until the promise
    of [Promise.all] is fulfilled, in which every fetch settled the same
    way, end on the same tree: each call writes on its own node only. *)
Theorem settlement_order_does_not_matter {X}
    (notes : list (parentNote enrichment X)) evs1 evs2 s1 s2 :
  steps evs1 (launch notes) = Some s1 →
  steps evs2 (launch notes) = Some s2 →
  loadAllRelatedRecords_promise s1 = Some (Ok ()) →
  loadAllRelatedRecords_promise s2 = Some (Ok ()) →
  fetches s1 = fetches s2 →
  treeOf notes s1 = treeOf notes s2.
Proof.
  intros Hcons1%flight_consistent Hcons2%flight_consistent Hdone1 Hdone2 Hsame.
  unfold treeOf. f_equal. apply list_eq. intros k.
  destruct (nodesOf notes !! k) as [nd|] eqn:Hnd.
  - destruct (consistent_fulfilled _ _ _ _ Hcons1 Hdone1 Hnd)
      as (o1 & Hfetch1 & ->).
    destruct (consistent_fulfilled _ _ _ _ Hcons2 Hdone2 Hnd)
      as (o2 & Hfetch2 & ->).
    rewrite Hsame, Hfetch2 in Hfetch1. by injection Hfetch1 as ->.
  - apply lookup_ge_None in Hnd.
    destruct Hcons1 as (Hlen1 & _), Hcons2 as (Hlen2 & _).
    rewrite (proj2 (lookup_ge_None (store s1) k)) by lia.
    by rewrite (proj2 (lookup_ge_None (store s2) k)) by lia.
Qed.

Lemma settlement_order_does_not_matter_witness :
  ∃ s1 s2, steps sampleRun (launch sampleTree) = Some s1
           ∧ steps sampleRunInOrder (launch sampleTree) = Some s2
           ∧ treeOf sampleTree s1 = treeOf sampleTree s2.
Proof.
  eexists _, _. split; [vm_compute; reflexivity|].
  split; [vm_compute; reflexivity|].
  apply (settlement_order_does_not_matter sampleTree sampleRun sampleRunInOrder);
    reflexivity.
Defined.
